(** * Path-ORAM client/server: a shallow embedding of [server.py] and [client.py]

    Python integers are [Z] (addresses, block fields) or [nat] (tree indices,
    leaf numbers, sizes); a [bytes] value is a list of [Z] in [0, 256); a
    [str] is represented by its UTF-8 encoding, so [str.encode('utf-8')] is
    the identity and [bytes.decode('utf-8')] is a validity check.  A list used
    as an array is a [list] read with stdpp's [!!] and written with
    [<[i:=v]>] behind an explicit bounds test (Python raises [IndexError]);
    the position map, a [dict], is a [gmap Z nat].  Randomness
    ([random.randint], [os.urandom], [AESGCM.generate_key]) is passed in as
    arguments.  AES-GCM is an interface ([Cipher]) with its two functional
    laws kept apart ([CipherCorrect]).  A raised exception is a value that
    carries the state the in-place mutations had reached. *)

From stdpp Require Import base tactics option list numbers strings functions gmap.
From Stdlib Require Import ZArith Lia Ascii.

Local Open Scope Z_scope.

(** ** Python primitives on bytes *)

Abbreviation bytes := (list Z) (only parsing).

(** The bytes of an ASCII string literal. *)
Definition bytes_of_string (s : string) : bytes :=
  (λ c, Z.of_N (N_of_ascii c)) <$> String.list_ascii_of_string s.

Inductive exn :=
  | KeyError | IndexError | InvalidTag | OverflowError
  | UnicodeDecodeError | ZeroDivisionError | ValueError.

#[global] Instance exn_eq_dec : EqDecision exn.
Proof. solve_decision. Defined.

(** A computation that returns or raises. *)
Inductive result (A : Type) :=
  | Ok (v : A)
  | Raise (e : exn).
Arguments Ok {A} v.
Arguments Raise {A} e.

Definition rbind {A B} (m : result A) (f : A → result B) : result B :=
  match m with Ok v => f v | Raise e => Raise e end.

Notation "x ←r m ; k" := (rbind m (λ x, k))
  (at level 20, m at level 100, k at level 200, only parsing, right associativity).

Definition or_raise {A} (e : exn) (o : option A) : result A :=
  match o with Some v => Ok v | None => Raise e end.

Fixpoint rmapM {A B} (f : A → result B) (l : list A) : result (list B) :=
  match l with
  | [] => Ok []
  | v :: l' => y ←r f v; ys ←r rmapM f l'; Ok (y :: ys)
  end.

(** [n.to_bytes(4, 'big')]: OverflowError outside [0, 2^32). *)
Definition to_bytes4 (n : Z) : result bytes :=
  if bool_decide (0 ≤ n < 2 ^ 32)
  then Ok [(n / 2 ^ 24) `mod` 256; (n / 2 ^ 16) `mod` 256; (n / 2 ^ 8) `mod` 256; n `mod` 256]
  else Raise OverflowError.

(** [int.from_bytes(bs, 'big')]. *)
Definition from_bytes (bs : bytes) : Z :=
  foldl (λ acc b, acc * 256 + b) 0 bs.

(** [bs[lo:hi]] for [0 <= lo <= hi]: slices clamp, they never raise. *)
Definition slice (lo hi : nat) (bs : bytes) : bytes :=
  take (hi - lo) (drop lo bs).

(** The separator [b"||"]. *)
Definition bar : Z := 124.
Definition sep : bytes := [bar; bar].

(** [sep.join(parts)]. *)
Fixpoint join (parts : list bytes) : bytes :=
  match parts with
  | [] => []
  | [p] => p
  | p :: rest => p ++ sep ++ join rest
  end.

(** [bs.split(b"||")]: the leftmost occurrences, never overlapping. *)
Fixpoint split (bs : bytes) : list bytes :=
  match bs with
  | [] => [[]]
  | b1 :: tl =>
      match tl with
      | b2 :: rest =>
          if bool_decide (b1 = bar) && bool_decide (b2 = bar)
          then [] :: split rest
          else match split tl with
               | p :: ps => (b1 :: p) :: ps
               | [] => [[b1]]
               end
      | [] => [[b1]]
      end
  end.

(** Strict UTF-8 validity (what [bytes.decode('utf-8')] accepts): shortest
    forms only, no surrogates, nothing above U+10FFFF. *)
Definition cont (b : Z) : bool := bool_decide (128 ≤ b ≤ 191).

Fixpoint utf8_valid_fuel (fuel : nat) (bs : bytes) : bool :=
  match fuel with
  | O => false
  | S fuel' =>
      match bs with
      | [] => true
      | b0 :: r0 =>
          if bool_decide (0 ≤ b0 ≤ 127) then utf8_valid_fuel fuel' r0
          else if bool_decide (194 ≤ b0 ≤ 223) then
            match r0 with
            | b1 :: r1 => cont b1 && utf8_valid_fuel fuel' r1
            | _ => false
            end
          else if bool_decide (224 ≤ b0 ≤ 239) then
            match r0 with
            | b1 :: b2 :: r2 =>
                cont b1 && cont b2
                && (if bool_decide (b0 = 224) then bool_decide (160 ≤ b1) else true)
                && (if bool_decide (b0 = 237) then bool_decide (b1 ≤ 159) else true)
                && utf8_valid_fuel fuel' r2
            | _ => false
            end
          else if bool_decide (240 ≤ b0 ≤ 244) then
            match r0 with
            | b1 :: b2 :: b3 :: r3 =>
                cont b1 && cont b2 && cont b3
                && (if bool_decide (b0 = 240) then bool_decide (144 ≤ b1) else true)
                && (if bool_decide (b0 = 244) then bool_decide (b1 ≤ 143) else true)
                && utf8_valid_fuel fuel' r3
            | _ => false
            end
          else false
      end
  end.

Definition utf8_valid (bs : bytes) : bool := utf8_valid_fuel (S (length bs)) bs.

(** [bs.decode('utf-8')], the string being kept as its encoding. *)
Definition decode_utf8 (bs : bytes) : result bytes :=
  if utf8_valid bs then Ok bs else Raise UnicodeDecodeError.

(** Decimal digits of a natural number, for [f"bucket_{i}"]. *)
Fixpoint decimal_fuel (fuel n : nat) (acc : bytes) : bytes :=
  match fuel with
  | O => acc
  | S fuel' =>
      let acc' := (48 + Z.of_nat (n `mod` 10)%nat) :: acc in
      if (n <? 10)%nat then acc' else decimal_fuel fuel' (n `div` 10)%nat acc'
  end.

Definition decimal (n : nat) : bytes := decimal_fuel (S n) n [].

(** ** server.py *)

Module Block.
(** [metadata] repeats the four fields and is never read. *)
Record t := mk { a : Z; x : Z; data : list Z; dummy_flag : bool }.

Definition serialize (b : t) : result bytes :=
  let flag := if dummy_flag b then bytes_of_string "1" else bytes_of_string "0" in
  ab ←r to_bytes4 (a b);
  xb ←r to_bytes4 (x b);
  Ok (ab ++ xb ++ data b ++ flag).
End Block.

#[global] Instance block_eq_dec : EqDecision Block.t.
Proof. solve_decision. Defined.

(** [Block(num_of_blocks+1, 0, "----", True)]. *)
Definition dummy_block (N : nat) : Block.t :=
  Block.mk (Z.of_nat N + 1) 0 (bytes_of_string "----") true.

(** [Bucket(blocks, bucket_size, num_of_blocks, empty).blocks]. *)
Definition Bucket (blocks : list Block.t) (bucket_size N : nat) (empty : bool)
  : list Block.t :=
  if empty then replicate bucket_size (dummy_block N) else blocks.

(** The geometry fields of [Server] and its [tree].  [srvN] is [N] and
    [srvZ] is [Z]. *)
Record Server := mkServer {
  srvN : nat;
  srvZ : nat;
  num_of_buckets : nat;
  L : nat;
  tree : list (list Z)
}.

(** [Server(N, Z)], for the sizes on which a client can be built.
    [int(N / Z)] is the floor of the quotient and
    [math.ceil(math.log(nb, 2))] the exact ceiling of the binary logarithm;
    Python computes both in floating point, which gives the same numbers for
    [N] below [2^52] and fewer than [2^29] buckets (at [2^29] buckets
    [math.log] answers [29.000000000000004] and the code has [L = 29]).  With
    one bucket Python builds a server with [L = -1], which [L : nat] cannot
    hold, and [Client(server)] then raises at [randint(0, 2 ** -1 - 1)]: the
    answer [Raise ValueError] here stands for that failure of the
    construction as a whole, not for [Server(N, Z)] alone.  The statements
    that depend on either point say so.  The tree slots first hold [Bucket]
    objects that [Client.__init__] overwrites before anything reads them:
    they start as empty byte strings here. *)
Definition Server_init (N Z : nat) : result Server :=
  if (Z =? 0)%nat then Raise ZeroDivisionError
  else
    let nb := (N `div` Z)%nat in
    if (nb <? 2)%nat then Raise ValueError
    else Ok (mkServer N Z nb (Nat.log2_up nb - 1) (replicate nb [])).

Local Close Scope Z_scope.

(** ** The AEAD interface (AESGCM of the cryptography package)

    [encrypt k nonce data associated_data] and [decrypt k nonce ciphertext
    associated_data]; [decrypt] answers [None] where Python raises
    [InvalidTag]. *)
Class Cipher := {
  key : Type;
  encrypt : key → bytes → bytes → bytes → bytes;
  decrypt : key → bytes → bytes → bytes → option bytes;
  tag_len : nat
}.

Class CipherCorrect (C : Cipher) : Prop := {
  decrypt_encrypt : ∀ k n p ad, decrypt k n (encrypt k n p ad) ad = Some p;
  encrypt_length : ∀ k n p ad, length (encrypt k n p ad) = length p + tag_len
}.

(** ** client.py *)

Definition deserialize_block (block_data : bytes) : result Block.t :=
  let a := from_bytes (slice 0 4 block_data) in
  let x := from_bytes (slice 4 8 block_data) in
  data ←r decode_utf8 (slice 8 12 block_data);
  let flag := bool_decide (slice 12 13 block_data = bytes_of_string "1") in
  Ok (Block.mk a x data flag).

(** [f"bucket_{i}".encode('utf-8')]. *)
Definition data_to_authenticate (i : nat) : bytes :=
  bytes_of_string "bucket_" ++ decimal i.

(** [aesgcm_ciphers[i]] is [AESGCM(keys[i])]: the keys stand for both. *)
Record Client `{Cipher} := mkClient {
  stash : list Block.t;
  position_map : gmap Z nat;
  keys : list key;
  nonces : list (list Z)
}.

Section client.
Context `{Cipher}.

Definition set_stash (c : Client) (st : list Block.t) : Client :=
  mkClient _ st (position_map c) (keys c) (nonces c).
Definition set_position_map (c : Client) (pm : gmap Z nat) : Client :=
  mkClient _ (stash c) pm (keys c) (nonces c).
Definition set_nonces (c : Client) (ns : list (list Z)) : Client :=
  mkClient _ (stash c) (position_map c) (keys c) ns.
Definition set_tree (s : Server) (t : list (list Z)) : Server :=
  mkServer (srvN s) (srvZ s) (num_of_buckets s) (L s) t.

(** [b"||".join([block.serialize() for block in blocks])]. *)
Definition encode_bucket (blocks : list Block.t) : result bytes :=
  parts ←r rmapM Block.serialize blocks; Ok (join parts).

(** [[deserialize_block(block) for block in decrypted.split(b"||")]]. *)
Definition decode_bucket (decrypted : bytes) : result (list Block.t) :=
  rmapM deserialize_block (split decrypted).

(** The loop of [Client.__init__] over [range(server.num_of_buckets)]. *)
Fixpoint init_buckets (rnd_nonce : nat → bytes) (indices : list nat)
    (c : Client) (server : Server) : result (Client * Server) :=
  match indices with
  | [] => Ok (c, server)
  | i :: rest =>
      let nonce := rnd_nonce i in
      let c := set_nonces c (nonces c ++ [nonce]) in
      let dummy_bucket := Bucket [] (srvZ server) (srvN server) true in
      data_to_encrypt ←r encode_bucket dummy_bucket;
      k ←r or_raise IndexError (keys c !! i);
      if bool_decide (i < length (tree server)) then
        init_buckets rnd_nonce rest c
          (set_tree server
             (<[i := encrypt k nonce data_to_encrypt (data_to_authenticate i)]>
                (tree server)))
      else Raise IndexError
  end.

(** [Client(server)]: [rnd_leaf b] is the [random.randint(0, 2**L - 1)]
    drawn for block [b], [rnd_key i] and [rnd_nonce i] the key and the
    nonce drawn for bucket [i]. *)
Definition Client_init (rnd_leaf : nat → nat) (rnd_key : nat → key)
    (rnd_nonce : nat → bytes) (server : Server) : result (Client * Server) :=
  let position_map : gmap Z nat :=
    list_to_map ((λ block, (Z.of_nat block, rnd_leaf block)) <$> seq 0 (srvN server)) in
  let keys := rnd_key <$> seq 0 (num_of_buckets server) in
  init_buckets rnd_nonce (seq 0 (num_of_buckets server))
    (mkClient _ [] position_map keys []) server.

(** The [while] loop of [get_path_leaf_to_root]; [i] halves at every
    turn, so [S i] turns are enough. *)
Fixpoint climb (fuel i : nat) : list nat :=
  match fuel with
  | O => []
  | S fuel' => i :: (if i =? 0 then [] else climb fuel' ((i - 1) `div` 2))
  end.

Definition get_path_leaf_to_root (leaf_index L : nat) : list nat :=
  let total_nodes := 2 ^ (L + 1) - 1 in
  let first_leaf_index := total_nodes - 2 ^ L in
  let i := first_leaf_index + leaf_index in
  climb (S i) i.

(** [str(bin(x))[2:]], most significant digit first; [true] is ['1']. *)
Fixpoint pos_bits (p : positive) (acc : list bool) : list bool :=
  match p with
  | xH => true :: acc
  | xO q => pos_bits q (false :: acc)
  | xI q => pos_bits q (true :: acc)
  end.

Definition bin (x : nat) : list bool :=
  match N.of_nat x with
  | N0 => [false]
  | Npos p => pos_bits p []
  end.

(** [s.zfill(width)]. *)
Definition zfill (width : nat) (s : list bool) : list bool :=
  replicate (width - length s) false ++ s.

(** The values [i] takes in the read phase of [Access]: one per digit of
    the loop, then the one of the leaf read after the loop.  They depend on
    the digits only, not on what is read. *)
Fixpoint read_nodes (bits : list bool) (i : nat) : list nat :=
  match bits with
  | [] => [i]
  | bit :: rest => i :: read_nodes rest (if bit then 2 * i + 2 else 2 * i + 1)
  end.

(** Fetch, decrypt and decode bucket [i]. *)
Definition read_bucket (c : Client) (server : Server) (i : nat)
    : result (list Block.t) :=
  cur_bucket_in_bytes ←r or_raise IndexError (tree server !! i);
  k ←r or_raise IndexError (keys c !! i);
  nonce ←r or_raise IndexError (nonces c !! i);
  decrypted_bucket ←r
    or_raise InvalidTag (decrypt k nonce cur_bucket_in_bytes (data_to_authenticate i));
  decode_bucket decrypted_bucket.

(** The read phase: every bucket read is appended to the stash at once;
    an exception leaves the stash as the earlier buckets made it. *)
Fixpoint read_path (c : Client) (server : Server) (nodes : list nat)
    (st : list Block.t) : option exn * list Block.t :=
  match nodes with
  | [] => (None, st)
  | i :: rest =>
      match read_bucket c server i with
      | Raise e => (Some e, st)
      | Ok blocks => read_path c server rest (st ++ blocks)
      end
  end.

(** The scan for block [a]: the position of the first block whose address
    is [a], and its data. *)
Fixpoint find_block (a : Z) (st : list Block.t) (idx : nat)
    : option (nat * list Z) :=
  match st with
  | [] => None
  | block :: rest =>
      if bool_decide (Block.a block = a) then Some (idx, Block.data block)
      else find_block a rest (S idx)
  end.

(** [(block_idx, data)] after the scan: [(-1, None)] when nothing matched. *)
Definition locate (a : Z) (st : list Block.t) : Z * option (list Z) :=
  match find_block a st 0 with
  | Some (idx, d) => (Z.of_nat idx, Some d)
  | None => ((-1)%Z, None)
  end.

(** The position [l[i]] denotes: a negative index counts from the end. *)
Definition py_index {A} (l : list A) (i : Z) : result nat :=
  let j := if (i <? 0)%Z then (i + Z.of_nat (length l))%Z else i in
  if ((0 <=? j)%Z && (j <? Z.of_nat (length l))%Z)%bool
  then Ok (Z.to_nat j) else Raise IndexError.

(** The update step.  The blocks of the stash are distinct objects and
    [Block] defines no [__eq__], so [stash.remove(stash[k])] removes the
    element at the position [stash[k]] denotes. *)
Definition update (op : string) (a : Z) (data_ : list Z) (new_x : nat)
    (block_idx : Z) (st : list Block.t) : result (list Block.t) :=
  if bool_decide (op = "write"%string) then
    if (0 <=? block_idx)%Z then
      p ←r py_index st block_idx;
      Ok (<[p := Block.mk a (Z.of_nat new_x) data_ false]> st)
    else Ok (st ++ [Block.mk a (Z.of_nat new_x) data_ false])
  else if bool_decide (op = "delete"%string) then
    p ←r py_index st block_idx;
    Ok (delete p st)
  else Ok st.

(** The inner loop of the eviction at one level: [n] is
    [len(blocks_to_add)].  It answers the real blocks chosen for the bucket
    and the stash without them, which is what the later
    [stash.remove(block_)] calls leave (distinct objects again). *)
Fixpoint select (pm : gmap Z nat) (L level target Z : nat)
    (st : list Block.t) (n : nat) : result (list Block.t * list Block.t) :=
  match st with
  | [] => Ok ([], [])
  | block :: rest =>
      if Block.dummy_flag block then
        r ←r select pm L level target Z rest n; Ok (r.1, block :: r.2)
      else
        leaf ←r or_raise KeyError (pm !! Block.a block);
        node ←r or_raise IndexError (get_path_leaf_to_root leaf L !! level);
        if (bool_decide (node = target) && (n <? Z))%bool then
          r ←r select pm L level target Z rest (S n); Ok (block :: r.1, r.2)
        else
          r ←r select pm L level target Z rest n; Ok (r.1, block :: r.2)
  end.

(** A phase that mutates client and server in place: how far it got. *)
Inductive phase :=
  | Done (c : Client) (server : Server)
  | Failed (e : exn) (c : Client) (server : Server).

(** One turn of the write-back loop; [fresh level] is its
    [os.urandom(12)]. *)
Definition evict_level (fresh : nat → bytes) (path_back : list nat)
    (level : nat) (c : Client) (server : Server) : phase :=
  match path_back !! level with
  | None => Failed IndexError c server
  | Some target =>
      match select (position_map c) (L server) level target (srvZ server)
              (stash c) 0 with
      | Raise e => Failed e c server
      | Ok (chosen, remaining) =>
          let blocks_to_add :=
            chosen ++ replicate (srvZ server - length chosen)
                        (dummy_block (srvN server)) in
          let new_bucket := Bucket blocks_to_add (srvZ server) (srvN server) false in
          let new_nonce := fresh level in
          if bool_decide (target < length (nonces c)) then
            let c := set_nonces c (<[target := new_nonce]> (nonces c)) in
            match encode_bucket new_bucket with
            | Raise e => Failed e c server
            | Ok data_to_encrypt =>
                match keys c !! target with
                | None => Failed IndexError c server
                | Some k =>
                    if bool_decide (target < length (tree server)) then
                      Done (set_stash c remaining)
                        (set_tree server
                           (<[target :=
                                encrypt k new_nonce data_to_encrypt
                                  (data_to_authenticate target)]> (tree server)))
                    else Failed IndexError c server
                end
            end
          else Failed IndexError c server
      end
  end.

(** [for level in range(len(path_back))]. *)
Fixpoint evict (fresh : nat → bytes) (path_back : list nat)
    (levels : list nat) (c : Client) (server : Server) : phase :=
  match levels with
  | [] => Done c server
  | level :: rest =>
      match evict_level fresh path_back level c server with
      | Done c' server' => evict fresh path_back rest c' server'
      | Failed e c' server' => Failed e c' server'
      end
  end.

Inductive outcome :=
  | Returned (data : option (list Z)) (c : Client) (server : Server)
  | Raised (e : exn) (c : Client) (server : Server).

(** [client.Access(op, a, data_, server)]; [new_x] is the leaf drawn by
    [random.randint] and [fresh level] the nonce drawn at [level] of the
    write-back.  [data_] is a string; it is read by a write only. *)
Definition Access (op : string) (a : Z) (data_ : list Z) (new_x : nat)
    (fresh : nat → bytes) (c : Client) (server : Server) : outcome :=
  match position_map c !! a with
  | None => Raised KeyError c server
  | Some x =>
      let c := set_position_map c (<[a := new_x]> (position_map c)) in
      let nodes := read_nodes (zfill (L server) (bin x)) 0 in
      match read_path c server nodes (stash c) with
      | (Some e, st) => Raised e (set_stash c st) server
      | (None, st) =>
          let '(block_idx, data) := locate a st in
          match update op a data_ new_x block_idx st with
          | Raise e => Raised e (set_stash c st) server
          | Ok st =>
              let path_back := get_path_leaf_to_root x (L server) in
              match evict fresh path_back (seq 0 (length path_back))
                      (set_stash c st) server with
              | Failed e c server => Raised e c server
              | Done c server =>
                  Returned data
                    (set_stash c
                       (filter (λ block, Block.dummy_flag block = false) (stash c)))
                    server
              end
          end
      end
  end.

(** The wrappers; [retrieve_data] passes [None] for [data_], which a read
    never looks at. *)
Definition store_data (id : Z) (data : list Z) := Access "write" id data.
Definition retrieve_data (id : Z) := Access "read" id [].
Definition delete_data (id : Z) (data : list Z) := Access "delete" id data.
End client.

(** ** Predicates used by the statements *)

(** Two adjacent [|] bytes somewhere in [bs]. *)
Fixpoint has_sep (bs : bytes) : bool :=
  match bs with
  | [] => false
  | b1 :: tl =>
      match tl with
      | b2 :: _ => (bool_decide (b1 = bar) && bool_decide (b2 = bar)) || has_sep tl
      | [] => false
      end
  end.

(** A block the codec carries faithfully: it serializes (32-bit fields),
    its payload is a string of 4 bytes, and its 13 bytes hold no [||]. *)
Definition clean (b : Block.t) : Prop :=
  match Block.serialize b with
  | Ok bs =>
      length (Block.data b) = 4 ∧ utf8_valid (Block.data b) = true ∧ has_sep bs = false
  | Raise _ => False
  end.

#[global] Instance clean_dec b : Decision (clean b).
Proof. unfold clean. destruct (Block.serialize b); apply _. Defined.

Definition real (b : Block.t) : Prop := Block.dummy_flag b = false.

#[global] Instance real_dec b : Decision (real b).
Proof. unfold real. apply _. Defined.

(** ** A concrete cipher and concrete runs, for the examples

    The ciphertext is the plaintext followed by a 16-byte tag that depends
    on key, nonce, plaintext and associated data. *)
Definition toy_tag (k : Z) (n p ad : bytes) : bytes :=
  replicate 16
    ((k + foldr Z.add 0 n + 3 * foldr Z.add 0 p + 5 * foldr Z.add 0 ad
      + Z.of_nat (length p)) `mod` 256)%Z.

#[global] Instance toy : Cipher := {|
  key := Z;
  encrypt k n p ad := p ++ toy_tag k n p ad;
  decrypt k n ct ad :=
    let m := length ct - 16 in
    if bool_decide (16 ≤ length ct ∧ drop m ct = toy_tag k n (take m ct) ad)
    then Some (take m ct) else None;
  tag_len := 16
|}.

(** [Server(N, Z)] then [Client(server)], every block mapped to [leaf]. *)
Definition setup (N Z leaf : nat) : result (@Client toy * Server) :=
  server ←r Server_init N Z;
  Client_init (λ _, leaf) (λ i, Z.of_nat i) (λ i, [Z.of_nat i]) server.

Definition is_Ok {A} (r : result A) : bool :=
  match r with Ok _ => true | Raise _ => false end.

(** The pair [setup] builds; the default stands for a failed construction. *)
Definition start (N Z leaf : nat) : @Client toy * Server :=
  match setup N Z leaf with
  | Ok p => p
  | Raise _ => (mkClient toy [] ∅ [] [], mkServer 0 0 0 0 [])
  end.

(** One call on a pair; the nonce drawn at [level] is the byte [level]. *)
Definition call (op : string) (a : Z) (data_ : string) (new_x : nat)
    (p : @Client toy * Server) : @outcome toy :=
  Access op a (bytes_of_string data_) new_x (λ level, [Z.of_nat level]) p.1 p.2.

(** The state a call leaves, whether it returned or raised. *)
Definition outcome_state `{Cipher} (o : outcome) : Client * Server :=
  match o with Returned _ c server => (c, server) | Raised _ c server => (c, server) end.

(** What a call answered. *)
Definition answer `{Cipher} (o : outcome) : option (list Z) + exn :=
  match o with
  | Returned data _ _ => inl data
  | Raised e _ _ => inr e
  end.

(** The server overwrites slot [i] with bytes of its own. *)
Definition tamper `{Cipher} (i : nat) (junk : bytes) (p : Client * Server)
    : Client * Server :=
  (p.1, set_tree p.2 (<[i := junk]> (tree p.2))).

(** ** Auxiliary notions of the proofs *)

(** A piece [split] gives back whole: no [||] inside, and a last byte that
    is not [|]. *)
Definition piece_ok (p : list Z) : Prop :=
  has_sep p = false ∧ ∃ q f, p = q ++ [f] ∧ f ≠ bar.

(** The climb from node [i] to the root. *)
Definition path_up (i : nat) : list nat := climb (S i) i.

(** The node the read phase ends on. *)
Definition final (bits : list bool) (i : nat) : nat :=
  foldl (λ j (b : bool), if b then 2 * j + 2 else 2 * j + 1) i bits.

(** The number a digit string denotes. *)
Definition value (bits : list bool) : nat :=
  foldl (λ acc (b : bool), 2 * acc + (if b then 1 else 0)) 0 bits.

(** The geometry fields are the same. *)
Definition same_config (server server' : Server) : Prop :=
  srvN server' = srvN server ∧ srvZ server' = srvZ server
  ∧ num_of_buckets server' = num_of_buckets server ∧ L server' = L server.

(** The state a phase leaves, whether it went through or not. *)
Definition phase_state `{Cipher} (p : phase) : Client * Server :=
  match p with Done c server => (c, server) | Failed _ c server => (c, server) end.

(** The states a client and its server go through: construction, then any
    calls whatever, with any arguments and any outcome. *)
Inductive reached `{Cipher} : Client → Server → Prop :=
  | reached_init N Z server0 rnd_leaf rnd_key rnd_nonce c server :
      Server_init N Z = Ok server0 →
      Client_init rnd_leaf rnd_key rnd_nonce server0 = Ok (c, server) →
      reached c server
  | reached_call op a data_ new_x fresh c server :
      reached c server →
      reached (outcome_state (Access op a data_ new_x fresh c server)).1
              (outcome_state (Access op a data_ new_x fresh c server)).2.

(** ** Invariants *)

(** Slot [i] of the tree is the encryption, under the client's key and
    current nonce for [i], of the encoding of [blocks]. *)
Definition holds `{Cipher} (c : Client) (server : Server) (i : nat)
    (blocks : list Block.t) : Prop :=
  ∃ k n bs, keys c !! i = Some k ∧ nonces c !! i = Some n
    ∧ encode_bucket blocks = Ok bs
    ∧ tree server !! i = Some (encrypt k n bs (data_to_authenticate i)).

(** The shape of a client/server pair whose buckets are [f i], the nodes in
    [D] excepted: arrays of [num_buckets] entries, every bucket the
    encryption of [Z] clean blocks, a stash of clean blocks. *)
Record Shape `{Cipher} (D : list nat) (f : nat → list Block.t)
    (c : Client) (server : Server) : Prop := {
  shape_Z : 1 ≤ srvZ server;
  shape_tree : length (tree server) = num_of_buckets server;
  shape_keys : length (keys c) = num_of_buckets server;
  shape_nonces : length (nonces c) = num_of_buckets server;
  shape_dummy : clean (dummy_block (srvN server));
  shape_holds : ∀ i, i < num_of_buckets server → i ∉ D →
    holds c server i (f i) ∧ length (f i) = srvZ server ∧ Forall clean (f i);
  shape_stash : Forall clean (stash c)
}.

(** The states of a run in which the leaves drawn are leaves, the dummy
    block is clean and every write carries a clean block; a call may return
    or raise. *)
Inductive honest `{Cipher} : Client → Server → Prop :=
  | honest_init N Z server0 rnd_leaf rnd_key rnd_nonce c server :
      Server_init N Z = Ok server0 →
      (∀ block, rnd_leaf block < 2 ^ L server0) →
      clean (dummy_block N) →
      Client_init rnd_leaf rnd_key rnd_nonce server0 = Ok (c, server) →
      honest c server
  | honest_call op a data_ new_x fresh c server :
      honest c server →
      new_x < 2 ^ L server →
      (op = "write"%string → clean (Block.mk a (Z.of_nat new_x) data_ false)) →
      honest (outcome_state (Access op a data_ new_x fresh c server)).1
             (outcome_state (Access op a data_ new_x fresh c server)).2.

(** A dummy block carries the address [N + 1]; a real one an address of
    the position map. *)
Definition addr_ok (N : nat) (b : Block.t) : Prop :=
  if Block.dummy_flag b then Block.a b = (Z.of_nat N + 1)%Z
  else (0 ≤ Block.a b < Z.of_nat N)%Z.

(** The blocks of the whole tree, bucket after bucket. *)
Definition tree_blocks (nb : nat) (f : nat → list Block.t) : list Block.t :=
  seq 0 nb ≫= f.

(** The buckets [f] with those of the nodes [D] emptied. *)
Definition mask (D : list nat) (f : nat → list Block.t) : nat → list Block.t :=
  λ i, if bool_decide (i ∈ D) then [] else f i.

(** The complete tree of height [L] fits the array of buckets. *)
Definition fits (server : Server) : Prop :=
  2 ^ (L server + 1) - 1 ≤ num_of_buckets server.

(** The invariant of the protocol.  [f i] is the bucket of node [i]; the
    nodes in [D] are those whose bucket a call has read into the stash and
    not yet written back (none between calls), and they count as empty.
    Every block is clean and tagged as [addr_ok] says, the position map is
    total on [0, N) with leaves in [0, 2^L), a real block of the tree lies on
    the path of the leaf its address is mapped to, and no two real blocks of
    stash and tree have the same address. *)
Record Inv `{Cipher} (D : list nat) (f : nat → list Block.t)
    (c : Client) (server : Server) : Prop := {
  inv_shape : Shape D f c server;
  inv_nb : 2 ≤ num_of_buckets server;
  inv_fits : fits server;
  inv_dead : ∀ i, i ∈ D → f i = [];
  inv_pm_dom : ∀ a,
    is_Some (position_map c !! a) ↔ (0 ≤ a < Z.of_nat (srvN server))%Z;
  inv_pm_range : ∀ a x, position_map c !! a = Some x → x < 2 ^ L server;
  inv_addr_stash : Forall (addr_ok (srvN server)) (stash c);
  inv_addr_tree : ∀ i, i < num_of_buckets server →
    Forall (addr_ok (srvN server)) (f i);
  inv_located : ∀ i b, i < num_of_buckets server → b ∈ f i → real b →
    ∃ x, position_map c !! Block.a b = Some x
         ∧ i ∈ get_path_leaf_to_root x (L server);
  inv_unique :
    NoDup (Block.a <$> filter real (stash c ++ tree_blocks (num_of_buckets server) f))
}.

(** ** The dictionary a client and its server hold *)

(** The real block of address [a] that stash or tree holds carries [d]. *)
Definition stored `{Cipher} (f : nat → list Block.t) (c : Client) (server : Server)
    (a : Z) (d : list Z) : Prop :=
  ∃ b, b ∈ stash c ++ tree_blocks (num_of_buckets server) f
       ∧ real b ∧ Block.a b = a ∧ Block.data b = d.

(** Client and server hold the dictionary [m]: the invariant holds between
    calls, and the real blocks are the entries of [m]. *)
Definition models `{Cipher} (m : gmap Z (list Z)) (c : Client) (server : Server) : Prop :=
  ∃ f, Inv [] f c server ∧ ∀ a d, m !! a = Some d ↔ stored f c server a d.

(** What a call does to a dictionary: an operation that is neither
    ["write"] nor ["delete"] is a read. *)
Definition dict_step (op : string) (a : Z) (data_ : list Z) (m : gmap Z (list Z))
    : gmap Z (list Z) :=
  if bool_decide (op = "write"%string) then <[a := data_]> m
  else if bool_decide (op = "delete"%string) then delete a m
  else m.

(** The arguments of one call, with the leaf and the nonces it draws. *)
Record request := mkRequest {
  req_op : string;
  req_a : Z;
  req_data : list Z;
  req_leaf : nat;
  req_nonce : nat → list Z
}.

(** Calls made one after the other on the same client and server: what
    they returned and the state they leave, or the first exception, which
    nothing catches. *)
Fixpoint calls `{Cipher} (reqs : list request) (c : Client) (server : Server)
    : result (list (option (list Z)) * (Client * Server)) :=
  match reqs with
  | [] => Ok ([], (c, server))
  | r :: rest =>
      match Access (req_op r) (req_a r) (req_data r) (req_leaf r) (req_nonce r)
              c server with
      | Returned data c' server' =>
          p ←r calls rest c' server'; Ok (data :: p.1, p.2)
      | Raised e _ _ => Raise e
      end
  end.

(** The same calls on a dictionary: each returns the entry of its address
    as it was before the call. *)
Fixpoint dict_calls (reqs : list request) (m : gmap Z (list Z))
    : list (option (list Z)) :=
  match reqs with
  | [] => []
  | r :: rest =>
      m !! req_a r :: dict_calls rest (dict_step (req_op r) (req_a r) (req_data r) m)
  end.

Fixpoint dict_after (reqs : list request) (m : gmap Z (list Z)) : gmap Z (list Z) :=
  match reqs with
  | [] => m
  | r :: rest => dict_after rest (dict_step (req_op r) (req_a r) (req_data r) m)
  end.

(** One call is in order: an address of the position map, a leaf of the
    tree, and for a write a block the codec carries. *)
Definition request_ok (N L : nat) (r : request) : Prop :=
  (0 ≤ req_a r < Z.of_nat N)%Z ∧ req_leaf r < 2 ^ L
  ∧ (req_op r = "write"%string →
     clean (Block.mk (req_a r) (Z.of_nat (req_leaf r)) (req_data r) false)).

(** Calls in order that delete only addresses the dictionary holds. *)
Fixpoint valid_calls (N L : nat) (reqs : list request) (m : gmap Z (list Z)) : Prop :=
  match reqs with
  | [] => True
  | r :: rest =>
      request_ok N L r
      ∧ (req_op r = "delete"%string → is_Some (m !! req_a r))
      ∧ valid_calls N L rest (dict_step (req_op r) (req_a r) (req_data r) m)
  end.

(** ** benchmark.py and main.py: the workloads

    The drivers time the calls they make; the clock and the figures
    computed from it are not represented, only whether the elapsed time
    measured is [0.0], which decides the divisions by it. *)

(** [random.choice(seq)]: [k] is the index drawn, below [len(seq)]; on an
    empty sequence Python raises [IndexError]. *)
Definition choice {A} (seq : list A) (k : nat) : result A :=
  or_raise IndexError (seq !! k).

(** The floats [0.34] and [0.67], as the rationals they are, and [r < t]
    on floats. *)
Definition float_034 : QArith_base.Q :=
  QArith_base.Qmake 6124895493223875 18014398509481984.
Definition float_067 : QArith_base.Q :=
  QArith_base.Qmake 6034823500676465 9007199254740992.
Definition float_lt (r t : QArith_base.Q) : bool := negb (QArith_base.Qle_bool t r).

(** What one request of [benchmark.py] draws: the index [choice] picks, the
    float of [random()], and the leaf and the nonces of the call. *)
Record draw := mkDraw {
  draw_index : nat;
  draw_r : QArith_base.Q;
  draw_leaf : nat;
  draw_nonce : nat → list Z
}.

(** What one request of [main.py] draws: the index of the operation, the
    address of [randint(0, key_space - 1)], the four indices of
    [random.choices], and the leaf and the nonces of the call. *)
Record bench_draw := mkBenchDraw {
  bd_op : nat;
  bd_a : Z;
  bd_picks : nat * nat * nat * nat;
  bd_leaf : nat;
  bd_nonce : nat → list Z
}.

(** [string.ascii_letters + string.digits]. *)
Definition alphabet : list Z :=
  bytes_of_string "abcdefghijklmnopqrstuvwxyzABCDEFGHIJKLMNOPQRSTUVWXYZ0123456789".

(** [random_4char_string()] of [main.py]. *)
Definition random_4char_string (picks : nat * nat * nat * nat) : result (list Z) :=
  let '(i1, i2, i3, i4) := picks in
  rmapM (λ i, or_raise IndexError (alphabet !! i)) [i1; i2; i3; i4].

Section workloads.
Context `{Cipher}.

(** [one_random_op(cli, srv, ids)] of [benchmark.py]. *)
Definition one_random_op (ids : list Z) (k : nat) (r : QArith_base.Q) (new_x : nat)
    (fresh : nat → list Z) (c : Client) (server : Server) : outcome :=
  match choice ids k with
  | Raise e => Raised e c server
  | Ok bid =>
      if float_lt r float_034 then
        store_data bid (bytes_of_string "DATA") new_x fresh c server
      else if float_lt r float_067 then
        retrieve_data bid new_x fresh c server
      else
        delete_data bid (bytes_of_string "DATA") new_x fresh c server
  end.

(** [for _ in range(ops): one_random_op(cli, srv, ids)]. *)
Fixpoint sequential_ops (ids : list Z) (draws : list draw) (c : Client)
    (server : Server) : result (Client * Server) :=
  match draws with
  | [] => Ok (c, server)
  | d :: rest =>
      match one_random_op ids (draw_index d) (draw_r d) (draw_leaf d) (draw_nonce d)
              c server with
      | Returned _ c' server' => sequential_ops ids rest c' server'
      | Raised e _ _ => Raise e
      end
  end.

(** [run_sequential(N, ops)], with [ops = len(draws)]: the state the run
    ends in stands for the figures returned, which [ops / total] and
    [total / ops * 1e6] compute. *)
Definition run_sequential (N : nat) (rnd_leaf : nat → nat) (rnd_key : nat → key)
    (rnd_nonce : nat → list Z) (draws : list draw) (total_is_zero : bool)
    : result (Client * Server) :=
  srv ←r Server_init N 4;
  p ←r Client_init rnd_leaf rnd_key rnd_nonce srv;
  q ←r sequential_ops (Z.of_nat <$> seq 0 N) draws p.1 p.2;
  if total_is_zero then Raise ZeroDivisionError
  else if length draws =? 0 then Raise ZeroDivisionError
  else Ok q.

(** One turn of the loop of [benchmark_oram] of [main.py];
    [randint(0, key_space - 1)] raises [ValueError] on an empty range, and
    [data_] is [None] unless the operation is a write. *)
Definition benchmark_request (ops : list string) (key_space : Z) (d : bench_draw)
    (c : Client) (server : Server) : outcome :=
  match choice ops (bd_op d) with
  | Raise e => Raised e c server
  | Ok op =>
      if bool_decide (key_space ≤ 0)%Z then Raised ValueError c server
      else
        match (if bool_decide (op = "write"%string)
               then random_4char_string (bd_picks d) else Ok []) with
        | Raise e => Raised e c server
        | Ok data_ => Access op (bd_a d) data_ (bd_leaf d) (bd_nonce d) c server
        end
  end.

Fixpoint benchmark_loop (ops : list string) (key_space : Z) (draws : list bench_draw)
    (c : Client) (server : Server) : result (Client * Server) :=
  match draws with
  | [] => Ok (c, server)
  | d :: rest =>
      match benchmark_request ops key_space d c server with
      | Returned _ c' server' => benchmark_loop ops key_space rest c' server'
      | Raised e _ _ => Raise e
      end
  end.

(** [benchmark_oram(client, server, num_requests, key_space, ops)], with
    [num_requests = len(draws)]: after the loop,
    [sum(latencies) / len(latencies)] and [num_requests / total_time]. *)
Definition benchmark_oram (ops : list string) (key_space : Z) (draws : list bench_draw)
    (total_is_zero : bool) (c : Client) (server : Server) : result (Client * Server) :=
  q ←r benchmark_loop ops key_space draws c server;
  if length draws =? 0 then Raise ZeroDivisionError
  else if total_is_zero then Raise ZeroDivisionError
  else Ok q.
End workloads.

(** The states of a run in which the leaves drawn are leaves of the tree,
    as [random.randint(0, 2**L - 1)] draws them; nothing is asked of the
    payloads, of the dummy block or of the outcomes. *)
Inductive leaves_drawn `{Cipher} : Client → Server → Prop :=
  | leaves_drawn_init N Z server0 rnd_leaf rnd_key rnd_nonce c server :
      Server_init N Z = Ok server0 →
      (∀ block, rnd_leaf block < 2 ^ L server0) →
      Client_init rnd_leaf rnd_key rnd_nonce server0 = Ok (c, server) →
      leaves_drawn c server
  | leaves_drawn_call op a data_ new_x fresh c server :
      leaves_drawn c server →
      new_x < 2 ^ L server →
      leaves_drawn (outcome_state (Access op a data_ new_x fresh c server)).1
                   (outcome_state (Access op a data_ new_x fresh c server)).2.

(** * Lemmas *)

(** ** The codec *)

Lemma rbind_ok {A B} (m : result A) (f : A → result B) v :
  rbind m f = Ok v → ∃ u, m = Ok u ∧ f u = Ok v.
Proof. destruct m; simpl; eauto. discriminate. Qed.

Lemma rmapM_ok_length {A B} (f : A → result B) l l' :
  rmapM f l = Ok l' → length l' = length l.
Proof.
  revert l'. induction l as [|v l IH]; intros l' Hl; simpl in Hl.
  - by inversion Hl.
  - apply rbind_ok in Hl as (y & Hy & Hl). apply rbind_ok in Hl as (ys & Hys & Hl).
    inversion Hl; subst. simpl. f_equal. by apply IH.
Qed.

Lemma from_to_bytes4 n bs : to_bytes4 n = Ok bs → from_bytes bs = n ∧ length bs = 4.
Proof.
  unfold to_bytes4. case_bool_decide as Hn; [|discriminate].
  intros [= <-]. split; [|done]. unfold from_bytes. simpl.
  change (2 ^ 24)%Z with 16777216%Z. change (2 ^ 16)%Z with 65536%Z.
  change (2 ^ 8)%Z with 256%Z. change (2 ^ 32)%Z with 4294967296%Z in Hn.
  Z.div_mod_to_equations. lia.
Qed.

Lemma rmapM_ok_Forall2 {A B} (f : A → result B) l l' :
  rmapM f l = Ok l' ↔ Forall2 (λ v y, f v = Ok y) l l'.
Proof.
  split.
  - revert l'. induction l as [|v l IH]; intros l' Hl; simpl in Hl.
    + inversion Hl. constructor.
    + apply rbind_ok in Hl as (y & Hy & Hl). apply rbind_ok in Hl as (ys & Hys & Hl).
      inversion Hl; subst. constructor; auto.
  - induction 1 as [|v y l l' Hy _ IH]; simpl; [done|]. by rewrite Hy, IH.
Qed.

Lemma serialize_inv b bs :
  Block.serialize b = Ok bs →
  ∃ ab xb, to_bytes4 (Block.a b) = Ok ab ∧ to_bytes4 (Block.x b) = Ok xb ∧
    bs = ab ++ xb ++ Block.data b
         ++ (if Block.dummy_flag b then bytes_of_string "1" else bytes_of_string "0").
Proof.
  unfold Block.serialize. intros Hs.
  apply rbind_ok in Hs as (ab & Ha & Hs). apply rbind_ok in Hs as (xb & Hx & Hs).
  inversion Hs. eauto.
Qed.

Lemma clean_serialize b :
  clean b → ∃ bs, Block.serialize b = Ok bs ∧ length bs = 13 ∧ has_sep bs = false
    ∧ deserialize_block bs = Ok b ∧ ∃ q f, bs = q ++ [f] ∧ f ≠ bar.
Proof.
  unfold clean. destruct (Block.serialize b) as [bs|] eqn:Hs; [|done].
  intros (Hlen & Hutf & Hsep). exists bs. split; [done|].
  apply serialize_inv in Hs as (ab & xb & Ha & Hx & ->).
  apply from_to_bytes4 in Ha as [Ha Hla], Hx as [Hx Hlx].
  destruct b as [a x d fl]; simpl in *.
  destruct ab as [|a1 [|a2 [|a3 [|a4 [|]]]]]; try discriminate.
  destruct xb as [|x1 [|x2 [|x3 [|x4 [|]]]]]; try discriminate.
  destruct d as [|d1 [|d2 [|d3 [|d4 [|]]]]]; try discriminate.
  split; [by destruct fl|]. split; [done|]. split.
  - unfold deserialize_block, slice, decode_utf8.
    destruct fl; cbn -[utf8_valid from_bytes]; rewrite Hutf; cbn -[from_bytes];
      by rewrite Ha, Hx.
  - destruct fl; eexists [_;_;_;_;_;_;_;_;_;_;_;_], _; (split; [reflexivity|done]).
Qed.


Lemma split_single p : has_sep p = false → split p = [p].
Proof.
  induction p as [|b1 tl IH]; [done|]. destruct tl as [|b2 rest]; [done|].
  intros Hs. change (has_sep (b1 :: b2 :: rest)) with
    ((bool_decide (b1 = bar) && bool_decide (b2 = bar)) || has_sep (b2 :: rest)) in Hs.
  apply orb_false_iff in Hs as [H1 H2].
  change (split (b1 :: b2 :: rest)) with
    (if bool_decide (b1 = bar) && bool_decide (b2 = bar) then [] :: split rest
     else match split (b2 :: rest) with p :: ps => (b1 :: p) :: ps | [] => [[b1]] end).
  rewrite H1. by rewrite (IH H2).
Qed.

Lemma split_piece q f rest :
  has_sep (q ++ [f]) = false → f ≠ bar →
  split ((q ++ [f]) ++ sep ++ rest) = (q ++ [f]) :: split rest.
Proof.
  intros Hs Hf. induction q as [|b1 q IH].
  - simpl. by rewrite (bool_decide_eq_false_2 (f = bar)) by done.
  - assert (∃ b2 tl, q ++ [f] = b2 :: tl) as (b2 & tl & Hq).
    { destruct q; simpl; eauto. }
    change ((b1 :: q) ++ [f]) with (b1 :: (q ++ [f])) in *.
    rewrite Hq in Hs.
    change (has_sep (b1 :: b2 :: tl)) with
      ((bool_decide (b1 = bar) && bool_decide (b2 = bar)) || has_sep (b2 :: tl)) in Hs.
    apply orb_false_iff in Hs as [H1 H2]. rewrite <- Hq in H2.
    specialize (IH H2).
    change ((b1 :: (q ++ [f])) ++ sep ++ rest) with (b1 :: ((q ++ [f]) ++ sep ++ rest)).
    revert IH. rewrite Hq. change ((b2 :: tl) ++ sep ++ rest) with (b2 :: (tl ++ sep ++ rest)).
    intros IH.
    change (split (b1 :: b2 :: tl ++ sep ++ rest)) with
      (if bool_decide (b1 = bar) && bool_decide (b2 = bar) then [] :: split (tl ++ sep ++ rest)
       else match split (b2 :: tl ++ sep ++ rest) with p :: ps => (b1 :: p) :: ps | [] => [[b1]] end).
    by rewrite H1, IH.
Qed.


Lemma split_join parts :
  parts ≠ [] → Forall piece_ok parts → split (join parts) = parts.
Proof.
  induction parts as [|p parts IH]; [done|]. intros _ Hall.
  apply Forall_cons in Hall as [(Hs & q & f & -> & Hf) Hall].
  destruct parts as [|p' parts].
  - simpl. by apply split_single.
  - change (join ((q ++ [f]) :: p' :: parts)) with ((q ++ [f]) ++ sep ++ join (p' :: parts)).
    rewrite split_piece by done. f_equal. by apply IH.
Qed.

Section codec.

Lemma serialize_pieces blocks parts :
  Forall clean blocks → rmapM Block.serialize blocks = Ok parts →
  Forall piece_ok parts ∧ rmapM deserialize_block parts = Ok blocks
  ∧ Forall (λ p, length p = 13) parts.
Proof.
  intros Hall Hparts. apply rmapM_ok_Forall2 in Hparts.
  induction Hparts as [|b p blocks parts Hp _ IH]; [done|].
  apply Forall_cons in Hall as [Hb Hall]. destruct (IH Hall) as (IH1 & IH2 & IH3).
  apply clean_serialize in Hb as (bs & Hbs & Hlen & Hsep & Hde & Hlast).
  rewrite Hp in Hbs. injection Hbs as <-.
  split_and!; [by constructor| |by constructor].
  simpl. by rewrite Hde, IH2.
Qed.

Lemma decode_encode_bucket blocks bs :
  blocks ≠ [] → Forall clean blocks →
  encode_bucket blocks = Ok bs → decode_bucket bs = Ok blocks.
Proof.
  intros Hne Hall. unfold encode_bucket, decode_bucket. intros Hb.
  apply rbind_ok in Hb as (parts & Hparts & [= <-]).
  destruct (serialize_pieces _ _ Hall Hparts) as (Hok & Hde & _).
  rewrite split_join; [done| |done].
  intros ->. apply rmapM_ok_length in Hparts. by destruct blocks.
Qed.
End codec.

(** ** Tree geometry *)

Lemma climb_fuel fuel fuel' i : i < fuel → i < fuel' → climb fuel i = climb fuel' i.
Proof.
  revert fuel' i. induction fuel as [|fuel IH]; intros fuel' i Hf Hf'; [lia|].
  destruct fuel' as [|fuel']; [lia|]. cbn [climb]. f_equal.
  destruct (Nat.eqb_spec i 0) as [->|Hi]; [done|].
  assert ((i - 1) `div` 2 < i) by (apply Nat.Div0.div_lt_upper_bound; lia).
  apply IH; lia.
Qed.


Lemma path_up_0 : path_up 0 = [0].
Proof. done. Qed.

Lemma path_up_child i (b : bool) :
  path_up (if b then 2 * i + 2 else 2 * i + 1)
  = (if b then 2 * i + 2 else 2 * i + 1) :: path_up i.
Proof.
  unfold path_up. set (c := if b then _ else _).
  assert (i < c ∧ (c - 1) `div` 2 = i) as [Hc Hp].
  { subst c. destruct b; split; try lia.
    - symmetry. apply (Nat.div_unique _ _ _ 1); lia.
    - symmetry. apply (Nat.div_unique _ _ _ 0); lia. }
  change (climb (S c) c) with (c :: (if c =? 0 then [] else climb c ((c - 1) `div` 2))).
  destruct (Nat.eqb_spec c 0); [lia|]. rewrite Hp. f_equal. apply climb_fuel; lia.
Qed.

Lemma path_up_head i : ∃ tl, path_up i = i :: tl.
Proof. unfold path_up. cbn [climb]. eauto. Qed.

Lemma climb_le fuel i : Forall (λ j, j ≤ i) (climb fuel i).
Proof.
  revert i. induction fuel as [|fuel IH]; intros i; cbn [climb]; [constructor|].
  constructor; [done|]. destruct (Nat.eqb_spec i 0); [constructor|].
  assert ((i - 1) `div` 2 < i) by (apply Nat.Div0.div_lt_upper_bound; lia).
  eapply Forall_impl; [apply IH|]. intros j Hj. cbn beta in *. lia.
Qed.

Lemma climb_NoDup fuel i : NoDup (climb fuel i).
Proof.
  revert i. induction fuel as [|fuel IH]; intros i; cbn [climb]; [constructor|].
  destruct (Nat.eqb_spec i 0); [apply NoDup_singleton|].
  assert ((i - 1) `div` 2 < i) by (apply Nat.Div0.div_lt_upper_bound; lia).
  constructor; [|apply IH].
  intros Hin. pose proof (climb_le fuel ((i - 1) `div` 2)) as Hle.
  rewrite Forall_forall in Hle. apply Hle in Hin. lia.
Qed.



Lemma read_nodes_climb bits i :
  reverse (read_nodes bits i) ++ tail (path_up i) = path_up (final bits i).
Proof.
  revert i. induction bits as [|b bits IH]; intros i.
  - destruct (path_up_head i) as [tl Htl]. change (final [] i) with i. rewrite Htl. done.
  - change (read_nodes (b :: bits) i)
      with (i :: read_nodes bits (if b then 2 * i + 2 else 2 * i + 1)).
    change (final (b :: bits) i) with (final bits (if b then 2 * i + 2 else 2 * i + 1)).
    rewrite reverse_cons, <- app_assoc. rewrite <- IH, path_up_child.
    destruct (path_up_head i) as [tl Htl]. rewrite Htl. done.
Qed.

Lemma read_nodes_length bits i : length (read_nodes bits i) = S (length bits).
Proof. revert i. induction bits; intros; simpl; auto. Qed.

Lemma foldl_value bits acc :
  foldl (λ acc (b : bool), 2 * acc + (if b then 1 else 0)) acc bits
  = acc * 2 ^ length bits + value bits.
Proof.
  unfold value. set (f := λ acc (b : bool), 2 * acc + (if b then 1 else 0)).
  revert acc. induction bits as [|b bits IH]; intros acc; cbn [foldl length].
  - rewrite Nat.pow_0_r. lia.
  - rewrite (IH (f acc b)), (IH (f 0 b)), Nat.pow_succ_r'. unfold f. destruct b; lia.
Qed.

Lemma value_app bits bits' :
  value (bits ++ bits') = value bits * 2 ^ length bits' + value bits'.
Proof. unfold value at 1. rewrite foldl_app. fold (value bits). apply foldl_value. Qed.

Lemma final_value bits i :
  S (final bits i) = S i * 2 ^ length bits + value bits.
Proof.
  revert i. induction bits as [|b bits IH]; intros i.
  - unfold value, final. simpl. lia.
  - change (final (b :: bits) i) with (final bits (if b then 2 * i + 2 else 2 * i + 1)).
    rewrite IH. change (b :: bits) with ([b] ++ bits). rewrite value_app.
    unfold value at 2. simpl. destruct b; lia.
Qed.

Lemma pos_bits_app p acc : pos_bits p acc = pos_bits p [] ++ acc.
Proof.
  revert acc. induction p as [p IH|p IH|]; intros acc; simpl; [| |done].
  - rewrite (IH [true]), IH, <- app_assoc. done.
  - rewrite (IH [false]), IH, <- app_assoc. done.
Qed.

Lemma pos_bits_spec p :
  value (pos_bits p []) = Pos.to_nat p
  ∧ 2 ^ length (pos_bits p []) ≤ 2 * Pos.to_nat p.
Proof.
  assert (∀ b : bool, value [b] = if b then 1 else 0) as Hv1 by (by intros []).
  induction p as [p [IH1 IH2]|p [IH1 IH2]|]; cbn [pos_bits].
  - rewrite pos_bits_app, value_app, length_app, Nat.pow_add_r, IH1, Hv1, Pos2Nat.inj_xI.
    cbn [length]. rewrite Nat.pow_1_r. lia.
  - rewrite pos_bits_app, value_app, length_app, Nat.pow_add_r, IH1, Hv1, Pos2Nat.inj_xO.
    cbn [length]. rewrite Nat.pow_1_r. lia.
  - rewrite Hv1. cbn. lia.
Qed.

Lemma bin_spec x L :
  x < 2 ^ L → 1 ≤ L → value (bin x) = x ∧ length (bin x) ≤ L.
Proof.
  intros Hx HL. unfold bin. destruct (N.of_nat x) as [|p] eqn:Hp.
  - assert (x = 0) as -> by lia. split; [done|]. simpl. lia.
  - destruct (pos_bits_spec p) as [Hv Hl].
    assert (Pos.to_nat p = x) as Hpx by lia. rewrite Hpx in *. split; [done|].
    assert (2 ^ length (pos_bits p []) < 2 ^ S L) as Hlt by (simpl; lia).
    apply Nat.pow_lt_mono_r_iff in Hlt; lia.
Qed.

Lemma value_replicate_false k bits : value (replicate k false ++ bits) = value bits.
Proof.
  rewrite value_app. assert (value (replicate k false) = 0) as ->; [|lia].
  induction k as [|k IH]; [done|]. change (replicate (S k) false) with ([false] ++ replicate k false).
  rewrite value_app, IH. unfold value. simpl. lia.
Qed.

Lemma zfill_spec x L :
  x < 2 ^ L → 1 ≤ L →
  value (zfill L (bin x)) = x ∧ length (zfill L (bin x)) = L.
Proof.
  intros Hx HL. destruct (bin_spec x L Hx HL) as [Hv Hl]. unfold zfill.
  rewrite value_replicate_false, length_app, length_replicate. split; [done|lia].
Qed.

(** For a tree of height at least 1 the read phase visits the write-back
    path in reverse. *)
Lemma read_nodes_path x L :
  x < 2 ^ L → 1 ≤ L →
  read_nodes (zfill L (bin x)) 0 = reverse (get_path_leaf_to_root x L).
Proof.
  intros Hx HL. destruct (zfill_spec x L Hx HL) as [Hv Hl].
  pose proof (read_nodes_climb (zfill L (bin x)) 0) as Hc.
  rewrite path_up_0, app_nil_r in Hc.
  pose proof (final_value (zfill L (bin x)) 0) as Hf. rewrite Hv, Hl in Hf.
  unfold get_path_leaf_to_root.
  assert (2 ^ (L + 1) - 1 - 2 ^ L + x = final (zfill L (bin x)) 0) as ->.
  { rewrite Nat.pow_add_r. simpl. lia. }
  fold (path_up (final (zfill L (bin x)) 0)). rewrite <- Hc. by rewrite reverse_involutive.
Qed.

Lemma read_nodes_height0 : read_nodes (zfill 0 (bin 0)) 0 = [0; 1].
Proof. done. Qed.

Lemma path_height0 : get_path_leaf_to_root 0 0 = [0].
Proof. done. Qed.

Lemma path_length x L : x < 2 ^ L → length (get_path_leaf_to_root x L) = S L.
Proof.
  intros Hx. destruct L as [|L].
  - simpl in Hx. assert (x = 0) as -> by lia. done.
  - pose proof (read_nodes_path x (S L) Hx ltac:(lia)) as Hp.
    apply (f_equal length) in Hp. rewrite read_nodes_length, length_reverse in Hp.
    destruct (zfill_spec x (S L) Hx ltac:(lia)) as [_ Hl]. lia.
Qed.

Lemma path_bound x L :
  x < 2 ^ L → Forall (λ j, j < 2 ^ (L + 1) - 1) (get_path_leaf_to_root x L).
Proof.
  intros Hx. unfold get_path_leaf_to_root. eapply Forall_impl; [apply climb_le|].
  simpl. intros j Hj. rewrite Nat.pow_add_r in *. simpl in *. lia.
Qed.

Lemma path_NoDup x L : NoDup (get_path_leaf_to_root x L).
Proof. apply climb_NoDup. Qed.

(** ** The shape of a call *)

Section access.
Context `{Cipher}.

Lemma read_bucket_set_position_map c pm server i :
  read_bucket (set_position_map c pm) server i = read_bucket c server i.
Proof. done. Qed.

Lemma read_path_set_position_map c pm server nodes st :
  read_path (set_position_map c pm) server nodes st = read_path c server nodes st.
Proof. revert st. induction nodes as [|i nodes IH]; intros st; simpl; [done|].
  rewrite read_bucket_set_position_map. destruct (read_bucket c server i); auto. Qed.

(** A read phase that goes through has read every node. *)
Lemma read_path_ok c server nodes st st' :
  read_path c server nodes st = (None, st') ↔
  ∃ bls, Forall2 (λ i bl, read_bucket c server i = Ok bl) nodes bls
         ∧ st' = st ++ concat bls.
Proof.
  revert st. induction nodes as [|i nodes IH]; intros st; simpl.
  - split.
    + intros [= <-]. exists []. split; [constructor|by rewrite app_nil_r].
    + intros (bls & Hbls & ->). inversion Hbls. by rewrite app_nil_r.
  - destruct (read_bucket c server i) as [bl|e] eqn:Hi.
    + rewrite IH. split.
      * intros (bls & Hbls & ->). exists (bl :: bls). split; [by constructor|].
        by rewrite <- app_assoc.
      * intros (bls & Hbls & ->). inversion Hbls as [|? bl' ? bls' Hbl Hrest]; subst.
        rewrite Hi in Hbl. injection Hbl as <-. exists bls'. split; [done|].
        simpl. by rewrite <- app_assoc.
    + split; [done|]. intros (bls & Hbls & _). inversion Hbls; congruence.
Qed.

(** A read phase that stops on node [node] after the nodes [pre]. *)
Lemma read_path_fail c server pre node post bls e st :
  Forall2 (λ i bl, read_bucket c server i = Ok bl) pre bls →
  read_bucket c server node = Raise e →
  read_path c server (pre ++ node :: post) st = (Some e, st ++ concat bls).
Proof.
  intros Hpre Hnode. revert st. induction Hpre as [|i bl pre bls Hi _ IH]; intros st; simpl.
  - by rewrite Hnode, app_nil_r.
  - rewrite Hi, IH. by rewrite <- app_assoc.
Qed.

(** What [evict_level] does when it goes through. *)
Lemma evict_level_done fresh path_back level c server c' server' :
  evict_level fresh path_back level c server = Done c' server' →
  ∃ target chosen remaining data_to_encrypt k,
    path_back !! level = Some target
    ∧ select (position_map c) (L server) level target (srvZ server) (stash c) 0
      = Ok (chosen, remaining)
    ∧ target < length (nonces c) ∧ target < length (tree server)
    ∧ encode_bucket (chosen ++ replicate (srvZ server - length chosen)
                                  (dummy_block (srvN server))) = Ok data_to_encrypt
    ∧ keys c !! target = Some k
    ∧ c' = mkClient _ remaining (position_map c) (keys c)
             (<[target := fresh level]> (nonces c))
    ∧ server' = set_tree server
        (<[target := encrypt k (fresh level) data_to_encrypt
                       (data_to_authenticate target)]> (tree server)).
Proof.
  unfold evict_level. intros Hd.
  destruct (path_back !! level) as [target|]; [|done].
  destruct (select _ _ _ _ _ _ _) as [[chosen remaining]|] eqn:Hsel; [|done].
  case_bool_decide as Hn; [|done].
  unfold Bucket in Hd.
  destruct (encode_bucket _) as [bs|] eqn:Hbs; [|done].
  cbn [keys set_nonces] in Hd.
  destruct (keys c !! target) as [k|] eqn:Hk; [|done].
  case_bool_decide as Ht; [|done]. injection Hd as <- <-.
  exists target, chosen, remaining, bs, k. by split_and!.
Qed.

(** The write-back touches the nodes of [path_back] only, and neither the
    position map nor the keys nor the geometry. *)
Lemma evict_level_frame fresh path_back level c server :
  let p := phase_state (evict_level fresh path_back level c server) in
  position_map p.1 = position_map c ∧ keys p.1 = keys c ∧ same_config server p.2
  ∧ length (tree p.2) = length (tree server) ∧ length (nonces p.1) = length (nonces c)
  ∧ ∀ i, i ∉ path_back →
      tree p.2 !! i = tree server !! i ∧ nonces p.1 !! i = nonces c !! i.
Proof.
  unfold evict_level.
  destruct (path_back !! level) as [target|] eqn:Ht; [|by cbn].
  destruct (select _ _ _ _ _ _ _) as [[chosen remaining]|]; [|by cbn].
  assert (∀ i, i ∉ path_back → target ≠ i) as Hne.
  { intros i Hi ->. apply Hi. by eapply list_elem_of_lookup_2. }
  case_bool_decide as Hn; [|by cbn].
  destruct (encode_bucket _) as [bs|].
  2:{ cbn. rewrite length_insert. split_and!; try done.
      intros i Hi. by rewrite list_lookup_insert_ne by auto. }
  cbn [keys set_nonces].
  destruct (keys c !! target) as [k|].
  2:{ cbn. rewrite length_insert. split_and!; try done.
      intros i Hi. by rewrite list_lookup_insert_ne by auto. }
  case_bool_decide as Ht'.
  - cbn. rewrite !length_insert. split_and!; try done.
    intros i Hi. by rewrite !list_lookup_insert_ne by auto.
  - cbn. rewrite length_insert. split_and!; try done.
    intros i Hi. by rewrite list_lookup_insert_ne by auto.
Qed.

Lemma evict_frame fresh path_back levels c server :
  let p := phase_state (evict fresh path_back levels c server) in
  position_map p.1 = position_map c ∧ keys p.1 = keys c ∧ same_config server p.2
  ∧ length (tree p.2) = length (tree server) ∧ length (nonces p.1) = length (nonces c)
  ∧ ∀ i, i ∉ path_back →
      tree p.2 !! i = tree server !! i ∧ nonces p.1 !! i = nonces c !! i.
Proof.
  revert c server. induction levels as [|level levels IH]; intros c server.
  - cbn. by split_and!.
  - cbn [evict]. pose proof (evict_level_frame fresh path_back level c server) as Hl.
    destruct (evict_level fresh path_back level c server) as [c1 s1|e c1 s1];
      cbn [phase_state fst snd] in Hl; [|exact Hl].
    specialize (IH c1 s1). cbv zeta in IH. cbv zeta.
    destruct Hl as (Hl1 & Hl2 & (?&?&?&?) & Hl4 & Hl5 & Hl6).
    destruct IH as (IH1 & IH2 & (?&?&?&?) & IH4 & IH5 & IH6).
    split_and!; try congruence.
    + unfold same_config. split_and!; congruence.
    + intros i Hi. destruct (Hl6 i Hi), (IH6 i Hi). split; congruence.
Qed.

(** The phases of a call that returns. *)
Lemma Access_returned op a data_ new_x fresh c server data c' server' :
  Access op a data_ new_x fresh c server = Returned data c' server' →
  ∃ x st1 st2 c2,
    position_map c !! a = Some x
    ∧ read_path c server (read_nodes (zfill (L server) (bin x)) 0) (stash c) = (None, st1)
    ∧ data = (locate a st1).2
    ∧ update op a data_ new_x (locate a st1).1 st1 = Ok st2
    ∧ evict fresh (get_path_leaf_to_root x (L server))
        (seq 0 (length (get_path_leaf_to_root x (L server))))
        (mkClient _ st2 (<[a := new_x]> (position_map c)) (keys c) (nonces c)) server
      = Done c2 server'
    ∧ c' = set_stash c2 (filter (λ block, Block.dummy_flag block = false) (stash c2)).
Proof.
  unfold Access. intros Hr. destruct (position_map c !! a) as [x|]; [|done].
  rewrite read_path_set_position_map in Hr.
  destruct (read_path _ _ _ _) as [[e|] st1] eqn:Hread; [done|].
  destruct (locate a st1) as [block_idx data0] eqn:Hloc.
  destruct (update _ _ _ _ _ _) as [st2|] eqn:Hup; [|done].
  cbn [set_stash set_position_map stash position_map keys nonces] in Hr.
  destruct (evict _ _ _ _ _) as [c2 s2|] eqn:Hev; [|done].
  injection Hr as <- <- <-. exists x, st1, st2, c2. rewrite Hloc. by split_and!.
Qed.
End access.


(** ** Construction *)

Section construction.
Context `{Cipher}.

Lemma init_buckets_spec rnd_nonce indices c server c' server' :
  init_buckets rnd_nonce indices c server = Ok (c', server') →
  stash c' = stash c ∧ position_map c' = position_map c ∧ keys c' = keys c
  ∧ same_config server server' ∧ length (tree server') = length (tree server)
  ∧ nonces c' = nonces c ++ (rnd_nonce <$> indices).
Proof.
  revert c server. induction indices as [|i indices IH]; intros c server; cbn [init_buckets].
  - intros [= <- <-]. rewrite app_nil_r. by split_and!.
  - intros Hi. apply rbind_ok in Hi as (enc & Henc & Hi).
    apply rbind_ok in Hi as (k & Hk & Hi). case_bool_decide as Hlt; [|done].
    apply IH in Hi as (H1 & H2 & H3 & (G1 & G2 & G3 & G4) & H5 & H6). cbn in *.
    rewrite length_insert in H5. rewrite <- app_assoc in H6. by split_and!.
Qed.

Lemma Client_init_spec rnd_leaf rnd_key rnd_nonce server c server' :
  Client_init rnd_leaf rnd_key rnd_nonce server = Ok (c, server') →
  stash c = []
  ∧ position_map c
    = list_to_map ((λ block, (Z.of_nat block, rnd_leaf block)) <$> seq 0 (srvN server))
  ∧ keys c = rnd_key <$> seq 0 (num_of_buckets server)
  ∧ nonces c = rnd_nonce <$> seq 0 (num_of_buckets server)
  ∧ same_config server server' ∧ length (tree server') = length (tree server).
Proof.
  unfold Client_init. intros Hi.
  apply init_buckets_spec in Hi as (H1 & H2 & H3 & H4 & H5 & H6). by split_and!.
Qed.

Lemma Client_init_position_map rnd_leaf rnd_key rnd_nonce server c server' :
  Client_init rnd_leaf rnd_key rnd_nonce server = Ok (c, server') →
  ∀ a, position_map c !! a
       = if bool_decide (0 ≤ a < Z.of_nat (srvN server))%Z
         then Some (rnd_leaf (Z.to_nat a)) else None.
Proof.
  intros Hi a. apply Client_init_spec in Hi as (_ & -> & _).
  generalize (srvN server) as n. intros n. case_bool_decide as Ha.
  - apply elem_of_list_to_map.
    + rewrite <- list_fmap_compose. apply NoDup_fmap_2_strong; [|apply NoDup_seq].
      intros ?? _ _. cbn. lia.
    + apply list_elem_of_fmap. exists (Z.to_nat a). split.
      * f_equal. lia.
      * apply elem_of_seq. lia.
  - apply not_elem_of_list_to_map. rewrite <- list_fmap_compose.
    intros (b & -> & Hb)%list_elem_of_fmap. apply elem_of_seq in Hb. cbn in Ha. lia.
Qed.

Lemma Server_init_spec N Z server :
  Server_init N Z = Ok server →
  1 ≤ Z ∧ 2 ≤ N `div` Z
  ∧ server = mkServer N Z (N `div` Z) (Nat.log2_up (N `div` Z) - 1)
               (replicate (N `div` Z) []).
Proof.
  unfold Server_init. destruct (Nat.eqb_spec Z 0); [done|].
  destruct (Nat.ltb_spec (N `div` Z) 2); [done|]. intros [= <-]. split_and!; [lia|done..].
Qed.
End construction.

(** ** Calls: what every outcome keeps *)

Section calls.
Context `{Cipher}.

(** Whatever the outcome, a call on an unmapped address changes nothing,
    and a call on a mapped one remaps that address and keeps keys and
    geometry. *)
Lemma Access_outcome op a data_ new_x fresh c server :
  let p := outcome_state (Access op a data_ new_x fresh c server) in
  same_config server p.2 ∧ keys p.1 = keys c
  ∧ match position_map c !! a with
    | None => p = (c, server)
    | Some _ => position_map p.1 = <[a := new_x]> (position_map c)
    end.
Proof.
  unfold Access. destruct (position_map c !! a) as [x|]; [|by cbn].
  rewrite read_path_set_position_map.
  destruct (read_path _ _ _ _) as [[e|] st1]; [by cbn|].
  destruct (locate a st1) as [block_idx data0].
  destruct (update _ _ _ _ _ _) as [st2|]; [|by cbn].
  match goal with |- context [evict ?f ?p ?l ?c' ?s'] =>
    pose proof (evict_frame f p l c' s') as Hf;
    destruct (evict f p l c' s') as [c2 s2|e c2 s2] end;
    cbn in Hf |- *; by destruct Hf as (-> & -> & ? & _).
Qed.

Lemma reached_position_map c server :
  reached c server →
  ∀ k, is_Some (position_map c !! k) ↔ (0 ≤ k < Z.of_nat (srvN server))%Z.
Proof.
  induction 1 as [N Z s0 rl rk rn c server Hs Hc|op a d nx fresh c server _ IH]; intros k.
  - rewrite (Client_init_position_map _ _ _ _ _ _ Hc).
    apply Client_init_spec in Hc as (_ & _ & _ & _ & (-> & _) & _).
    case_bool_decide as Hk; split; [done|by eauto|by intros [? [=]]|done].
  - pose proof (Access_outcome op a d nx fresh c server) as (Hcfg & _ & Hpm).
    destruct Hcfg as (-> & _). cbv zeta in Hpm.
    destruct (position_map c !! a) as [x|] eqn:Ha.
    + rewrite Hpm. rewrite <- IH. destruct (decide (a = k)) as [->|Hne].
      * rewrite lookup_insert_eq, Ha. split; eauto.
      * by rewrite lookup_insert_ne.
    + by rewrite Hpm.
Qed.
End calls.

(** A call that answered [data] returned, and left the state it left. *)
Lemma returned_eta `{Cipher} (o : outcome) data :
  answer o = inl data → o = Returned data (outcome_state o).1 (outcome_state o).2.
Proof. destruct o; cbn; by intros [= <-]. Qed.

(** ** The concrete runs *)

Lemma setup_start N Z leaf :
  is_Ok (setup N Z leaf) = true → setup N Z leaf = Ok (start N Z leaf).
Proof. unfold start. by destruct (setup N Z leaf). Qed.

Lemma start_position_map N Z leaf a y :
  is_Ok (setup N Z leaf) = true →
  position_map (start N Z leaf).1 !! a = Some y → y = leaf.
Proof.
  intros Hs%setup_start. unfold setup in Hs. apply rbind_ok in Hs as (s0 & _ & Hc).
  destruct (start N Z leaf) as [c s]. cbn [fst].
  rewrite (Client_init_position_map _ _ _ _ _ _ Hc). case_bool_decide; congruence.
Qed.

Lemma start_reached N Z leaf :
  is_Ok (setup N Z leaf) = true → reached (start N Z leaf).1 (start N Z leaf).2.
Proof.
  intros Hs%setup_start. unfold setup in Hs. apply rbind_ok in Hs as (s0 & Hs0 & Hc).
  destruct (start N Z leaf) as [c s]. by eapply reached_init.
Qed.

(** * The claims *)

(** C8. Stash hygiene: the stash is empty at construction, and after every
    call that returns, whatever the operation and the address, every block
    left in it has [dummy_flag = False]. *)
Theorem stash_hygiene `{Cipher} :
  (∀ rnd_leaf rnd_key rnd_nonce server c server',
     Client_init rnd_leaf rnd_key rnd_nonce server = Ok (c, server') → stash c = [])
  ∧ (∀ op a data_ new_x fresh c server data c' server',
       Access op a data_ new_x fresh c server = Returned data c' server' →
       Forall (λ block, Block.dummy_flag block = false) (stash c')).
Proof.
  split.
  - intros ?????? Hi. by apply Client_init_spec in Hi as (? & _).
  - intros op a data_ new_x fresh c server data c' server' Ha.
    apply Access_returned in Ha as (x & st1 & st2 & c2 & _ & _ & _ & _ & _ & ->).
    cbn. apply Forall_forall. by intros block [? _]%list_elem_of_filter.
Qed.

Lemma stash_hygiene_witness :
  Forall (λ block, Block.dummy_flag block = false)
    (stash (outcome_state (call "write" 3 "ABCD" 1 (start 16 4 0))).1).
Proof.
  apply (proj2 stash_hygiene "write" 3%Z (bytes_of_string "ABCD") 1
           (λ level, [Z.of_nat level]) (start 16 4 0).1 (start 16 4 0).2 None
           _ (outcome_state (call "write" 3 "ABCD" 1 (start 16 4 0))).2).
  apply (returned_eta (call "write" 3 "ABCD" 1 (start 16 4 0))).
  vm_compute. reflexivity.
Defined.

(** C10. Frame of a call that returns: only entry [a] of the position map is
    remapped (to the leaf drawn), and a tree node that is not on the
    leaf-to-root path of the old leaf [x] keeps its ciphertext and its
    nonce. *)
Theorem Access_frame `{Cipher} op a data_ new_x fresh c server data c' server' x :
  Access op a data_ new_x fresh c server = Returned data c' server' →
  position_map c !! a = Some x →
  position_map c' !! a = Some new_x
  ∧ (∀ b, b ≠ a → position_map c' !! b = position_map c !! b)
  ∧ (∀ i, i ∉ get_path_leaf_to_root x (L server) →
       tree server' !! i = tree server !! i ∧ nonces c' !! i = nonces c !! i).
Proof.
  intros Ha Hx.
  apply Access_returned in Ha as (x' & st1 & st2 & c2 & Hx' & _ & _ & _ & Hev & ->).
  rewrite Hx in Hx'. injection Hx' as <-.
  match type of Hev with evict ?f ?p ?l ?c0 ?s0 = _ =>
    pose proof (evict_frame f p l c0 s0) as Hf end.
  rewrite Hev in Hf. cbn in Hf. destruct Hf as (Hpm & _ & _ & _ & _ & Hout).
  cbn. rewrite Hpm. split_and!.
  - apply lookup_insert_eq.
  - intros b Hb. by apply lookup_insert_ne.
  - exact Hout.
Qed.

Lemma Access_frame_witness :
  let p := start 16 4 0 in
  let q := outcome_state (call "write" 3 "ABCD" 1 p) in
  position_map q.1 !! 3%Z = Some 1
  ∧ (∀ b, b ≠ 3%Z → position_map q.1 !! b = position_map p.1 !! b)
  ∧ (∀ i, i ∉ get_path_leaf_to_root 0 (L p.2) →
       tree q.2 !! i = tree p.2 !! i ∧ nonces q.1 !! i = nonces p.1 !! i).
Proof.
  apply (Access_frame "write" 3%Z (bytes_of_string "ABCD") 1
           (λ level, [Z.of_nat level]) (start 16 4 0).1 (start 16 4 0).2 None).
  - apply (returned_eta (call "write" 3 "ABCD" 1 (start 16 4 0))).
    vm_compute. reflexivity.
  - vm_compute. reflexivity.
Defined.

(** C1, as the code has it.  When the buckets of the nodes [pre] of the read
    path decrypt and decode (to [bls]) and the decryption of the next node
    fails, the call raises [InvalidTag]; tree, keys and nonces are as before
    the call, but the position map already maps [a] to the leaf drawn and the
    stash already holds, after its old contents, the blocks of the buckets
    read before the failure. *)
Theorem Access_decryption_failure `{Cipher} op a data_ new_x fresh c server
    x pre node post bls ct k n :
  position_map c !! a = Some x →
  read_nodes (zfill (L server) (bin x)) 0 = pre ++ node :: post →
  Forall2 (λ i bl, read_bucket c server i = Ok bl) pre bls →
  tree server !! node = Some ct → keys c !! node = Some k →
  nonces c !! node = Some n →
  decrypt k n ct (data_to_authenticate node) = None →
  Access op a data_ new_x fresh c server
  = Raised InvalidTag
      (mkClient _ (stash c ++ concat bls) (<[a := new_x]> (position_map c))
         (keys c) (nonces c))
      server.
Proof.
  intros Hx Hnodes Hpre Hct Hk Hn Hdec. unfold Access. rewrite Hx.
  rewrite read_path_set_position_map, Hnodes.
  rewrite (read_path_fail c server pre node post bls InvalidTag); [done|done|].
  unfold read_bucket. rewrite Hct, Hk, Hn. cbn [rbind or_raise]. by rewrite Hdec.
Qed.

Lemma Access_decryption_failure_witness :
  let p := tamper 1 [] (start 16 4 0) in
  Access "read" 0 [] 1 (λ level, [Z.of_nat level]) p.1 p.2
  = Raised InvalidTag
      (mkClient _ (stash p.1 ++ concat [replicate 4 (dummy_block 16)])
         (<[0%Z := 1]> (position_map p.1)) (keys p.1) (nonces p.1))
      p.2.
Proof.
  apply (Access_decryption_failure "read" 0%Z [] 1 (λ level, [Z.of_nat level])
           (tamper 1 [] (start 16 4 0)).1 (tamper 1 [] (start 16 4 0)).2
           0 [0] 1 [] [replicate 4 (dummy_block 16)] [] 1%Z [1%Z]).
  - vm_compute. reflexivity.
  - vm_compute. reflexivity.
  - repeat constructor.
  - vm_compute. reflexivity.
  - vm_compute. reflexivity.
  - vm_compute. reflexivity.
  - vm_compute. reflexivity.
Defined.

(** C1 as stated fails: with [N = 16], [Z = 4], every block mapped to leaf 0
    and the ciphertext of node 1 replaced by the server, a read of block 0
    that draws leaf 1 raises [InvalidTag], and the client is not as it was:
    block 0 is mapped to leaf 1, and the stash holds the four blocks of the
    root bucket. *)
Lemma Access_decryption_failure_mutates :
  let p := tamper 1 [] (start 16 4 0) in
  let o := call "read" 0 "" 1 p in
  is_Ok (setup 16 4 0) = true
  ∧ answer o = inr InvalidTag
  ∧ position_map p.1 !! 0%Z = Some 0
  ∧ position_map (outcome_state o).1 !! 0%Z = Some 1
  ∧ stash p.1 = []
  ∧ stash (outcome_state o).1 = replicate 4 (dummy_block 16).
Proof. vm_compute. by split_and!. Qed.

(** C7, as the code has it.  In every state a client and its server go
    through, a call on an address outside [0, N) raises [KeyError] at the
    position-map lookup, before anything is read from the server or changed:
    client and server are as before.  (The payload of a write is not
    examined.) *)
Theorem Access_bad_address `{Cipher} op a data_ new_x fresh c server :
  reached c server →
  ¬ (0 ≤ a < Z.of_nat (srvN server))%Z →
  Access op a data_ new_x fresh c server = Raised KeyError c server.
Proof.
  intros Hr Ha. unfold Access.
  destruct (position_map c !! a) as [x|] eqn:Hx; [|done].
  exfalso. apply Ha. apply (reached_position_map c server Hr). eauto.
Qed.

Lemma Access_bad_address_witness :
  Access "write" 16 (bytes_of_string "ABCD") 0 (λ level, [Z.of_nat level])
    (start 16 4 0).1 (start 16 4 0).2
  = Raised KeyError (start 16 4 0).1 (start 16 4 0).2.
Proof.
  apply Access_bad_address.
  - apply start_reached. vm_compute. reflexivity.
  - vm_compute. intros [_ Hlt]. discriminate Hlt.
Defined.

(** C7 as stated fails: with [N = 16], [Z = 4], a write of the 2-byte payload
    ["AB"] to block 3 returns, rewrites the tree and remaps block 3. *)
Lemma Access_bad_payload_accepted :
  let p := start 16 4 0 in
  let o := call "write" 3 "AB" 1 p in
  is_Ok (setup 16 4 0) = true
  ∧ answer o = inl None
  ∧ tree (outcome_state o).2 ≠ tree p.2
  ∧ position_map p.1 !! 3%Z = Some 0
  ∧ position_map (outcome_state o).1 !! 3%Z = Some 1.
Proof. vm_compute. split_and!; done. Qed.

(** The inner loop of the write-back takes at most [Z - n] blocks. *)
Lemma select_length pm L level target Z st : ∀ n chosen remaining,
  select pm L level target Z st n = Ok (chosen, remaining) → length chosen ≤ Z - n.
Proof.
  induction st as [|block st IH]; intros n chosen remaining; cbn [select].
  - intros [= <- <-]. cbn. lia.
  - destruct (Block.dummy_flag block).
    { intros ([ch rm] & Hr & [= <- <-])%rbind_ok. by eapply IH. }
    intros (leaf & _ & Hs)%rbind_ok. apply rbind_ok in Hs as (node & _ & Hs).
    destruct (bool_decide (node = target) && (n <? Z)) eqn:Htest.
    + apply andb_true_iff in Htest as [_ Hn%Nat.ltb_lt].
      apply rbind_ok in Hs as ([ch rm] & Hr & [= <- <-]). apply IH in Hr.
      cbn [fst length]. lia.
    + apply rbind_ok in Hs as ([ch rm] & Hr & [= <- <-]). by eapply IH.
Qed.

(** C9, as the code has it.  For [N = 2Z] the server has height [L = 0] and
    an array of two buckets; the only leaf is 0 and its leaf-to-root path is
    the root alone; and a call that returns in a state of height 0 whose
    position map holds leaves has written the root bucket and the root
    nonce, and nothing else: slot 0 of the tree now holds the encryption,
    under the key of the root and the nonce drawn, of the encoding of [Z]
    blocks, slot 0 of the nonces holds the nonce drawn, and every other slot
    is as before. *)
Theorem smallest_configuration `{Cipher} Z :
  1 ≤ Z →
  Server_init (2 * Z) Z = Ok (mkServer (2 * Z) Z 2 0 [[]; []])
  ∧ get_path_leaf_to_root 0 0 = [0]
  ∧ ∀ op a data_ new_x fresh c server data c' server',
      L server = 0 →
      (∀ b x, position_map c !! b = Some x → x < 2 ^ L server) →
      Access op a data_ new_x fresh c server = Returned data c' server' →
      ∃ k blocks bs,
        keys c !! 0 = Some k ∧ encode_bucket blocks = Ok bs
        ∧ length blocks = srvZ server
        ∧ tree server'
          = <[0 := encrypt k (fresh 0) bs (data_to_authenticate 0)]> (tree server)
        ∧ tree server' !! 0 = Some (encrypt k (fresh 0) bs (data_to_authenticate 0))
        ∧ nonces c' = <[0 := fresh 0]> (nonces c)
        ∧ nonces c' !! 0 = Some (fresh 0).
Proof.
  intros HZ. split_and!.
  - unfold Server_init. destruct (Nat.eqb_spec Z 0); [lia|].
    replace ((2 * Z) `div` Z) with 2 by (rewrite Nat.div_mul; lia).
    done.
  - done.
  - intros op a data_ new_x fresh c server data c' server' HL Hpm Ha.
    apply Access_returned in Ha as (x & st1 & st2 & c2 & Hx & _ & _ & _ & Hev & ->).
    apply Hpm in Hx. rewrite HL in *. assert (x = 0) as -> by (simpl in Hx; lia).
    change (get_path_leaf_to_root 0 0) with [0] in Hev. cbn [length seq evict] in Hev.
    destruct (evict_level _ _ _ _ _) as [c3 s3|] eqn:Hl; [|done]. injection Hev as -> ->.
    apply evict_level_done in Hl
      as (t & ch & rm & bs & k & [= <-] & Hsel & Hn & Ht & Hbs & Hk & -> & ->).
    apply select_length in Hsel.
    cbn [keys nonces tree srvZ srvN set_tree set_stash] in *.
    exists k, (ch ++ replicate (srvZ server - length ch) (dummy_block (srvN server))), bs.
    split_and!; [done|done| |done| |done|].
    + rewrite length_app, length_replicate. lia.
    + by apply list_lookup_insert_eq.
    + by apply list_lookup_insert_eq.
Qed.

Lemma smallest_configuration_witness :
  let p := start 8 4 0 in
  let fresh := λ level : nat, [Z.of_nat level] in
  let q := outcome_state (call "write" 3 "ABCD" 0 p) in
  ∃ k blocks bs,
    keys p.1 !! 0 = Some k ∧ encode_bucket blocks = Ok bs
    ∧ length blocks = srvZ p.2
    ∧ tree q.2 = <[0 := encrypt k (fresh 0) bs (data_to_authenticate 0)]> (tree p.2)
    ∧ tree q.2 !! 0 = Some (encrypt k (fresh 0) bs (data_to_authenticate 0))
    ∧ nonces q.1 = <[0 := fresh 0]> (nonces p.1)
    ∧ nonces q.1 !! 0 = Some (fresh 0).
Proof.
  apply (proj2 (proj2 (smallest_configuration 4 ltac:(lia)))
           "write" 3%Z (bytes_of_string "ABCD") 0 (λ level, [Z.of_nat level])
           (start 8 4 0).1 (start 8 4 0).2 None).
  - vm_compute. reflexivity.
  - intros b x. change (L (start 8 4 0).2) with 0.
    intros Hx. apply start_position_map in Hx; [|by vm_compute]. subst. simpl. lia.
  - apply (returned_eta (call "write" 3 "ABCD" 0 (start 8 4 0))).
    vm_compute. reflexivity.
Defined.

(** C9 as stated fails: with [N = 8], [Z = 4] the tree array has two nodes,
    and every call reads node 1 besides the root: the read phase visits
    nodes 0 and 1, and when the server replaces the ciphertext of node 1 a
    read raises [InvalidTag]. *)
Lemma smallest_configuration_reads_node_1 :
  let p := start 8 4 0 in
  is_Ok (setup 8 4 0) = true
  ∧ L p.2 = 0 ∧ num_of_buckets p.2 = 2 ∧ length (tree p.2) = 2
  ∧ read_nodes (zfill (L p.2) (bin 0)) 0 = [0; 1]
  ∧ answer (call "read" 0 "" 0 p) = inl None
  ∧ answer (call "read" 0 "" 0 (tamper 1 [] p)) = inr InvalidTag.
Proof. vm_compute. split_and!; done. Qed.

(** C5, as the code has it.  When the complete tree of height [L] fits the
    array, [2^(L+1) - 1 <= num_buckets] (so for a bucket count that is a
    power of two, or one less), then for every leaf [x < 2^L] every node the
    read phase visits and every node the write-back visits is below
    [num_buckets]. *)
Theorem tree_indices_in_range N Z server x :
  Server_init N Z = Ok server →
  2 ^ (L server + 1) - 1 ≤ num_of_buckets server →
  x < 2 ^ L server →
  Forall (λ i, i < num_of_buckets server) (read_nodes (zfill (L server) (bin x)) 0)
  ∧ Forall (λ i, i < num_of_buckets server) (get_path_leaf_to_root x (L server)).
Proof.
  intros Hs Hfit Hx. apply Server_init_spec in Hs as (HZ & Hnb & ->).
  cbn [L num_of_buckets] in *.
  set (nb := N `div` Z) in *. set (h := Nat.log2_up nb - 1) in *.
  assert (Forall (λ i, i < nb) (get_path_leaf_to_root x h)) as Hpath.
  { eapply Forall_impl; [by apply path_bound|]. intros j Hj. cbn beta in Hj. lia. }
  split; [|done]. destruct h as [|h].
  - simpl in Hx. assert (x = 0) as -> by lia. rewrite read_nodes_height0.
    repeat constructor; lia.
  - rewrite read_nodes_path by (done || lia). by apply Forall_reverse.
Qed.

Lemma tree_indices_in_range_witness :
  Forall (λ i, i < 4) (read_nodes (zfill 1 (bin 1)) 0)
  ∧ Forall (λ i, i < 4) (get_path_leaf_to_root 1 1).
Proof.
  apply (tree_indices_in_range 16 4 (mkServer 16 4 4 1 (replicate 4 [])) 1).
  - vm_compute. reflexivity.
  - vm_compute. lia.
  - vm_compute. lia.
Defined.

(** C5 as stated fails: with [N = 24], [Z = 4] there are 6 buckets and
    [L = 2]; leaf 3 lies at node 6, which both the read phase and the
    write-back visit, and a read of a block mapped to leaf 3 raises
    [IndexError]. *)
Lemma tree_index_out_of_range :
  let p := start 24 4 3 in
  is_Ok (setup 24 4 3) = true
  ∧ num_of_buckets p.2 = 6 ∧ L p.2 = 2 ∧ L p.2 = Nat.log2_up 6 - 1 ∧ 3 < 2 ^ L p.2
  ∧ read_nodes (zfill (L p.2) (bin 3)) 0 = [0; 2; 6]
  ∧ get_path_leaf_to_root 3 (L p.2) = [6; 2; 0]
  ∧ answer (call "read" 0 "" 0 p) = inr IndexError.
Proof. vm_compute. split_and!; done || lia. Qed.

(** ** The delete step on an address that is not there *)

(** When the scan finds no block with address [a], [block_idx] is still -1
    and [stash.remove(stash[-1])] removes the last block of the stash. *)
Lemma delete_absent_removes_last a data_ new_x st b :
  find_block a (st ++ [b]) 0 = None →
  update "delete" a data_ new_x (locate a (st ++ [b])).1 (st ++ [b]) = Ok st.
Proof.
  intros Hf. unfold locate. rewrite Hf. cbn [fst]. unfold update.
  rewrite bool_decide_eq_false_2 by done. rewrite bool_decide_eq_true_2 by done.
  unfold py_index. rewrite length_app. cbn [length Z.ltb Z.compare].
  destruct (Z.leb_spec 0 (-1 + Z.of_nat (length st + 1))) as [_|]; [|lia].
  destruct (Z.ltb_spec (-1 + Z.of_nat (length st + 1)) (Z.of_nat (length st + 1)))
    as [_|]; [|lia].
  cbn [andb rbind]. f_equal.
  replace (Z.to_nat (-1 + Z.of_nat (length st + 1))) with (length st) by lia.
  rewrite delete_middle. apply app_nil_r.
Qed.

(** C4 fails on the code.  With [N = 16], [Z = 4] and every leaf drawn 0,
    after writes to blocks 0, 1, 2, 3 the leaf bucket is full of real blocks.
    Block 5 was never written; deleting it returns [None] and removes block
    3, the last block read: block 3, which read back ["DDDD"] before, is gone
    afterwards. *)
Theorem delete_absent_loses_block :
  let p := outcome_state (call "write" 3 "DDDD" 0
            (outcome_state (call "write" 2 "CCCC" 0
              (outcome_state (call "write" 1 "BBBB" 0
                (outcome_state (call "write" 0 "AAAA" 0 (start 16 4 0)))))))) in
  let q := outcome_state (call "delete" 5 "" 0 p) in
  is_Ok (setup 16 4 0) = true
  ∧ answer (call "read" 5 "" 0 p) = inl None
  ∧ answer (call "read" 3 "" 0 p) = inl (Some (bytes_of_string "DDDD"))
  ∧ answer (call "delete" 5 "" 0 p) = inl None
  ∧ answer (call "read" 3 "" 0 q) = inl None.
Proof. vm_compute. split_and!; done. Qed.

(** ** The bucket codec on a payload that holds the separator *)

(** C6 fails on the code.  A bucket of four blocks with 4-byte payloads, the
    first one ["A||B"], encodes to 58 bytes that decode to five blocks: the
    first block comes back as block 3 with payload ["A"] followed by a block
    with address 16944 and an empty payload. *)
Theorem codec_separator_collision :
  let B := [Block.mk 3 0 (bytes_of_string "A||B") false;
            dummy_block 16; dummy_block 16; dummy_block 16] in
  Forall (λ b, length (Block.data b) = 4 ∧ utf8_valid (Block.data b) = true) B
  ∧ ∃ bs, encode_bucket B = Ok bs ∧ length bs = 58
      ∧ decode_bucket bs
        = Ok [Block.mk 3 0 (bytes_of_string "A") false;
              Block.mk 16944 0 [] false;
              dummy_block 16; dummy_block 16; dummy_block 16]
      ∧ decode_bucket bs ≠ Ok B.
Proof.
  cbv zeta. split; [repeat constructor|]. eexists. split; [vm_compute; reflexivity|].
  split_and!; [done|by vm_compute|by vm_compute].
Qed.


(** Projections of updated records. *)
Ltac simpl_state :=
  unfold set_stash, set_position_map, set_nonces, set_tree in *;
  cbn [stash position_map keys nonces srvN srvZ num_of_buckets L tree fst snd] in *.

(** ** Lengths of encoded buckets *)

Lemma rmapM_ok_exists {A B} (f : A → result B) l :
  Forall (λ v, ∃ y, f v = Ok y) l → ∃ l', rmapM f l = Ok l'.
Proof.
  induction 1 as [|v l [y Hy] _ [l' IH]]; [by exists []|].
  exists (y :: l'). cbn [rmapM]. by rewrite Hy, IH.
Qed.

Lemma join_length parts :
  Forall (λ p, length p = 13) parts → parts ≠ [] →
  length (join parts) = 13 * length parts + 2 * (length parts - 1).
Proof.
  induction 1 as [|p parts Hp Hall IH]; [done|]. intros _.
  destruct parts as [|p' parts]; [cbn; lia|].
  change (join (p :: p' :: parts)) with (p ++ sep ++ join (p' :: parts)).
  rewrite !length_app, IH, Hp by done. unfold sep. cbn [length]. lia.
Qed.

Lemma encode_ok blocks :
  Forall clean blocks →
  ∃ bs, encode_bucket blocks = Ok bs
    ∧ (blocks ≠ [] → length bs = 13 * length blocks + 2 * (length blocks - 1)).
Proof.
  intros Hall.
  destruct (rmapM_ok_exists Block.serialize blocks) as [parts Hparts].
  { eapply Forall_impl; [done|]. intros b (bs & Hbs & _)%clean_serialize. eauto. }
  exists (join parts). unfold encode_bucket. rewrite Hparts. split; [done|].
  intros Hne. destruct (serialize_pieces _ _ Hall Hparts) as (_ & _ & Hlen).
  rewrite join_length; [|done|].
  - by rewrite (rmapM_ok_length _ _ _ Hparts).
  - intros ->. apply rmapM_ok_length in Hparts. by destruct blocks.
Qed.

Section shape.
Context `{C : Cipher} {CC : CipherCorrect C}.

Lemma read_bucket_holds c server i blocks :
  holds c server i blocks → blocks ≠ [] → Forall clean blocks →
  read_bucket c server i = Ok blocks.
Proof.
  intros (k & n & bs & Hk & Hn & Hbs & Ht) Hne Hall. unfold read_bucket.
  rewrite Ht, Hk, Hn. cbn [rbind or_raise]. rewrite decrypt_encrypt. cbn [rbind or_raise].
  by apply decode_encode_bucket.
Qed.

Lemma Shape_read_bucket D f c server i :
  Shape D f c server → i < num_of_buckets server → i ∉ D →
  read_bucket c server i = Ok (f i).
Proof.
  intros HS Hi HD. destruct (shape_holds _ _ _ _ HS i Hi HD) as (Hh & Hl & Hc).
  apply read_bucket_holds; [done| |done]. intros Hnil. rewrite Hnil in Hl.
  pose proof (shape_Z _ _ _ _ HS). cbn in Hl. lia.
Qed.



(** ** The steps of a call, one by one *)


(** What the inner loop of the write-back chooses. *)
Lemma select_spec pm L level target Z st n chosen remaining :
  select pm L level target Z st n = Ok (chosen, remaining) →
  st ≡ₚ chosen ++ remaining
  ∧ Forall real chosen
  ∧ length chosen ≤ Z - n
  ∧ Forall (λ b, ∃ x, pm !! Block.a b = Some x
                 ∧ get_path_leaf_to_root x L !! level = Some target) chosen.
Proof.
  revert n chosen remaining.
  induction st as [|block st IH]; intros n chosen remaining; cbn [select].
  - intros [= <- <-]. split_and!; [done|constructor|cbn; lia|constructor].
  - destruct (Block.dummy_flag block) eqn:Hflag.
    { intros ([ch rm] & Hr & [= <- <-])%rbind_ok. cbn [fst snd].
      destruct (IH _ _ _ Hr) as (Hp & Hreal & Hlen & Hloc).
      split_and!; [|done..]. rewrite Hp. by rewrite Permutation_middle. }
    intros (leaf & Hleaf & Hs)%rbind_ok. apply rbind_ok in Hs as (node & Hnode & Hs).
    destruct (pm !! Block.a block) as [leaf'|] eqn:Hpm; [|done].
    injection Hleaf as ->.
    destruct (get_path_leaf_to_root leaf L !! level) as [node'|] eqn:Hpath; [|done].
    injection Hnode as ->.
    destruct (bool_decide (node = target) && (n <? Z)) eqn:Hsel.
    + apply andb_true_iff in Hsel as [Hnode%bool_decide_eq_true Hn%Nat.ltb_lt].
      apply rbind_ok in Hs as ([ch rm] & Hr & [= <- <-]). cbn [fst snd].
      destruct (IH _ _ _ Hr) as (Hp & Hreal & Hlen & Hloc).
      split_and!.
      * cbn. by rewrite Hp.
      * by constructor.
      * cbn [length]. lia.
      * constructor; [|done]. exists leaf. by rewrite Hnode in Hpath.
    + apply rbind_ok in Hs as ([ch rm] & Hr & [= <- <-]). cbn [fst snd].
      destruct (IH _ _ _ Hr) as (Hp & Hreal & Hlen & Hloc).
      split_and!; [|done..]. rewrite Hp. by rewrite Permutation_middle.
Qed.

(** One turn of the write-back keeps the shape, whether it goes through
    (the node written then holds the chosen blocks and the padding) or
    not. *)
Lemma Shape_evict_level D f fresh path_back level c server :
  Shape D f c server →
  match evict_level fresh path_back level c server with
  | Done c' server' =>
      ∃ target chosen,
        path_back !! level = Some target
        ∧ select (position_map c) (L server) level target (srvZ server) (stash c) 0
          = Ok (chosen, stash c')
        ∧ Shape (filter (λ i, i ≠ target) D)
            (<[target := chosen ++ replicate (srvZ server - length chosen)
                                     (dummy_block (srvN server))]> f)
            c' server'
  | Failed _ c' server' => Shape D f c' server'
  end.
Proof.
  intros HS. pose proof HS as [HZ Htree Hkeys Hnonces Hdummy Hholds Hstash].
  unfold evict_level.
  destruct (path_back !! level) as [target|] eqn:Ht; [|done].
  destruct (select _ _ _ _ _ _ _) as [[chosen remaining]|] eqn:Hsel; [|done].
  destruct (select_spec _ _ _ _ _ _ _ _ _ Hsel) as (Hp & Hreal & Hlen & Hloc).
  assert (Forall clean (chosen ++ remaining)) as [Hch Hrm]%Forall_app by by rewrite <- Hp.
  set (bucket := chosen ++ replicate _ _).
  assert (Forall clean bucket) as Hbucket.
  { apply Forall_app. split; [done|]. by apply Forall_replicate. }
  assert (length bucket = srvZ server) as Hblen.
  { unfold bucket. rewrite length_app, length_replicate. lia. }
  case_bool_decide as Hn; [|done]. unfold Bucket.
  destruct (encode_ok bucket Hbucket) as (bs & Hbs & _). rewrite Hbs.
  cbn [keys set_nonces].
  destruct (keys c !! target) as [k|] eqn:Hk.
  2:{ apply lookup_ge_None in Hk. lia. }
  rewrite bool_decide_eq_true_2 by lia. cbv iota.
  refine (ex_intro _ target (ex_intro _ chosen _)). split_and!; [done..|].
  constructor; simpl_state; rewrite ?length_insert; try done.
  intros i Hi HD. destruct (decide (i = target)) as [->|Hne].
  - rewrite fn_lookup_insert. split_and!; [|done..].
    exists k, (fresh level), bs. simpl_state.
    rewrite !list_lookup_insert_eq by lia. done.
  - rewrite fn_lookup_insert_ne by done.
    assert (i ∉ D) as HD'.
    { intros Hin. apply HD. apply list_elem_of_filter. done. }
    destruct (Hholds i Hi HD') as ((k' & n' & bs' & ? & ? & ? & ?) & ? & ?).
    split_and!; [|done..]. exists k', n', bs'. simpl_state.
    rewrite !list_lookup_insert_ne by done. done.
Qed.

Lemma Shape_set_stash D f c server st :
  Shape D f c server → Forall clean st → Shape D f (set_stash c st) server.
Proof. intros [] Hst. by constructor. Qed.




(** The dummy buckets of [Client.__init__]. *)
Lemma init_buckets_holds rnd_nonce n j c server c' server' :
  init_buckets rnd_nonce (seq j n) c server = Ok (c', server') →
  length (nonces c) = j →
  (∀ i, i < j →
     holds c server i (replicate (srvZ server) (dummy_block (srvN server)))) →
  ∀ i, i < j + n →
    holds c' server' i (replicate (srvZ server) (dummy_block (srvN server))).
Proof.
  revert j c server. induction n as [|n IH]; intros j c server; cbn [seq init_buckets].
  - intros [= <- <-] _ Hprev i Hi. apply Hprev. lia.
  - intros Hi Hlen Hprev. apply rbind_ok in Hi as (enc & Henc & Hi).
    apply rbind_ok in Hi as (k & Hk & Hi). case_bool_decide as Hlt; [|done].
    simpl_state. destruct (keys c !! j) as [k'|] eqn:Hkj; [|done]. injection Hk as ->.
    intros i Hij. replace (j + S n) with (S j + n) in Hij by lia.
    eapply (IH (S j) _ _ Hi); simpl_state; [by rewrite length_app; cbn; lia| |done].
    intros i' Hi'. destruct (decide (i' = j)) as [->|Hne].
    + exists k, (rnd_nonce j), enc. simpl_state. unfold Bucket in Henc.
      rewrite lookup_app_r by lia. rewrite Hlen, Nat.sub_diag.
      rewrite list_lookup_insert_eq by lia. done.
    + destruct (Hprev i' ltac:(lia)) as (k' & n' & bs' & ? & Hn' & ? & ?).
      exists k', n', bs'. simpl_state.
      rewrite lookup_app_l by (by eapply lookup_lt_Some).
      rewrite list_lookup_insert_ne by done. done.
Qed.

Lemma Shape_init N Z server0 rnd_leaf rnd_key rnd_nonce c server :
  Server_init N Z = Ok server0 → clean (dummy_block N) →
  Client_init rnd_leaf rnd_key rnd_nonce server0 = Ok (c, server) →
  Shape [] (λ _, replicate Z (dummy_block N)) c server.
Proof.
  intros (HZ & Hnb & ->)%Server_init_spec Hdummy Hc.
  pose proof (Client_init_spec _ _ _ _ _ _ Hc)
    as (Hst & Hpm & Hk & Hn & (HN & HZ' & Hnb' & HL) & Ht).
  simpl_state. rewrite length_replicate in Ht.
  constructor; rewrite ?HN, ?HZ', ?Hnb', ?Hst, ?Hk, ?Hn, ?length_fmap, ?length_seq;
    try done.
  intros i Hi _. split_and!; [|by rewrite length_replicate|by apply Forall_replicate].
  unfold Client_init in Hc.
  pose proof (init_buckets_holds _ _ 0 _ _ _ _ Hc eq_refl ltac:(intros; lia) i Hi) as Hh.
  exact Hh.
Qed.

End shape.

Lemma toy_tag_length k n p ad : length (toy_tag k n p ad) = 16.
Proof. apply length_replicate. Qed.

#[global] Instance toy_correct : CipherCorrect toy.
Proof.
  split.
  - intros k n p ad. cbn [decrypt encrypt toy].
    rewrite length_app, toy_tag_length.
    replace (length p + 16 - 16) with (length p) by lia.
    rewrite take_app_length, drop_app_length.
    rewrite bool_decide_eq_true_2; [done|]. split; [lia|done].
  - intros k n p ad. cbn [encrypt toy tag_len]. by rewrite length_app, toy_tag_length.
Qed.

Lemma start_honest N Z leaf :
  is_Ok (setup N Z leaf) = true →
  leaf < 2 ^ (Nat.log2_up (N `div` Z) - 1) → clean (dummy_block N) →
  honest (start N Z leaf).1 (start N Z leaf).2.
Proof.
  intros Hs%setup_start Hleaf Hdummy. unfold setup in Hs.
  apply rbind_ok in Hs as (s0 & Hs0 & Hc).
  pose proof (Server_init_spec _ _ _ Hs0) as (_ & _ & Heq).
  rewrite (surjective_pairing (start N Z leaf)) in Hc.
  eapply honest_init; [exact Hs0| |done|exact Hc].
  intros block. rewrite Heq. done.
Qed.





(** ** Lists of blocks *)

Lemma NoDup_fmap_elem {A B} (g : A → B) (l : list A) x y :
  NoDup (g <$> l) → x ∈ l → y ∈ l → g x = g y → x = y.
Proof.
  induction l as [|z l IH]; [by intros _ ?%elem_of_nil|].
  rewrite fmap_cons, NoDup_cons. intros [Hz Hl] Hx Hy Hg.
  apply elem_of_cons in Hx as [->|Hx], Hy as [->|Hy]; [done| | |by apply IH].
  - exfalso. apply Hz. rewrite Hg. by apply list_elem_of_fmap_2.
  - exfalso. apply Hz. rewrite <- Hg. by apply list_elem_of_fmap_2.
Qed.

Lemma filter_sublist_mono {A} (P : A → Prop) `{!∀ x, Decision (P x)} (l1 l2 : list A) :
  l1 `sublist_of` l2 → filter P l1 `sublist_of` filter P l2.
Proof.
  induction 1 as [|x l1 l2 _ IH|x l1 l2 _ IH]; [constructor| |].
  - rewrite !filter_cons. destruct (decide (P x)); [by constructor|done].
  - rewrite filter_cons. destruct (decide (P x)); [by constructor|done].
Qed.

Lemma filter_real_dummies n N : filter real (replicate n (dummy_block N)) = [].
Proof. induction n as [|n IH]; [done|]. cbn [replicate]. by rewrite filter_cons_False. Qed.

Lemma concat_fmap_bind {A B} (g : A → list B) (l : list A) : concat (g <$> l) = l ≫= g.
Proof. induction l as [|x l IH]; [done|]. by rewrite fmap_cons, bind_cons, <- IH. Qed.

(** Taking the bucket of one node out of the tree. *)
Lemma tree_blocks_split nb f t :
  t < nb → tree_blocks nb f ≡ₚ f t ++ tree_blocks nb (<[t := []]> f).
Proof.
  intros Ht. unfold tree_blocks.
  replace nb with (t + S (nb - S t)) by lia.
  rewrite seq_app. cbn [seq]. rewrite !bind_app, !bind_cons, fn_lookup_insert.
  rewrite (Forall_bind_ext (<[t:=[]]> f) f (seq 0 t)).
  2:{ apply Forall_forall. intros i Hi%elem_of_seq. rewrite fn_lookup_insert_ne; [done|lia]. }
  rewrite (Forall_bind_ext (<[t:=[]]> f) f (seq (S (0 + t)) (nb - S t))).
  2:{ apply Forall_forall. intros i Hi%elem_of_seq. rewrite fn_lookup_insert_ne; [done|lia]. }
  cbn [app]. by rewrite Permutation_app_swap_app.
Qed.

Lemma tree_blocks_ext nb f g :
  (∀ i, i < nb → f i = g i) → tree_blocks nb f = tree_blocks nb g.
Proof.
  intros Hfg. unfold tree_blocks. apply Forall_bind_ext, Forall_forall.
  intros i Hi%elem_of_seq. apply Hfg. lia.
Qed.

(** Writing a bucket to a node that counted as empty. *)
Lemma tree_blocks_insert nb f t blocks :
  t < nb → f t = [] →
  tree_blocks nb (<[t := blocks]> f) ≡ₚ blocks ++ tree_blocks nb f.
Proof.
  intros Ht Hnil. rewrite (tree_blocks_split nb (<[t:=blocks]> f) t Ht), fn_lookup_insert.
  f_equiv. apply reflexive_eq, tree_blocks_ext. intros i _.
  destruct (decide (i = t)) as [->|Hne].
  - by rewrite fn_lookup_insert.
  - by rewrite !fn_lookup_insert_ne.
Qed.

Lemma elem_of_tree_blocks nb f b :
  b ∈ tree_blocks nb f ↔ ∃ i, i < nb ∧ b ∈ f i.
Proof.
  unfold tree_blocks. rewrite list_elem_of_bind. split.
  - intros (i & Hb & Hi%elem_of_seq). exists i. split; [lia|done].
  - intros (i & Hi & Hb). exists i. split; [done|]. apply elem_of_seq. lia.
Qed.

(** Taking the buckets of the nodes [P] out of the tree. *)
Lemma tree_blocks_mask nb f P :
  NoDup P → Forall (λ i, i < nb) P →
  tree_blocks nb f ≡ₚ (P ≫= f) ++ tree_blocks nb (mask P f).
Proof.
  revert f. induction P as [|t P IH]; intros f Hnd Hlt.
  - cbn. apply reflexive_eq, tree_blocks_ext. intros i _. unfold mask.
    by rewrite bool_decide_eq_false_2 by apply not_elem_of_nil.
  - apply NoDup_cons in Hnd as [Ht Hnd]. apply Forall_cons in Hlt as [Htlt Hlt].
    rewrite (tree_blocks_split nb f t Htlt), bind_cons, <- app_assoc. f_equiv.
    rewrite (IH (<[t:=[]]> f) Hnd Hlt). f_equiv.
    + apply reflexive_eq, Forall_bind_ext, Forall_forall. intros i Hi.
      rewrite fn_lookup_insert_ne; [done|]. by intros ->.
    + apply reflexive_eq, tree_blocks_ext. intros i _. unfold mask.
      destruct (decide (i = t)) as [->|Hne].
      * rewrite (bool_decide_eq_true_2 (t ∈ t :: P)) by apply list_elem_of_here.
        case_bool_decide; [done|by rewrite fn_lookup_insert].
      * rewrite fn_lookup_insert_ne by done.
        case_bool_decide as H1; case_bool_decide as H2; try done.
        -- exfalso. apply H2. by apply list_elem_of_further.
        -- exfalso. apply H1. by apply elem_of_cons in H2 as [?|?].
Qed.

(** ** Paths inside the array *)

Lemma paths_in_range L nb x :
  2 ^ (L + 1) - 1 ≤ nb → 2 ≤ nb → x < 2 ^ L →
  Forall (λ i, i < nb) (read_nodes (zfill L (bin x)) 0)
  ∧ Forall (λ i, i < nb) (get_path_leaf_to_root x L).
Proof.
  intros Hfit Hnb Hx.
  assert (Forall (λ i, i < nb) (get_path_leaf_to_root x L)) as Hpath.
  { eapply Forall_impl; [by apply path_bound|]. intros j Hj. cbn beta in Hj. lia. }
  split; [|done]. destruct L as [|L].
  - cbn in Hx. assert (x = 0) as -> by lia. rewrite read_nodes_height0.
    repeat constructor; lia.
  - rewrite read_nodes_path by (done || lia). by apply Forall_reverse.
Qed.

Lemma path_subset_nodes L x i :
  x < 2 ^ L → i ∈ get_path_leaf_to_root x L → i ∈ read_nodes (zfill L (bin x)) 0.
Proof.
  intros Hx Hi. destruct L as [|L].
  - cbn in Hx. assert (x = 0) as -> by lia. rewrite read_nodes_height0.
    rewrite path_height0 in Hi. apply list_elem_of_singleton in Hi as ->.
    apply list_elem_of_here.
  - rewrite read_nodes_path by (done || lia). by apply elem_of_reverse.
Qed.

Lemma read_nodes_head bits i : ∃ rest, read_nodes bits i = i :: rest.
Proof. destruct bits; cbn [read_nodes]; eauto. Qed.

(** ** The scan and the update *)

Lemma find_block_spec a st idx :
  match find_block a st idx with
  | Some (p, d) =>
      ∃ b, idx ≤ p ∧ st !! (p - idx) = Some b ∧ Block.a b = a ∧ d = Block.data b
  | None => Forall (λ b, Block.a b ≠ a) st
  end.
Proof.
  revert idx. induction st as [|block st IH]; intros idx; cbn [find_block]; [constructor|].
  case_bool_decide as Ha.
  - exists block. rewrite Nat.sub_diag. by split_and!.
  - specialize (IH (S idx)). destruct (find_block a st (S idx)) as [[p d]|].
    + destruct IH as (b & Hp & Hb & Hab & Hd). exists b. split_and!; [lia| |done..].
      replace (p - idx) with (S (p - S idx)) by lia. done.
    + by constructor.
Qed.

Lemma locate_found a st b :
  b ∈ st → Block.a b = a →
  ∃ p b', locate a st = (Z.of_nat p, Some (Block.data b'))
          ∧ st !! p = Some b' ∧ Block.a b' = a.
Proof.
  intros Hb Ha. unfold locate. pose proof (find_block_spec a st 0) as Hf.
  destruct (find_block a st 0) as [[p d]|].
  - destruct Hf as (b' & _ & Hp & Hab & ->). rewrite Nat.sub_0_r in Hp. eauto.
  - rewrite Forall_forall in Hf. by destruct (Hf b Hb).
Qed.

Lemma locate_cases a st :
  (∃ p b, locate a st = (Z.of_nat p, Some (Block.data b))
          ∧ st !! p = Some b ∧ Block.a b = a)
  ∨ (locate a st = ((-1)%Z, None) ∧ Forall (λ b, Block.a b ≠ a) st).
Proof.
  unfold locate. pose proof (find_block_spec a st 0) as Hf.
  destruct (find_block a st 0) as [[p d]|].
  - left. destruct Hf as (b' & _ & Hp & Hab & ->). rewrite Nat.sub_0_r in Hp. eauto.
  - by right.
Qed.

Lemma py_index_nat {A} (l : list A) p :
  p < length l → py_index l (Z.of_nat p) = Ok p.
Proof.
  intros Hp. unfold py_index.
  destruct (Z.ltb_spec (Z.of_nat p) 0) as [?|_]; [lia|].
  destruct (Z.leb_spec 0 (Z.of_nat p)) as [_|?]; [|lia].
  destruct (Z.ltb_spec (Z.of_nat p) (Z.of_nat (length l))) as [_|?]; [|lia].
  cbn [andb]. by rewrite Nat2Z.id.
Qed.

Lemma py_index_last {A} (l : list A) :
  l ≠ [] → py_index l (-1) = Ok (length l - 1).
Proof.
  intros Hl. assert (0 < length l) by (destruct l; [done|cbn; lia]).
  unfold py_index. cbn [Z.ltb Z.compare].
  destruct (Z.leb_spec 0 (-1 + Z.of_nat (length l))) as [_|?]; [|lia].
  destruct (Z.ltb_spec (-1 + Z.of_nat (length l)) (Z.of_nat (length l))) as [_|?]; [|lia].
  cbn [andb]. f_equal. lia.
Qed.

(** The inner loop goes through when every real block of the stash is
    mapped to a leaf whose path reaches the level. *)
Lemma select_ok pm L level target Z st n :
  Forall (λ b, real b → ∃ x, pm !! Block.a b = Some x
                 ∧ is_Some (get_path_leaf_to_root x L !! level)) st →
  ∃ r, select pm L level target Z st n = Ok r.
Proof.
  intros Hst. revert n. induction Hst as [|block st Hb _ IH]; intros n; cbn [select].
  - eauto.
  - destruct (Block.dummy_flag block) eqn:Hflag.
    + destruct (IH n) as [r ->]. cbn [rbind]. eauto.
    + destruct (Hb Hflag) as (x & Hx & [node Hnode]). rewrite Hx. cbn [or_raise rbind].
      rewrite Hnode. cbn [or_raise rbind].
      destruct (_ && _).
      * destruct (IH (S n)) as [r ->]. cbn [rbind]. eauto.
      * destruct (IH n) as [r ->]. cbn [rbind]. eauto.
Qed.

(** Replacing a real block by a real block with the same address leaves
    the addresses of the real blocks as they were. *)
Lemma insert_same_address (st : list Block.t) p b new :
  st !! p = Some b → real b → real new → Block.a new = Block.a b →
  Block.a <$> filter real (<[p := new]> st) = Block.a <$> filter real st.
Proof.
  revert p. induction st as [|b0 st IH]; intros p; [done|].
  destruct p as [|p]; cbn [lookup list_lookup].
  - intros [= ->] Hb Hnew Ha. cbn [insert list_insert].
    rewrite !filter_cons_True by done. rewrite !fmap_cons. by rewrite Ha.
  - intros Hp Hb Hnew Ha. cbn [insert list_insert]. rewrite !filter_cons.
    destruct (decide (real b0)); rewrite ?fmap_cons; [f_equal|]; by apply (IH p).
Qed.

(** ** The invariant through a call *)

Section invariant.
Context `{C : Cipher} {CC : CipherCorrect C}.

(** The real blocks the read phase brings into the stash are those of the
    buckets on the write-back path. *)
Lemma read_nodes_reals f c server x :
  Inv [] f c server → x < 2 ^ L server →
  filter real (read_nodes (zfill (L server) (bin x)) 0 ≫= f)
  ≡ₚ filter real (get_path_leaf_to_root x (L server) ≫= f).
Proof.
  intros HI Hx. destruct (L server) as [|l] eqn:HL.
  - cbn in Hx. assert (x = 0) as -> by lia. rewrite read_nodes_height0, path_height0.
    rewrite !bind_cons, !filter_app. cbn [mbind list_bind]. rewrite filter_nil, !app_nil_r.
    assert (filter real (f 1) = []) as ->; [|by rewrite app_nil_r].
    apply elem_of_nil_inv. intros b [Hreal Hb]%list_elem_of_filter.
    destruct (inv_located _ _ _ _ HI 1 b) as (y & Hy & Hin); [|done..|].
    { pose proof (inv_nb _ _ _ _ HI). lia. }
    apply (inv_pm_range _ _ _ _ HI) in Hy. rewrite HL in Hy, Hin. cbn in Hy.
    assert (y = 0) as -> by lia. rewrite path_height0 in Hin.
    by apply list_elem_of_singleton in Hin.
  - rewrite read_nodes_path by (done || lia). by rewrite reverse_Permutation.
Qed.

(** The read phase: the buckets of the path move to the stash, and the
    path nodes count as empty until they are written back. *)
Lemma Inv_read f c server a x new_x :
  Inv [] f c server → position_map c !! a = Some x → new_x < 2 ^ L server →
  let nodes := read_nodes (zfill (L server) (bin x)) 0 in
  let path := get_path_leaf_to_root x (L server) in
  let st1 := stash c ++ (nodes ≫= f) in
  let nb := num_of_buckets server in
  read_path c server nodes (stash c) = (None, st1)
  ∧ Inv path (mask path f)
      (mkClient _ st1 (<[a := new_x]> (position_map c)) (keys c) (nonces c)) server
  ∧ (∀ b, b ∈ tree_blocks nb (mask path f) → real b → Block.a b ≠ a)
  ∧ filter real (st1 ++ tree_blocks nb (mask path f))
    ≡ₚ filter real (stash c ++ tree_blocks nb f)
  ∧ st1 ≠ [].
Proof.
  intros HI Ha Hnew nodes path st1 nb. subst nb.
  pose proof (inv_shape _ _ _ _ HI) as HS.
  pose proof (inv_pm_range _ _ _ _ HI a x Ha) as Hx.
  destruct (paths_in_range (L server) (num_of_buckets server) x (inv_fits _ _ _ _ HI) (inv_nb _ _ _ _ HI) Hx)
    as [Hnodes Hpath].
  fold nodes in Hnodes. fold path in Hpath.
  assert (∀ i, i < (num_of_buckets server) → Forall clean (f i) ∧ length (f i) = srvZ server) as Hf.
  { intros i Hi. destruct (shape_holds _ _ _ _ HS i Hi) as (_ & ? & ?); [|done].
    apply not_elem_of_nil. }
  assert (filter real (st1 ++ tree_blocks (num_of_buckets server) (mask path f))
          ≡ₚ filter real (stash c ++ tree_blocks (num_of_buckets server) f)) as Hperm.
  { unfold st1. rewrite <- app_assoc, !filter_app.
    rewrite (tree_blocks_mask (num_of_buckets server) f path) by (done || apply path_NoDup).
    rewrite !filter_app. f_equiv. f_equiv. by apply (read_nodes_reals f c server x). }
  split_and!.
  - apply read_path_ok. exists (f <$> nodes). rewrite concat_fmap_bind. split; [|done].
    clear -Hnodes HS CC. induction Hnodes as [|i nodes Hi _ IH]; [constructor|].
    rewrite fmap_cons. constructor; [|done].
    apply (Shape_read_bucket [] f); [done..|apply not_elem_of_nil].
  - constructor; simpl_state.
    + destruct HS. constructor; simpl_state; try done.
      * intros i Hi Hin. unfold mask. rewrite bool_decide_eq_false_2 by done.
        apply shape_holds0; [done|apply not_elem_of_nil].
      * apply Forall_app. split; [done|]. apply Forall_bind.
        eapply Forall_impl; [exact Hnodes|]. intros i Hi. by apply Hf.
    + apply (inv_nb _ _ _ _ HI).
    + apply (inv_fits _ _ _ _ HI).
    + intros i Hi. unfold mask. by rewrite bool_decide_eq_true_2.
    + intros k. rewrite <- (inv_pm_dom _ _ _ _ HI k).
      destruct (decide (a = k)) as [->|Hne].
      * rewrite lookup_insert_eq, Ha. split; eauto.
      * by rewrite lookup_insert_ne.
    + intros k y. destruct (decide (a = k)) as [->|Hne].
      * rewrite lookup_insert_eq. by intros [= <-].
      * rewrite lookup_insert_ne by done. apply (inv_pm_range _ _ _ _ HI).
    + apply Forall_app. split; [apply (inv_addr_stash _ _ _ _ HI)|]. apply Forall_bind.
      eapply Forall_impl; [exact Hnodes|]. intros i Hi.
      by apply (inv_addr_tree _ _ _ _ HI).
    + intros i Hi. unfold mask. case_bool_decide; [constructor|].
      by apply (inv_addr_tree _ _ _ _ HI).
    + intros i b Hi Hb Hreal. unfold mask in Hb. case_bool_decide as Hin.
      { by apply elem_of_nil in Hb. }
      destruct (inv_located _ _ _ _ HI i b Hi Hb Hreal) as (y & Hy & Hiy).
      exists y. split; [|done]. rewrite lookup_insert_ne; [done|].
      intros Heq. rewrite <- Heq, Ha in Hy. injection Hy as <-. by apply Hin.
    + rewrite Hperm. apply (inv_unique _ _ _ _ HI).
  - intros b (i & Hi & Hb)%elem_of_tree_blocks Hreal Heq. unfold mask in Hb.
    case_bool_decide as Hin; [by apply elem_of_nil in Hb|].
    destruct (inv_located _ _ _ _ HI i b Hi Hb Hreal) as (y & Hy & Hiy).
    rewrite Heq, Ha in Hy. injection Hy as <-. by apply Hin.
  - done.
  - unfold st1, nodes. destruct (read_nodes_head (zfill (L server) (bin x)) 0) as [rest ->].
    rewrite bind_cons. destruct (Hf 0) as [_ Hlen].
    { pose proof (inv_nb _ _ _ _ HI). lia. }
    pose proof (shape_Z _ _ _ _ HS). destruct (f 0); [cbn in Hlen; lia|].
    by destruct (stash c).
Qed.

Lemma Inv_set_stash D f c server st :
  Inv D f c server → Forall clean st → Forall (addr_ok (srvN server)) st →
  NoDup (Block.a <$> filter real (st ++ tree_blocks (num_of_buckets server) f)) →
  Inv D f (set_stash c st) server.
Proof.
  intros [] Hclean Haddr Hnd. constructor; simpl_state; try done.
  by apply Shape_set_stash.
Qed.

(** The update step. *)
Lemma Inv_update D f c server op a data_ new_x :
  Inv D f c server →
  position_map c !! a = Some new_x →
  (∀ b, b ∈ tree_blocks (num_of_buckets server) f → real b → Block.a b ≠ a) →
  (op = "write"%string → clean (Block.mk a (Z.of_nat new_x) data_ false)) →
  stash c ≠ [] →
  ∃ st2, update op a data_ new_x (locate a (stash c)).1 (stash c) = Ok st2
    ∧ Inv D f (set_stash c st2) server
    ∧ (op = "write"%string → Block.mk a (Z.of_nat new_x) data_ false ∈ st2)
    ∧ (op ≠ "write"%string → op ≠ "delete"%string → st2 = stash c).
Proof.
  intros HI Ha Htree Hnew Hne.
  pose proof (inv_shape _ _ _ _ HI) as HS.
  pose proof (shape_stash _ _ _ _ HS) as Hclean.
  pose proof (inv_addr_stash _ _ _ _ HI) as Haddr.
  pose proof (inv_unique _ _ _ _ HI) as Hnd.
  assert (0 ≤ a < Z.of_nat (srvN server))%Z as Hdom.
  { apply (inv_pm_dom _ _ _ _ HI). eauto. }
  set (new := Block.mk a (Z.of_nat new_x) data_ false) in *.
  assert (addr_ok (srvN server) new) as Hnew_addr by done.
  assert (∀ q, Inv D f (set_stash c (delete q (stash c))) server) as Hdel.
  { intros q. apply Inv_set_stash; [done|by apply Forall_delete..|].
    eapply sublist_NoDup; [exact Hnd|].
    apply fmap_sublist, filter_sublist_mono, sublist_app; [apply sublist_delete|done]. }
  unfold update. case_bool_decide as Hw.
  - specialize (Hnew Hw). destruct (locate_cases a (stash c))
      as [(p & b & -> & Hp & Hb)|[-> Hall]]; cbn [fst].
    + destruct (Z.leb_spec 0 (Z.of_nat p)) as [_|?]; [|lia].
      rewrite py_index_nat by (by eapply lookup_lt_Some). cbn [rbind].
      eexists. split; [done|]. split_and!.
      * apply Inv_set_stash; [done|by apply Forall_insert..|].
        rewrite filter_app, fmap_app. fold new.
        rewrite (insert_same_address (stash c) p b new); [|done| |done|done].
        { by rewrite <- fmap_app, <- filter_app. }
        assert (addr_ok (srvN server) b) as Hbok.
        { eapply Forall_forall; [exact Haddr|]. by eapply list_elem_of_lookup_2. }
        unfold addr_ok in Hbok. unfold real. destruct (Block.dummy_flag b); [lia|done].
      * intros _. apply list_elem_of_insert. by eapply lookup_lt_Some.
      * done.
    + cbn [Z.leb Z.compare]. eexists. split; [done|]. split_and!.
      * apply Inv_set_stash; [done|apply Forall_app; split; [done|by constructor]..|].
        rewrite <- app_assoc. cbn [app]. rewrite <- Permutation_middle.
        rewrite filter_cons_True by done. rewrite fmap_cons. apply NoDup_cons.
        split; [|done]. intros (b & Hb & [Hreal Hin]%list_elem_of_filter)%list_elem_of_fmap.
        cbn in Hb. apply elem_of_app in Hin as [Hin|Hin].
        -- rewrite Forall_forall in Hall. by apply (Hall b Hin).
        -- by apply (Htree b Hin Hreal).
      * intros _. apply elem_of_app. right. apply list_elem_of_here.
      * done.
  - case_bool_decide as Hd.
    + destruct (locate_cases a (stash c)) as [(p & b & -> & Hp & Hb)|[-> Hall]]; cbn [fst].
      * rewrite py_index_nat by (by eapply lookup_lt_Some). cbn [rbind].
        eexists. split; [done|]. by split_and!.
      * rewrite py_index_last by done. cbn [rbind].
        eexists. split; [done|]. by split_and!.
    + eexists. split; [done|]. split_and!; [|done..].
      by apply Inv_set_stash.
Qed.

(** One turn of the write-back: it goes through, the node written stops
    counting as empty, and the real blocks are those there were. *)
Lemma Inv_evict_level D f fresh path_back level c server target :
  Inv D f c server → path_back !! level = Some target →
  target ∈ D → target < num_of_buckets server → level < S (L server) →
  ∃ c' server' f',
    evict_level fresh path_back level c server = Done c' server'
    ∧ Inv (filter (λ i, i ≠ target) D) f' c' server'
    ∧ filter real (stash c' ++ tree_blocks (num_of_buckets server) f')
      ≡ₚ filter real (stash c ++ tree_blocks (num_of_buckets server) f)
    ∧ position_map c' = position_map c ∧ same_config server server'.
Proof.
  intros HI Ht HD Hlt Hlevel.
  pose proof (inv_shape _ _ _ _ HI) as HS.
  pose proof (inv_addr_stash _ _ _ _ HI) as Haddr.
  destruct (select_ok (position_map c) (L server) level target (srvZ server) (stash c) 0)
    as [[chosen remaining] Hsel].
  { eapply Forall_impl; [exact Haddr|]. intros b Hb Hreal.
    unfold addr_ok in Hb. rewrite Hreal in Hb.
    apply (inv_pm_dom _ _ _ _ HI) in Hb as [x Hx]. exists x. split; [done|].
    apply lookup_lt_is_Some. rewrite path_length; [done|].
    by apply (inv_pm_range _ _ _ _ HI) in Hx. }
  destruct (select_spec _ _ _ _ _ _ _ _ _ Hsel) as (Hp & Hreal & Hlen & Hloc).
  pose proof (Shape_evict_level D f fresh path_back level c server HS) as Hshape.
  assert (∃ c' server', evict_level fresh path_back level c server = Done c' server')
    as (c' & server' & Hev).
  { unfold evict_level. rewrite Ht, Hsel.
    rewrite bool_decide_eq_true_2 by (by rewrite (shape_nonces _ _ _ _ HS)).
    unfold Bucket.
    destruct (encode_ok (chosen ++ replicate (srvZ server - length chosen)
                                     (dummy_block (srvN server)))) as (bs & -> & _).
    { assert (Forall clean (chosen ++ remaining)) as [Hch _]%Forall_app.
      { rewrite <- Hp. apply (shape_stash _ _ _ _ HS). }
      apply Forall_app. split; [done|]. apply Forall_replicate, (shape_dummy _ _ _ _ HS). }
    cbn [keys set_nonces].
    destruct (keys c !! target) as [k|] eqn:Hk.
    2:{ apply lookup_ge_None in Hk. rewrite (shape_keys _ _ _ _ HS) in Hk. lia. }
    rewrite bool_decide_eq_true_2 by (by rewrite (shape_tree _ _ _ _ HS)). eauto. }
  rewrite Hev in Hshape. destruct Hshape as (target' & chosen' & Ht' & Hsel' & HS').
  rewrite Ht in Ht'. injection Ht' as <-. rewrite Hsel in Hsel'. injection Hsel' as <- Hrem.
  apply evict_level_done in Hev as Hd.
  destruct Hd as (t2 & ch2 & rm2 & bs & k & _ & _ & _ & _ & _ & _ & Hc' & Hs').
  assert (position_map c' = position_map c) as Hpm by (by rewrite Hc').
  assert (same_config server server') as Hcfg by (by rewrite Hs').
  destruct Hcfg as (HN & HZ & Hnb & HL).
  set (bucket := chosen ++ replicate (srvZ server - length chosen) (dummy_block (srvN server))) in *.
  assert (Forall (addr_ok (srvN server)) (chosen ++ stash c')) as [Hach Harm]%Forall_app.
  { rewrite <- Hrem, <- Hp. exact Haddr. }
  assert (filter real (stash c' ++ tree_blocks (num_of_buckets server) (<[target:=bucket]> f))
          ≡ₚ filter real (stash c ++ tree_blocks (num_of_buckets server) f)) as Hperm.
  { rewrite (tree_blocks_insert _ f target bucket Hlt) by (by apply (inv_dead _ _ _ _ HI)).
    unfold bucket. rewrite !filter_app, filter_real_dummies, app_nil_r.
    rewrite Hp, filter_app, <- Hrem. rewrite !app_assoc. f_equiv. apply Permutation_app_comm. }
  exists c', server', (<[target:=bucket]> f). split; [done|]. split_and!; [|done..|done].
  constructor; rewrite ?HN, ?HZ, ?Hnb, ?HL, ?Hpm.
  - done.
  - apply (inv_nb _ _ _ _ HI).
  - unfold fits. rewrite HL, Hnb. apply (inv_fits _ _ _ _ HI).
  - intros i [Hne Hi]%list_elem_of_filter. rewrite fn_lookup_insert_ne by done.
    by apply (inv_dead _ _ _ _ HI).
  - apply (inv_pm_dom _ _ _ _ HI).
  - apply (inv_pm_range _ _ _ _ HI).
  - done.
  - intros i Hi. destruct (decide (i = target)) as [->|Hne].
    + rewrite fn_lookup_insert. apply Forall_app. split; [done|].
      apply Forall_replicate. done.
    + rewrite fn_lookup_insert_ne by done. by apply (inv_addr_tree _ _ _ _ HI).
  - intros i b Hi Hb Hrb. destruct (decide (i = target)) as [->|Hne].
    + rewrite fn_lookup_insert in Hb. apply elem_of_app in Hb as [Hb|Hb].
      * rewrite Forall_forall in Hloc. destruct (Hloc b Hb) as (x & Hx & Hnode).
        exists x. split; [done|]. by eapply list_elem_of_lookup_2.
      * apply elem_of_replicate in Hb as [-> _]. done.
    + rewrite fn_lookup_insert_ne in Hb by done. by apply (inv_located _ _ _ _ HI).
  - rewrite Hperm. apply (inv_unique _ _ _ _ HI).
Qed.

Lemma filter_ne_head (t : nat) (l : list nat) :
  NoDup (t :: l) → filter (λ i, i ≠ t) (t :: l) = l.
Proof.
  intros [Ht _]%NoDup_cons. rewrite filter_cons_False by (by intros ?).
  induction l as [|j l IH]; [done|]. apply not_elem_of_cons in Ht as [Hne Ht].
  rewrite filter_cons_True by done. by rewrite IH.
Qed.

(** The write-back loop, from level [k] on: the nodes of the path not yet
    written are those that count as empty. *)
Lemma Inv_evict fresh path_back n : ∀ k f c server,
  Inv (drop k path_back) f c server →
  NoDup path_back → Forall (λ i, i < num_of_buckets server) path_back →
  length path_back = S (L server) → k + n = length path_back →
  ∃ c' server' f',
    evict fresh path_back (seq k n) c server = Done c' server'
    ∧ Inv [] f' c' server'
    ∧ filter real (stash c' ++ tree_blocks (num_of_buckets server) f')
      ≡ₚ filter real (stash c ++ tree_blocks (num_of_buckets server) f)
    ∧ position_map c' = position_map c ∧ same_config server server'.
Proof.
  induction n as [|n IH]; intros k f c server HI Hnd Hlt Hlen Hk.
  - rewrite drop_ge in HI by lia. exists c, server, f. by split_and!.
  - destruct (lookup_lt_is_Some_2 path_back k) as [target Ht]; [lia|].
    rewrite (drop_S _ _ _ Ht) in HI.
    destruct (Inv_evict_level _ f fresh path_back k c server target HI Ht)
      as (c1 & s1 & f1 & Hev & HI1 & Hperm1 & Hpm1 & Hcfg1).
    { apply list_elem_of_here. }
    { rewrite Forall_forall in Hlt. apply Hlt. by eapply list_elem_of_lookup_2. }
    { lia. }
    rewrite filter_ne_head in HI1.
    2:{ rewrite <- (drop_S _ _ _ Ht). eapply sublist_NoDup; [exact Hnd|apply sublist_drop]. }
    destruct Hcfg1 as (HN & HZ & Hnb & HL).
    destruct (IH (S k) f1 c1 s1 HI1) as (c2 & s2 & f2 & Hev2 & HI2 & Hperm2 & Hpm2 & Hcfg2);
      [done|by rewrite Hnb|by rewrite HL|lia|].
    exists c2, s2, f2. cbn [seq evict]. rewrite Hev. split; [done|].
    rewrite Hnb in Hperm2. destruct Hcfg2 as (?&?&?&?).
    split_and!; [done|by rewrite Hperm2|congruence|].
    unfold same_config. split_and!; congruence.
Qed.

Lemma filter_real_idemp (l : list Block.t) : filter real (filter real l) = filter real l.
Proof.
  induction l as [|b l IH]; [done|]. rewrite filter_cons.
  destruct (decide (real b)); [|done]. rewrite filter_cons_True by done. by rewrite IH.
Qed.

(** A call on a mapped address, with a leaf for the new position and, for a
    write, a clean block: it returns what the scan of the stash found, and
    keeps the invariant. *)
Lemma Inv_Access f op a data_ new_x fresh c server x :
  Inv [] f c server → position_map c !! a = Some x → new_x < 2 ^ L server →
  (op = "write"%string → clean (Block.mk a (Z.of_nat new_x) data_ false)) →
  ∃ c' server' f',
    Access op a data_ new_x fresh c server
    = Returned (locate a (stash c ++ (read_nodes (zfill (L server) (bin x)) 0 ≫= f))).2
        c' server'
    ∧ Inv [] f' c' server'
    ∧ position_map c' = <[a := new_x]> (position_map c)
    ∧ same_config server server'
    ∧ (op = "write"%string →
       Block.mk a (Z.of_nat new_x) data_ false
       ∈ stash c' ++ tree_blocks (num_of_buckets server) f').
Proof.
  intros HI Ha Hnew Hclean.
  destruct (Inv_read f c server a x new_x HI Ha Hnew) as (Hread & HI1 & Hno & Hperm1 & Hne).
  set (nodes := read_nodes (zfill (L server) (bin x)) 0) in *.
  set (path := get_path_leaf_to_root x (L server)) in *.
  set (st1 := stash c ++ (nodes ≫= f)) in *.
  set (c1 := mkClient _ st1 (<[a:=new_x]> (position_map c)) (keys c) (nonces c)) in *.
  destruct (Inv_update path (mask path f) c1 server op a data_ new_x HI1)
    as (st2 & Hup & HI2 & Hin & _); [by apply lookup_insert_eq|done..|].
  pose proof (inv_pm_range _ _ _ _ HI a x Ha) as Hx.
  destruct (paths_in_range (L server) (num_of_buckets server) x
              (inv_fits _ _ _ _ HI) (inv_nb _ _ _ _ HI) Hx) as [_ Hpath].
  destruct (Inv_evict fresh path (length path) 0 (mask path f) (set_stash c1 st2) server)
    as (c2 & s2 & f2 & Hev & HI3 & Hperm3 & Hpm3 & Hcfg3);
    [done|apply path_NoDup|done|by apply path_length|done|].
  exists (set_stash c2 (filter real (stash c2))), s2, f2.
  destruct Hcfg3 as (HN & HZ & Hnb & HL).
  split_and!.
  - unfold Access. rewrite Ha, read_path_set_position_map. fold nodes.
    change (stash (set_position_map c (<[a:=new_x]> (position_map c)))) with (stash c).
    rewrite Hread. change (stash c1) with st1 in Hup.
    destruct (locate a st1) as [block_idx data0] eqn:Hloc. cbn [fst snd] in *.
    rewrite Hup. fold path.
    change (set_stash (set_position_map c (<[a:=new_x]> (position_map c))) st2)
      with (set_stash c1 st2).
    by rewrite Hev.
  - apply Inv_set_stash; [done| | |].
    + apply Forall_forall. intros b [_ Hb]%list_elem_of_filter.
      by apply (proj1 (Forall_forall _ _) (shape_stash _ _ _ _ (inv_shape _ _ _ _ HI3))).
    + apply Forall_forall. intros b [_ Hb]%list_elem_of_filter.
      by apply (proj1 (Forall_forall _ _) (inv_addr_stash _ _ _ _ HI3)).
    + rewrite filter_app, filter_real_idemp, <- filter_app. apply (inv_unique _ _ _ _ HI3).
  - simpl_state. by rewrite Hpm3.
  - done.
  - intros Hw. specialize (Hin Hw). simpl_state.
    assert (Block.mk a (Z.of_nat new_x) data_ false
            ∈ filter real (stash c2 ++ tree_blocks (num_of_buckets server) f2)) as Hb.
    { rewrite Hperm3. apply list_elem_of_filter. split; [done|].
      apply elem_of_app. by left. }
    rewrite filter_app in Hb. apply elem_of_app in Hb as [Hb|Hb]; apply elem_of_app.
    + by left.
    + right. by apply list_elem_of_filter in Hb as [_ Hb].
Qed.

(** The scan of the stash, after the read phase, finds the one real block
    that carries the address. *)
Lemma Inv_locate f c server a x b :
  Inv [] f c server → position_map c !! a = Some x →
  b ∈ stash c ++ tree_blocks (num_of_buckets server) f → real b → Block.a b = a →
  (locate a (stash c ++ (read_nodes (zfill (L server) (bin x)) 0 ≫= f))).2
  = Some (Block.data b).
Proof.
  intros HI Ha Hb Hreal Hab.
  pose proof (inv_pm_range _ _ _ _ HI a x Ha) as Hx.
  destruct (paths_in_range (L server) (num_of_buckets server) x
              (inv_fits _ _ _ _ HI) (inv_nb _ _ _ _ HI) Hx) as [Hnodes _].
  set (nodes := read_nodes (zfill (L server) (bin x)) 0) in *.
  assert (b ∈ stash c ++ (nodes ≫= f)) as Hin.
  { apply elem_of_app in Hb as [Hb|Hb]; apply elem_of_app; [by left|right].
    apply elem_of_tree_blocks in Hb as (i & Hi & Hb).
    destruct (inv_located _ _ _ _ HI i b Hi Hb Hreal) as (y & Hy & Hiy).
    rewrite Hab, Ha in Hy. injection Hy as <-.
    apply list_elem_of_bind. exists i. split; [done|]. by apply path_subset_nodes. }
  destruct (locate_found a _ b Hin Hab) as (p & b' & -> & Hp & Hab'). cbn [snd].
  apply list_elem_of_lookup_2 in Hp. do 2 f_equal.
  assert (b' ∈ stash c ++ tree_blocks (num_of_buckets server) f
          ∧ addr_ok (srvN server) b') as [Hb' Hok].
  { apply elem_of_app in Hp as [Hp|Hp].
    - split; [apply elem_of_app; by left|].
      by apply (proj1 (Forall_forall _ _) (inv_addr_stash _ _ _ _ HI)).
    - apply list_elem_of_bind in Hp as (i & Hp & Hi).
      assert (i < num_of_buckets server) as Hlt.
      { by apply (proj1 (Forall_forall _ _) Hnodes). }
      split.
      + apply elem_of_app. right. apply elem_of_tree_blocks. eauto.
      + by apply (proj1 (Forall_forall _ _) (inv_addr_tree _ _ _ _ HI i Hlt)). }
  assert (real b') as Hreal'.
  { assert (0 ≤ a < Z.of_nat (srvN server))%Z as Hdom.
    { apply (inv_pm_dom _ _ _ _ HI). eauto. }
    unfold addr_ok in Hok. unfold real. destruct (Block.dummy_flag b'); [lia|done]. }
  apply (NoDup_fmap_elem Block.a
           (filter real (stash c ++ tree_blocks (num_of_buckets server) f)));
    [apply (inv_unique _ _ _ _ HI)|by apply list_elem_of_filter..|congruence].
Qed.

(** Construction establishes the invariant. *)
Lemma Inv_init N Z server0 rnd_leaf rnd_key rnd_nonce c server :
  Server_init N Z = Ok server0 → (∀ block, rnd_leaf block < 2 ^ L server0) →
  clean (dummy_block N) →
  Client_init rnd_leaf rnd_key rnd_nonce server0 = Ok (c, server) →
  fits server →
  Inv [] (λ _, replicate Z (dummy_block N)) c server.
Proof.
  intros Hs Hleaf Hdummy Hc Hfits.
  pose proof (Shape_init _ _ _ _ _ _ _ _ Hs Hdummy Hc) as HS.
  pose proof (Client_init_position_map _ _ _ _ _ _ Hc) as Hpm.
  pose proof (Client_init_spec _ _ _ _ _ _ Hc)
    as (Hst & _ & _ & _ & (HN & HZ & Hnb & HL) & _).
  apply Server_init_spec in Hs as (HZ1 & Hnb2 & ->). simpl_state.
  assert (∀ n, filter real (replicate n (dummy_block N)) = []) as Hdum.
  { intros n. apply filter_real_dummies. }
  constructor; rewrite ?HN, ?Hnb, ?HL, ?Hst.
  - done.
  - done.
  - done.
  - by intros i ?%elem_of_nil.
  - intros a. rewrite Hpm. case_bool_decide; split; by (done || intros [? [=]] || eauto).
  - intros a x. rewrite Hpm. case_bool_decide; [|done]. intros [= <-]. apply Hleaf.
  - constructor.
  - intros i _. by apply Forall_replicate.
  - intros i b _ [-> _]%elem_of_replicate Hreal. done.
  - cbn [app]. assert (filter real (tree_blocks (N `div` Z) (λ _, replicate Z (dummy_block N))) = []) as ->; [|constructor].
    apply elem_of_nil_inv. intros b [Hreal (i & _ & [-> _]%elem_of_replicate)%elem_of_tree_blocks]%list_elem_of_filter.
    done.
Qed.

(** Every state of an honest run on a geometry that fits satisfies the
    invariant. *)
Lemma honest_Inv c server : honest c server → fits server → ∃ f, Inv [] f c server.
Proof.
  induction 1 as [N Z s0 rl rk rn c server Hs Hrl Hdummy Hc
                 |op a d nx fresh c server _ IH Hnx Hnew]; intros Hfits.
  - eexists. by eapply Inv_init.
  - pose proof (Access_outcome op a d nx fresh c server) as Hout. cbv zeta in Hout.
    destruct Hout as ((HN & HZ & Hnb & HL) & _ & Hpm).
    destruct IH as [f HI]. { unfold fits in *. by rewrite <- HL, <- Hnb. }
    destruct (position_map c !! a) as [x|] eqn:Ha.
    + destruct (Inv_Access f op a d nx fresh c server x HI Ha Hnx Hnew)
        as (c' & s' & f' & -> & HI' & _). by exists f'.
    + rewrite Hpm. by exists f.
Qed.
End invariant.

(** C2, as the code has it.  In a state of a run built with a clean dummy
    block (the address [N + 1] fits 4 bytes and its 13 serialized bytes hold
    no [||]), in which the leaves drawn are leaves and every write carries a
    clean block (a 4-byte payload, and 13 serialized bytes without [||]),
    and on a geometry whose complete tree of height [L] fits the bucket
    array ([2^(L+1) - 1 ≤ num_buckets]): for every address [a] in [0, N) and
    every payload [d] whose block is clean, [Access("write", a, d)] returns,
    and the [Access("read", a)] that follows returns [d], whatever leaves and
    nonces the two calls draw. *)
Theorem read_your_writes `{C : Cipher} (CC : CipherCorrect C) c server a d d'
    new_x new_x' fresh fresh' :
  honest c server → fits server →
  (0 ≤ a < Z.of_nat (srvN server))%Z →
  new_x < 2 ^ L server → new_x' < 2 ^ L server →
  clean (Block.mk a (Z.of_nat new_x) d false) →
  ∃ r c1 s1 c2 s2,
    Access "write" a d new_x fresh c server = Returned r c1 s1
    ∧ Access "read" a d' new_x' fresh' c1 s1 = Returned (Some d) c2 s2.
Proof.
  intros Hh Hfits Ha Hnx Hnx' Hclean.
  destruct (honest_Inv c server Hh Hfits) as [f HI].
  destruct (proj2 (inv_pm_dom _ _ _ _ HI a) Ha) as [x Hx].
  destruct (Inv_Access f "write" a d new_x fresh c server x HI Hx Hnx)
    as (c1 & s1 & f1 & Hw & HI1 & Hpm1 & (HN & HZ & Hnb & HL) & Hin); [done|].
  specialize (Hin eq_refl).
  assert (position_map c1 !! a = Some new_x) as Hx1.
  { rewrite Hpm1. apply lookup_insert_eq. }
  destruct (Inv_Access f1 "read" a d' new_x' fresh' c1 s1 new_x HI1 Hx1)
    as (c2 & s2 & f2 & Hr & _); [by rewrite HL|done|].
  rewrite <- Hnb in Hin.
  rewrite (Inv_locate f1 c1 s1 a new_x _ HI1 Hx1 Hin) in Hr by done.
  eauto 10.
Qed.

Lemma read_your_writes_witness :
  ∃ r c1 s1 c2 s2,
    Access "write" 3 (bytes_of_string "ABCD") 1 (λ level, [Z.of_nat level])
      (start 16 4 0).1 (start 16 4 0).2 = Returned r c1 s1
    ∧ Access "read" 3 [] 0 (λ level, [Z.of_nat level]) c1 s1
      = Returned (Some (bytes_of_string "ABCD")) c2 s2.
Proof.
  apply (read_your_writes toy_correct).
  - apply start_honest; [by vm_compute|vm_compute; lia|by vm_compute].
  - vm_compute. lia.
  - vm_compute. by split.
  - vm_compute. lia.
  - vm_compute. lia.
  - by vm_compute.
Defined.

(** C2 as stated fails: with [N = 24], [Z = 4] the array has 6 buckets and
    the tree height is 2; the write of ["ABCD"] to block 0 that draws leaf 3
    returns, and the read that follows raises [IndexError], node 6 of the
    path being outside the array. *)
Lemma read_after_write_raises :
  let p := start 24 4 0 in
  let q := outcome_state (call "write" 0 "ABCD" 3 p) in
  is_Ok (setup 24 4 0) = true
  ∧ answer (call "write" 0 "ABCD" 3 p) = inl None
  ∧ answer (call "read" 0 "" 0 q) = inr IndexError.
Proof. vm_compute. by split_and!. Qed.

(** * Further properties of the code *)

(** ** The block codec *)

Lemma to_from_bytes4 b0 b1 b2 b3 :
  (0 ≤ b0 < 256)%Z → (0 ≤ b1 < 256)%Z → (0 ≤ b2 < 256)%Z → (0 ≤ b3 < 256)%Z →
  to_bytes4 (from_bytes [b0; b1; b2; b3]) = Ok [b0; b1; b2; b3].
Proof.
  intros H0 H1 H2 H3. unfold to_bytes4, from_bytes. cbn [foldl].
  set (n := ((((0 * 256 + b0) * 256 + b1) * 256 + b2) * 256 + b3)%Z).
  assert (n = (b0 * 2 ^ 24 + b1 * 2 ^ 16 + b2 * 2 ^ 8 + b3)%Z) as Hn by (subst n; lia).
  rewrite bool_decide_eq_true_2 by lia. do 2 f_equal; [|f_equal; [|f_equal; [|f_equal]]].
  - rewrite Hn. symmetry. apply (Z.mod_unique_pos _ _ 0); [lia|].
    symmetry. apply (Z.div_unique_pos _ _ _ (b1 * 2 ^ 16 + b2 * 2 ^ 8 + b3)); lia.
  - rewrite Hn. symmetry. apply (Z.mod_unique_pos _ _ b0); [lia|].
    symmetry. apply (Z.div_unique_pos _ _ _ (b2 * 2 ^ 8 + b3)); lia.
  - rewrite Hn. symmetry. apply (Z.mod_unique_pos _ _ (b0 * 2 ^ 8 + b1)); [lia|].
    symmetry. apply (Z.div_unique_pos _ _ _ b3); lia.
  - rewrite Hn. symmetry. apply (Z.mod_unique_pos _ _ (b0 * 2 ^ 16 + b1 * 2 ^ 8 + b2)); lia.
Qed.

(** X1.  [Block.serialize] followed by [deserialize_block] gives the block back
    when the payload is a string of 4 bytes, whatever bytes the fields
    hold. *)
Theorem serialize_deserialize b bs :
  Block.serialize b = Ok bs → length (Block.data b) = 4 →
  utf8_valid (Block.data b) = true →
  deserialize_block bs = Ok b.
Proof.
  intros Hs Hlen Hutf.
  apply serialize_inv in Hs as (ab & xb & Ha & Hx & ->).
  apply from_to_bytes4 in Ha as [Ha Hla], Hx as [Hx Hlx].
  destruct b as [a x d fl]; simpl in *.
  destruct ab as [|a1 [|a2 [|a3 [|a4 [|]]]]]; try discriminate.
  destruct xb as [|x1 [|x2 [|x3 [|x4 [|]]]]]; try discriminate.
  destruct d as [|d1 [|d2 [|d3 [|d4 [|]]]]]; try discriminate.
  unfold deserialize_block, slice, decode_utf8.
  destruct fl; cbn -[utf8_valid from_bytes]; rewrite Hutf; cbn -[from_bytes];
    by rewrite Ha, Hx.
Qed.

Lemma serialize_deserialize_witness :
  deserialize_block (bytes_of_string "||||||||A||B0")
  = Ok (Block.mk 2088533116 2088533116 (bytes_of_string "A||B") false).
Proof.
  apply (serialize_deserialize
           (Block.mk 2088533116 2088533116 (bytes_of_string "A||B") false)).
  - reflexivity.
  - reflexivity.
  - reflexivity.
Defined.

(** X2.  [Block.serialize] raises [OverflowError] exactly when the address or
    the leaf is outside [0, 2^32); otherwise it returns 9 bytes more than
    the payload has. *)
Theorem serialize_overflow b :
  (Block.serialize b = Raise OverflowError
   ↔ ¬ ((0 ≤ Block.a b < 2 ^ 32)%Z ∧ (0 ≤ Block.x b < 2 ^ 32)%Z))
  ∧ ∀ bs, Block.serialize b = Ok bs → length bs = 9 + length (Block.data b).
Proof.
  unfold Block.serialize, to_bytes4. split.
  - do 2 case_bool_decide; cbn [rbind]; split; try done; tauto.
  - intros bs. do 2 (case_bool_decide; cbn [rbind]; [|done]).
    intros [= <-]. destruct (Block.dummy_flag b); cbn [app length]; rewrite ?length_app; cbn; lia.
Qed.

(** X3.  [deserialize_block] followed by [Block.serialize] gives the 13 bytes
    back when they are bytes, the payload is valid UTF-8 and the flag is
    ['0'] or ['1']. *)
Theorem deserialize_serialize bs :
  length bs = 13 → Forall (λ b, 0 ≤ b < 256)%Z bs →
  utf8_valid (slice 8 12 bs) = true →
  (slice 12 13 bs = bytes_of_string "0" ∨ slice 12 13 bs = bytes_of_string "1") →
  ∃ b, deserialize_block bs = Ok b ∧ Block.serialize b = Ok bs.
Proof.
  intros Hlen Hall Hutf Hflag.
  do 13 (destruct bs as [|? bs]; [discriminate|]). destruct bs; [|discriminate].
  repeat (apply Forall_cons in Hall as [? Hall]).
  unfold deserialize_block, decode_utf8. rewrite Hutf. cbn [rbind]. eexists. split; [done|].
  unfold Block.serialize. cbn [Block.a Block.x Block.data Block.dummy_flag].
  change (slice 0 4 _) with [z; z0; z1; z2]. change (slice 4 8 _) with [z3; z4; z5; z6].
  rewrite !to_from_bytes4 by done. cbn [rbind].
  change (slice 8 12 _) with [z7; z8; z9; z10]. change (slice 12 13 _) with [z11] in *.
  destruct Hflag as [[= ->]|[= ->]]; done.
Qed.

Lemma deserialize_serialize_witness :
  ∃ b, deserialize_block (bytes_of_string "abcdefghABCD1") = Ok b
       ∧ Block.serialize b = Ok (bytes_of_string "abcdefghABCD1").
Proof.
  apply deserialize_serialize.
  - reflexivity.
  - vm_compute. repeat constructor; discriminate.
  - reflexivity.
  - right. reflexivity.
Defined.

(** X4.  Slices clamp: on a piece of fewer than 13 bytes [deserialize_block]
    raises nothing but [UnicodeDecodeError], and the block it returns is
    never a dummy. *)
Theorem deserialize_block_short bs :
  length bs < 13 →
  deserialize_block bs = Raise UnicodeDecodeError
  ∨ ∃ b, deserialize_block bs = Ok b ∧ Block.dummy_flag b = false.
Proof.
  intros Hlen. unfold deserialize_block, decode_utf8.
  destruct (utf8_valid (slice 8 12 bs)); [right|by left]. cbn [rbind].
  eexists. split; [done|]. cbn [Block.dummy_flag].
  apply bool_decide_eq_false_2. unfold slice. rewrite drop_ge by lia. done.
Qed.

Lemma deserialize_block_short_witness :
  deserialize_block [] = Raise UnicodeDecodeError
  ∨ ∃ b, deserialize_block [] = Ok b ∧ Block.dummy_flag b = false.
Proof. apply deserialize_block_short. cbn. lia. Defined.

(** ** The bucket codec *)

Lemma split_nonempty bs : split bs ≠ [].
Proof.
  induction bs as [|b1 tl IH]; [done|]. destruct tl as [|b2 rest]; [done|].
  change (split (b1 :: b2 :: rest)) with
    (if bool_decide (b1 = bar) && bool_decide (b2 = bar) then [] :: split rest
     else match split (b2 :: rest) with p :: ps => (b1 :: p) :: ps | [] => [[b1]] end).
  destruct (_ && _); [done|]. by destruct (split (b2 :: rest)).
Qed.

(** X5.  A bucket of clean blocks, one at least, comes back from
    [decode_bucket] as it went into [encode_bucket], and its encoding has 13
    bytes for each block and 2 for each separator. *)
Theorem bucket_round_trip blocks :
  blocks ≠ [] → Forall clean blocks →
  ∃ bs, encode_bucket blocks = Ok bs ∧ decode_bucket bs = Ok blocks
        ∧ length bs = 13 * length blocks + 2 * (length blocks - 1).
Proof.
  intros Hne Hall. destruct (encode_ok blocks Hall) as (bs & Hbs & Hlen).
  exists bs. split_and!; [done| |by apply Hlen]. by apply decode_encode_bucket.
Qed.

Lemma bucket_round_trip_witness :
  ∃ bs, encode_bucket [Block.mk 3 1 (bytes_of_string "ABCD") false; dummy_block 16] = Ok bs
        ∧ decode_bucket bs = Ok [Block.mk 3 1 (bytes_of_string "ABCD") false; dummy_block 16]
        ∧ length bs = 13 * 2 + 2 * (2 - 1).
Proof.
  apply (bucket_round_trip [Block.mk 3 1 (bytes_of_string "ABCD") false; dummy_block 16]).
  - discriminate.
  - repeat constructor; by vm_compute.
Defined.

(** X6.  [decode_bucket] never returns an empty bucket: the empty plaintext, the
    encoding of no block, decodes to one block. *)
Theorem decode_bucket_nonempty bs blocks :
  decode_bucket bs = Ok blocks → blocks ≠ [].
Proof.
  unfold decode_bucket. intros Hd%rmapM_ok_length Hnil. subst blocks.
  pose proof (split_nonempty bs). by destruct (split bs).
Qed.

Lemma decode_bucket_nonempty_witness :
  encode_bucket [] = Ok [] ∧ [Block.mk 0 0 [] false] ≠ [].
Proof. split; [reflexivity|]. apply (decode_bucket_nonempty []). reflexivity. Defined.

(** ** The paths of the tree *)

Lemma path_up_parent i : i ≠ 0 → path_up i = i :: path_up ((i - 1) `div` 2).
Proof.
  intros Hi. unfold path_up.
  change (climb (S i) i) with (i :: (if i =? 0 then [] else climb i ((i - 1) `div` 2))).
  destruct (Nat.eqb_spec i 0); [done|]. f_equal.
  assert ((i - 1) `div` 2 < i) by (apply Nat.Div0.div_lt_upper_bound; lia).
  apply climb_fuel; lia.
Qed.

Lemma path_up_lookup k : ∀ i, 2 ^ k ≤ S i → path_up i !! k = Some (S i `div` 2 ^ k - 1).
Proof.
  induction k as [|k IH]; intros i Hk.
  - destruct (path_up_head i) as [tl ->]. rewrite Nat.pow_0_r, Nat.div_1_r.
    cbn [lookup list_lookup]. f_equal. lia.
  - rewrite Nat.pow_succ_r' in Hk. pose proof (Nat.pow_nonzero 2 k ltac:(lia)) as Hpos.
    rewrite path_up_parent by lia. cbn [lookup list_lookup].
    assert (S ((i - 1) `div` 2) = S i `div` 2) as Hhalf.
    { replace (S i) with (i - 1 + 1 * 2) by lia. rewrite Nat.div_add by lia. lia. }
    rewrite IH.
    + rewrite Hhalf, Nat.Div0.div_div, Nat.pow_succ_r'. done.
    + rewrite Hhalf. apply Nat.div_le_lower_bound; lia.
Qed.

Lemma path_lookup x L k :
  k ≤ L → get_path_leaf_to_root x L !! k = Some ((2 ^ L + x) `div` 2 ^ k - 1).
Proof.
  intros Hk. unfold get_path_leaf_to_root. fold (path_up (2 ^ (L + 1) - 1 - 2 ^ L + x)).
  assert (S (2 ^ (L + 1) - 1 - 2 ^ L + x) = 2 ^ L + x) as Hs.
  { rewrite Nat.add_1_r, Nat.pow_succ_r'. pose proof (Nat.pow_nonzero 2 L ltac:(lia)). lia. }
  rewrite path_up_lookup; rewrite Hs; [done|].
  pose proof (Nat.pow_le_mono_r 2 k L ltac:(lia) Hk). lia.
Qed.

Lemma path_level_div x L k :
  k ≤ L → (2 ^ L + x) `div` 2 ^ k = 2 ^ (L - k) + x `div` 2 ^ k.
Proof.
  intros Hk. replace (2 ^ L) with (2 ^ (L - k) * 2 ^ k).
  - rewrite Nat.div_add_l; [done|]. apply Nat.pow_nonzero. lia.
  - rewrite <- Nat.pow_add_r. f_equal. lia.
Qed.

(** X7.  The path of [get_path_leaf_to_root] in closed form: for a leaf of the
    tree it has [L + 1] nodes, and the node [k] steps above the leaf is
    [(2^L + x) // 2^k - 1]; so it starts at node [2^L - 1 + x] and ends at
    the root. *)
Theorem path_closed_form x L :
  x < 2 ^ L →
  length (get_path_leaf_to_root x L) = S L
  ∧ (∀ k, k ≤ L →
       get_path_leaf_to_root x L !! k = Some ((2 ^ L + x) `div` 2 ^ k - 1))
  ∧ get_path_leaf_to_root x L !! 0 = Some (2 ^ L - 1 + x)
  ∧ get_path_leaf_to_root x L !! L = Some 0.
Proof.
  intros Hx. split_and!.
  - by apply path_length.
  - intros k Hk. by apply path_lookup.
  - rewrite path_lookup by lia. rewrite Nat.pow_0_r, Nat.div_1_r. f_equal.
    pose proof (Nat.pow_nonzero 2 L ltac:(lia)). lia.
  - rewrite path_lookup by lia. f_equal.
    rewrite <- (Nat.div_unique (2 ^ L + x) (2 ^ L) 1 x); lia.
Qed.

Lemma path_closed_form_witness :
  length (get_path_leaf_to_root 5 3) = 4
  ∧ (∀ k, k ≤ 3 → get_path_leaf_to_root 5 3 !! k = Some ((2 ^ 3 + 5) `div` 2 ^ k - 1))
  ∧ get_path_leaf_to_root 5 3 !! 0 = Some (2 ^ 3 - 1 + 5)
  ∧ get_path_leaf_to_root 5 3 !! 3 = Some 0.
Proof. apply (path_closed_form 5 3). cbn. lia. Defined.

(** X8.  The test of the write-back, [cur_block_path[level] == path_back[level]]:
    the paths of two leaves meet at level [k] exactly when the leaves agree
    above their [k] low bits, and from there they stay together up to the
    root. *)
Theorem paths_meet x y L k :
  x < 2 ^ L → y < 2 ^ L → k ≤ L →
  (get_path_leaf_to_root x L !! k = get_path_leaf_to_root y L !! k
   ↔ x `div` 2 ^ k = y `div` 2 ^ k)
  ∧ (get_path_leaf_to_root x L !! k = get_path_leaf_to_root y L !! k →
     ∀ k', k ≤ k' → k' ≤ L →
       get_path_leaf_to_root x L !! k' = get_path_leaf_to_root y L !! k').
Proof.
  intros Hx Hy Hk.
  assert (∀ j, j ≤ L →
            (get_path_leaf_to_root x L !! j = get_path_leaf_to_root y L !! j
             ↔ x `div` 2 ^ j = y `div` 2 ^ j)) as Hiff.
  { intros j Hj. rewrite !path_lookup, !path_level_div by done.
    pose proof (Nat.pow_nonzero 2 (L - j) ltac:(lia)). split.
    - intros [= Heq]. lia.
    - intros ->. done. }
  split; [by apply Hiff|]. intros Heq k' Hkk' Hk'. apply Hiff in Heq; [|done].
  apply Hiff; [done|]. replace k' with (k + (k' - k)) by lia.
  rewrite Nat.pow_add_r, <- !Nat.Div0.div_div. by rewrite Heq.
Qed.

Lemma paths_meet_witness :
  (get_path_leaf_to_root 4 3 !! 1 = get_path_leaf_to_root 5 3 !! 1
   ↔ 4 `div` 2 ^ 1 = 5 `div` 2 ^ 1)
  ∧ (get_path_leaf_to_root 4 3 !! 1 = get_path_leaf_to_root 5 3 !! 1 →
     ∀ k', 1 ≤ k' → k' ≤ 3 →
       get_path_leaf_to_root 4 3 !! k' = get_path_leaf_to_root 5 3 !! k').
Proof. apply (paths_meet 4 5 3 1); cbn; lia. Defined.

(** X9.  What the read phase visits against what the write-back visits, for a
    leaf of the tree: every node written back has been read; and in a tree
    of height at least 1 the nodes read are the nodes written back, in the
    opposite order, [L + 1] distinct nodes. *)
Theorem read_and_write_back_nodes x L :
  x < 2 ^ L →
  (∀ i, i ∈ get_path_leaf_to_root x L → i ∈ read_nodes (zfill L (bin x)) 0)
  ∧ NoDup (get_path_leaf_to_root x L)
  ∧ (1 ≤ L →
     read_nodes (zfill L (bin x)) 0 = reverse (get_path_leaf_to_root x L)
     ∧ length (read_nodes (zfill L (bin x)) 0) = S L).
Proof.
  intros Hx. split_and!.
  - intros i. by apply path_subset_nodes.
  - apply path_NoDup.
  - intros HL. rewrite read_nodes_path by done. split; [done|].
    by rewrite length_reverse, path_length.
Qed.

Lemma read_and_write_back_nodes_witness :
  (∀ i, i ∈ get_path_leaf_to_root 2 2 → i ∈ read_nodes (zfill 2 (bin 2)) 0)
  ∧ NoDup (get_path_leaf_to_root 2 2)
  ∧ (1 ≤ 2 →
     read_nodes (zfill 2 (bin 2)) 0 = reverse (get_path_leaf_to_root 2 2)
     ∧ length (read_nodes (zfill 2 (bin 2)) 0) = 3).
Proof. apply (read_and_write_back_nodes 2 2). cbn. lia. Defined.

(** ** Construction *)

(** X10.  The geometry [Server(N, Z)] computes, on sizes for which the
    floating-point quotient and logarithm of the code are exact ([N] below
    [2^32], two buckets at least and fewer than [2^20]): [floor(N/Z)]
    buckets, more than [2^L] and at most [2^(L+1)] of them; so the complete
    tree of height [L] fits the array exactly when the number of buckets is
    [2^(L+1)] or [2^(L+1) - 1]. *)
Theorem Server_init_geometry N Z server :
  Server_init N Z = Ok server →
  (Z.of_nat N < 2 ^ 32)%Z → 2 ≤ N `div` Z → (Z.of_nat (N `div` Z) < 2 ^ 20)%Z →
  srvN server = N ∧ srvZ server = Z ∧ 1 ≤ Z
  ∧ num_of_buckets server = N `div` Z ∧ length (tree server) = N `div` Z
  ∧ 2 ^ L server < num_of_buckets server ≤ 2 ^ (L server + 1)
  ∧ (fits server ↔ num_of_buckets server = 2 ^ (L server + 1)
                   ∨ num_of_buckets server = 2 ^ (L server + 1) - 1).
Proof.
  intros (HZ & Hnb & ->)%Server_init_spec _ _ _. unfold fits.
  cbn [srvN srvZ num_of_buckets L tree]. rewrite length_replicate.
  set (nb := N `div` Z) in *.
  pose proof (Nat.log2_up_spec nb ltac:(lia)) as [Hlo Hhi].
  assert (1 ≤ Nat.log2_up nb) as Hlog by (apply Nat.log2_up_pos; lia).
  replace (Nat.log2_up nb - 1 + 1) with (Nat.log2_up nb) by lia.
  replace (Nat.pred (Nat.log2_up nb)) with (Nat.log2_up nb - 1) in Hlo by lia.
  split_and!; try done; lia.
Qed.

Lemma Server_init_geometry_witness :
  let server := mkServer 60 4 15 3 (replicate 15 []) in
  srvN server = 60 ∧ srvZ server = 4 ∧ 1 ≤ 4
  ∧ num_of_buckets server = 60 `div` 4 ∧ length (tree server) = 60 `div` 4
  ∧ 2 ^ L server < num_of_buckets server ≤ 2 ^ (L server + 1)
  ∧ (fits server ↔ num_of_buckets server = 2 ^ (L server + 1)
                   ∨ num_of_buckets server = 2 ^ (L server + 1) - 1).
Proof.
  apply (Server_init_geometry 60 4);
    [reflexivity|by vm_compute|vm_compute; lia|by vm_compute].
Defined.

Lemma rmapM_replicate_ok {A B} (g : A → result B) v y n :
  g v = Ok y → rmapM g (replicate n v) = Ok (replicate n y).
Proof. intros Hg. induction n as [|n IH]; [done|]. cbn [replicate rmapM]. by rewrite Hg, IH. Qed.

Lemma rmapM_replicate_raise {A B} (g : A → result B) v e n :
  g v = Raise e → rmapM g (replicate (S n) v) = Raise e.
Proof. intros Hg. cbn [replicate rmapM]. by rewrite Hg. Qed.

Lemma serialize_dummy N :
  if bool_decide (Z.of_nat N + 1 < 2 ^ 32)%Z
  then ∃ bs, Block.serialize (dummy_block N) = Ok bs
  else Block.serialize (dummy_block N) = Raise OverflowError.
Proof.
  unfold Block.serialize, dummy_block, to_bytes4. cbn [Block.a Block.x].
  case_bool_decide as Hlt.
  - rewrite bool_decide_eq_true_2 by lia. cbn [rbind]. eauto.
  - rewrite bool_decide_eq_false_2 by lia. done.
Qed.

Section construction_total.
Context `{C : Cipher}.

Lemma init_buckets_ok rnd_nonce bs indices : ∀ c server,
  encode_bucket (Bucket [] (srvZ server) (srvN server) true) = Ok bs →
  Forall (λ i, i < length (keys c) ∧ i < length (tree server)) indices →
  ∃ c' server', init_buckets rnd_nonce indices c server = Ok (c', server').
Proof.
  induction indices as [|i indices IH]; intros c server Hbs Hall; cbn [init_buckets].
  - eauto.
  - apply Forall_cons in Hall as [[Hk Ht] Hall]. rewrite Hbs. cbn [rbind].
    simpl_state. destruct (lookup_lt_is_Some_2 (keys c) i Hk) as [k ->].
    cbn [or_raise rbind]. rewrite bool_decide_eq_true_2 by done.
    apply IH; simpl_state; [done|]. by rewrite length_insert.
Qed.

Lemma Client_init_raise rnd_leaf rnd_key rnd_nonce server e :
  encode_bucket (Bucket [] (srvZ server) (srvN server) true) = Raise e →
  1 ≤ num_of_buckets server →
  Client_init rnd_leaf rnd_key rnd_nonce server = Raise e.
Proof.
  intros Hbs Hnb. unfold Client_init.
  destruct (num_of_buckets server) as [|nb]; [lia|]. cbn [seq init_buckets].
  simpl_state. by rewrite Hbs.
Qed.
End construction_total.

Lemma Client_init_ok `{Cipher} N Z server rnd_leaf rnd_key rnd_nonce :
  Server_init N Z = Ok server → (Z.of_nat N + 1 < 2 ^ 32)%Z →
  ∃ c server', Client_init rnd_leaf rnd_key rnd_nonce server = Ok (c, server').
Proof.
  intros Hs HN. pose proof (Server_init_spec _ _ _ Hs) as (HZ & Hnb & ->).
  pose proof (serialize_dummy N) as Hd.
  rewrite bool_decide_eq_true_2 in Hd by done. destruct Hd as [bs Hbs].
  apply (init_buckets_ok rnd_nonce (join (replicate Z bs))).
  - simpl_state. unfold Bucket, encode_bucket.
    by rewrite (rmapM_replicate_ok _ _ _ _ Hbs).
  - simpl_state. apply Forall_forall. intros i Hi%elem_of_seq.
    rewrite length_fmap, length_seq, length_replicate. lia.
Qed.

(** X11.  [Client(server)] on a server [Server(N, Z)] of two buckets at
    least: it goes through when the address [N + 1] of the dummy block fits
    4 bytes, with an empty stash, a position map on the addresses
    [0 .. N-1], and a key, a nonce and a tree slot for each bucket; otherwise
    (for [N] below [2^52], where the quotient of the code is exact)
    serializing the first dummy block raises [OverflowError]. *)
Theorem Client_init_total `{Cipher} N Z server rnd_leaf rnd_key rnd_nonce :
  Server_init N Z = Ok server → 2 ≤ N `div` Z →
  ((Z.of_nat N + 1 < 2 ^ 32)%Z →
   ∃ c server', Client_init rnd_leaf rnd_key rnd_nonce server = Ok (c, server')
     ∧ stash c = []
     ∧ (∀ a, is_Some (position_map c !! a) ↔ (0 ≤ a < Z.of_nat N)%Z)
     ∧ length (keys c) = N `div` Z ∧ length (nonces c) = N `div` Z
     ∧ length (tree server') = N `div` Z)
  ∧ ((2 ^ 32 ≤ Z.of_nat N + 1 < 2 ^ 52)%Z →
     Client_init rnd_leaf rnd_key rnd_nonce server = Raise OverflowError).
Proof.
  intros Hs _. split; intros HN.
  - destruct (Client_init_ok N Z server rnd_leaf rnd_key rnd_nonce Hs HN)
      as (c & server' & Hc).
    pose proof (Server_init_spec _ _ _ Hs) as (HZ & Hnb & ->).
    exists c, server'. split; [exact Hc|].
    pose proof (Client_init_position_map _ _ _ _ _ _ Hc) as Hpm.
    apply Client_init_spec in Hc as (Hst & _ & Hk & Hn & _ & Ht). simpl_state.
    rewrite Hk, Hn, Ht, !length_fmap, !length_seq, length_replicate.
    split_and!; try done. intros a. rewrite Hpm.
    case_bool_decide; split; by (done || intros [? [=]] || eauto).
  - pose proof (Server_init_spec _ _ _ Hs) as (HZ & Hnb & ->).
    pose proof (serialize_dummy N) as Hd.
    rewrite bool_decide_eq_false_2 in Hd by lia.
    apply Client_init_raise; simpl_state; [|lia]. unfold Bucket, encode_bucket.
    destruct Z as [|Z]; [lia|]. by rewrite (rmapM_replicate_raise _ _ _ _ Hd).
Qed.

Lemma Client_init_total_witness :
  ((Z.of_nat 16 + 1 < 2 ^ 32)%Z →
   ∃ (c : @Client toy) server',
     Client_init (λ _, 0) (λ i, Z.of_nat i) (λ i, [Z.of_nat i])
       (mkServer 16 4 4 1 (replicate 4 [])) = Ok (c, server')
     ∧ stash c = []
     ∧ (∀ a, is_Some (position_map c !! a) ↔ (0 ≤ a < Z.of_nat 16)%Z)
     ∧ length (keys c) = 16 `div` 4 ∧ length (nonces c) = 16 `div` 4
     ∧ length (tree server') = 16 `div` 4)
  ∧ ((2 ^ 32 ≤ Z.of_nat 16 + 1 < 2 ^ 52)%Z →
     Client_init (λ _, 0) (λ i, Z.of_nat i) (λ i, [Z.of_nat i])
       (mkServer 16 4 4 1 (replicate 4 [])) = Raise OverflowError).
Proof. apply (Client_init_total 16 4); [reflexivity|vm_compute; lia]. Defined.

(** X12.  After construction every bucket of the tree decrypts and decodes to
    [Z] dummy blocks. *)
Theorem fresh_buckets_hold_dummies `{C : Cipher} (CC : CipherCorrect C)
    N Z server0 rnd_leaf rnd_key rnd_nonce c server i :
  Server_init N Z = Ok server0 → clean (dummy_block N) →
  Client_init rnd_leaf rnd_key rnd_nonce server0 = Ok (c, server) →
  i < N `div` Z →
  read_bucket c server i = Ok (replicate Z (dummy_block N)).
Proof.
  intros Hs Hdummy Hc Hi.
  pose proof (Shape_init _ _ _ _ _ _ _ _ Hs Hdummy Hc) as HS.
  apply Client_init_spec in Hc as (_ & _ & _ & _ & (_ & _ & Hnb & _) & _).
  apply Server_init_spec in Hs as (_ & _ & ->). simpl_state.
  apply (Shape_read_bucket [] _ c server i HS); [by rewrite Hnb|apply not_elem_of_nil].
Qed.

Lemma fresh_buckets_hold_dummies_witness :
  read_bucket (start 16 4 0).1 (start 16 4 0).2 3 = Ok (replicate 4 (dummy_block 16)).
Proof.
  pose proof (setup_start 16 4 0 ltac:(by vm_compute)) as Hs.
  unfold setup in Hs. apply rbind_ok in Hs as (s0 & Hs0 & Hc).
  rewrite (surjective_pairing (start 16 4 0)) in Hc.
  eapply (fresh_buckets_hold_dummies toy_correct 16 4 s0);
    [exact Hs0|by vm_compute|exact Hc|vm_compute; lia].
Defined.

(** ** The choice of the write-back *)

Lemma select_greedy pm L level target Z st : ∀ n chosen remaining,
  select pm L level target Z st n = Ok (chosen, remaining) →
  n + length chosen < Z →
  Forall (λ b, real b →
            ¬ ∃ x, pm !! Block.a b = Some x
                   ∧ get_path_leaf_to_root x L !! level = Some target) remaining.
Proof.
  induction st as [|block st IH]; intros n chosen remaining; cbn [select].
  - intros [= <- <-] _. constructor.
  - destruct (Block.dummy_flag block) eqn:Hflag.
    { intros ([ch rm] & Hr & [= <- <-])%rbind_ok Hlen. cbn [fst snd] in *.
      constructor; [|by eapply IH]. unfold real. by rewrite Hflag. }
    intros (leaf & Hleaf & Hs)%rbind_ok. apply rbind_ok in Hs as (node & Hnode & Hs).
    destruct (pm !! Block.a block) as [leaf'|] eqn:Hpm; [|done].
    injection Hleaf as ->.
    destruct (get_path_leaf_to_root leaf L !! level) as [node'|] eqn:Hpath; [|done].
    injection Hnode as ->.
    destruct (bool_decide (node = target) && (n <? Z)) eqn:Hsel.
    + apply rbind_ok in Hs as ([ch rm] & Hr & [= <- <-]). cbn [fst snd length].
      intros Hlen. eapply IH; [exact Hr|lia].
    + apply rbind_ok in Hs as ([ch rm] & Hr & [= <- <-]). cbn [fst snd].
      intros Hlen. constructor; [|by eapply IH].
      intros _ (x & Hx & Hxt). rewrite Hpm in Hx. injection Hx as <-.
      rewrite Hpath in Hxt. injection Hxt as ->.
      apply andb_false_iff in Hsel as [Hne|Hn].
      * by apply bool_decide_eq_false in Hne.
      * apply Nat.ltb_ge in Hn. lia.
Qed.

(** X13.  The inner loop of the write-back at one level splits the stash in
    two: the blocks for the bucket, at most [Z], each real and mapped to a
    leaf whose path holds the target node at that level, and the blocks that
    stay.  Dummy blocks stay; and a real block whose path holds the target
    stays only when the bucket is full. *)
Theorem eviction_choice pm L level target Z st chosen remaining :
  select pm L level target Z st 0 = Ok (chosen, remaining) →
  st ≡ₚ chosen ++ remaining
  ∧ length chosen ≤ Z
  ∧ Forall (λ b, Block.dummy_flag b = false
                 ∧ ∃ x, pm !! Block.a b = Some x
                        ∧ get_path_leaf_to_root x L !! level = Some target) chosen
  ∧ (∀ b, b ∈ st → Block.dummy_flag b = true → b ∈ remaining)
  ∧ (length chosen < Z →
     Forall (λ b, Block.dummy_flag b = false →
               ¬ ∃ x, pm !! Block.a b = Some x
                      ∧ get_path_leaf_to_root x L !! level = Some target) remaining).
Proof.
  intros Hsel. destruct (select_spec _ _ _ _ _ _ _ _ _ Hsel) as (Hp & Hreal & Hlen & Hloc).
  split_and!.
  - done.
  - lia.
  - apply Forall_forall. intros b Hb. split.
    + by apply (proj1 (Forall_forall _ _) Hreal).
    + by apply (proj1 (Forall_forall _ _) Hloc).
  - intros b Hb Hflag. rewrite Hp in Hb. apply elem_of_app in Hb as [Hb|Hb]; [|done].
    apply (proj1 (Forall_forall _ _) Hreal) in Hb. unfold real in Hb. congruence.
  - intros Hlt. by apply (select_greedy pm L level target Z st 0 chosen remaining).
Qed.

Lemma eviction_choice_witness :
  let pm : gmap Z nat := {[ 1%Z := 0; 2%Z := 1; 3%Z := 0 ]} in
  let b1 := Block.mk 1 0 (bytes_of_string "aaaa") false in
  let b2 := Block.mk 2 1 (bytes_of_string "bbbb") false in
  let b3 := Block.mk 3 0 (bytes_of_string "cccc") false in
  let st := [b1; dummy_block 8; b2; b3] in
  st ≡ₚ [b1] ++ [dummy_block 8; b2; b3]
  ∧ length [b1] ≤ 1
  ∧ Forall (λ b, Block.dummy_flag b = false
                 ∧ ∃ x, pm !! Block.a b = Some x
                        ∧ get_path_leaf_to_root x 1 !! 0 = Some 1) [b1]
  ∧ (∀ b, b ∈ st → Block.dummy_flag b = true → b ∈ [dummy_block 8; b2; b3])
  ∧ (length [b1] < 1 →
     Forall (λ b, Block.dummy_flag b = false →
               ¬ ∃ x, pm !! Block.a b = Some x
                      ∧ get_path_leaf_to_root x 1 !! 0 = Some 1) [dummy_block 8; b2; b3]).
Proof.
  intros pm b1 b2 b3 st. apply (eviction_choice pm 1 0 1 1 st). by vm_compute.
Defined.

(** ** The contents through a call *)

Lemma remove_at (st : list Block.t) p b :
  st !! p = Some b → real b →
  NoDup (Block.a <$> filter real st) →
  ∀ b0, b0 ∈ take p st ++ drop (S p) st ↔ b0 ∈ st ∧ (real b0 → Block.a b0 ≠ Block.a b).
Proof.
  intros Hp Hb Hnd b0. pose proof (take_drop_middle st p b Hp) as Hmid.
  set (l1 := take p st) in *. set (l2 := drop (S p) st) in *. clearbody l1 l2.
  subst st. clear Hp.
  rewrite filter_app, filter_cons_True, fmap_app, fmap_cons in Hnd by done.
  apply NoDup_app in Hnd as (_ & Hdisj & [Hb2 _]%NoDup_cons).
  rewrite !elem_of_app, elem_of_cons. split.
  - intros [H1|H2].
    + split; [by left|]. intros Hr Heq. apply (Hdisj (Block.a b0)).
      * apply list_elem_of_fmap. exists b0. split; [done|]. by apply list_elem_of_filter.
      * rewrite Heq. apply list_elem_of_here.
    + split; [by right; right|]. intros Hr Heq. apply Hb2. rewrite <- Heq.
      apply list_elem_of_fmap. exists b0. split; [done|]. by apply list_elem_of_filter.
  - intros [[H1 | [-> | H2]] Hne]; [by left| |by right]. by destruct (Hne Hb).
Qed.

Lemma update_content op a data_ new_x st st2 :
  update op a data_ new_x (locate a st).1 st = Ok st2 →
  NoDup (Block.a <$> filter real st) →
  (∀ b, b ∈ st → Block.a b = a → real b) →
  (op = "write"%string →
   ∀ b0, real b0 →
     (b0 ∈ st2 ↔ b0 = Block.mk a (Z.of_nat new_x) data_ false
                  ∨ (b0 ∈ st ∧ Block.a b0 ≠ a)))
  ∧ (op = "delete"%string → (∃ b, b ∈ st ∧ Block.a b = a) →
     ∀ b0, real b0 → (b0 ∈ st2 ↔ b0 ∈ st ∧ Block.a b0 ≠ a))
  ∧ (op ≠ "write"%string → op ≠ "delete"%string → st2 = st).
Proof.
  intros Hup Hnd Hreal. unfold update in Hup.
  destruct (locate_cases a st) as [(p & b & Hloc & Hp & Hb)|[Hloc Hall]];
    rewrite Hloc in Hup; cbn [fst] in Hup.
  - pose proof (list_elem_of_lookup_2 _ _ _ Hp) as Hin.
    pose proof (remove_at st p b Hp (Hreal b Hin Hb) Hnd) as Hrem. rewrite Hb in Hrem.
    pose proof (lookup_lt_Some _ _ _ Hp) as Hlt.
    rewrite py_index_nat in Hup by done. cbn [rbind] in Hup.
    case_bool_decide as Hw.
    + destruct (Z.leb_spec 0 (Z.of_nat p)) as [_|?]; [|lia]. injection Hup as <-.
      split_and!; [|by intros ->|done]. intros _ b0 Hr0.
      rewrite insert_take_drop by done.
      rewrite elem_of_app, elem_of_cons. specialize (Hrem b0). rewrite elem_of_app in Hrem.
      tauto.
    + case_bool_decide as Hd.
      * injection Hup as <-. split_and!; [done| |done]. intros _ _ b0 Hr0.
        rewrite delete_take_drop. specialize (Hrem b0). tauto.
      * injection Hup as <-. by split_and!.
  - rewrite Forall_forall in Hall. case_bool_decide as Hw.
    + cbn [Z.leb Z.compare] in Hup. injection Hup as <-.
      split_and!; [|by intros ->|done]. intros _ b0 Hr0.
      rewrite elem_of_app, list_elem_of_singleton. split.
      * intros [H0 | ->]; [right; split; [done|by apply Hall]|by left].
      * intros [-> | [H0 _]]; [by right|by left].
    + case_bool_decide as Hd.
      * split_and!; [done| |done]. intros _ (b & Hbin & Hba). by destruct (Hall b Hbin).
      * injection Hup as <-. by split_and!.
Qed.

Section contents.
Context `{C : Cipher} {CC : CipherCorrect C}.

(** A call on a mapped address, step by step: what the read phase leaves
    in the stash, what the update makes of it, and the real blocks the
    write-back keeps. *)
Lemma Inv_Access_content f op a data_ new_x fresh c server x :
  Inv [] f c server → position_map c !! a = Some x → new_x < 2 ^ L server →
  (op = "write"%string → clean (Block.mk a (Z.of_nat new_x) data_ false)) →
  ∃ c' server' f' st2,
    Access op a data_ new_x fresh c server
    = Returned (locate a (stash c ++ (read_nodes (zfill (L server) (bin x)) 0 ≫= f))).2
        c' server'
    ∧ Inv [] f' c' server'
    ∧ same_config server server'
    ∧ update op a data_ new_x
        (locate a (stash c ++ (read_nodes (zfill (L server) (bin x)) 0 ≫= f))).1
        (stash c ++ (read_nodes (zfill (L server) (bin x)) 0 ≫= f)) = Ok st2
    ∧ Forall (addr_ok (srvN server))
        (stash c ++ (read_nodes (zfill (L server) (bin x)) 0 ≫= f))
    ∧ NoDup (Block.a <$> filter real
               ((stash c ++ (read_nodes (zfill (L server) (bin x)) 0 ≫= f))
                ++ tree_blocks (num_of_buckets server)
                     (mask (get_path_leaf_to_root x (L server)) f)))
    ∧ (∀ b, b ∈ tree_blocks (num_of_buckets server)
                  (mask (get_path_leaf_to_root x (L server)) f) →
            real b → Block.a b ≠ a)
    ∧ filter real ((stash c ++ (read_nodes (zfill (L server) (bin x)) 0 ≫= f))
                   ++ tree_blocks (num_of_buckets server)
                        (mask (get_path_leaf_to_root x (L server)) f))
      ≡ₚ filter real (stash c ++ tree_blocks (num_of_buckets server) f)
    ∧ filter real (stash c' ++ tree_blocks (num_of_buckets server) f')
      ≡ₚ filter real (st2 ++ tree_blocks (num_of_buckets server)
                               (mask (get_path_leaf_to_root x (L server)) f)).
Proof.
  intros HI Ha Hnew Hclean.
  destruct (Inv_read f c server a x new_x HI Ha Hnew) as (Hread & HI1 & Hno & Hperm1 & Hne).
  set (nodes := read_nodes (zfill (L server) (bin x)) 0) in *.
  set (path := get_path_leaf_to_root x (L server)) in *.
  set (st1 := stash c ++ (nodes ≫= f)) in *.
  set (c1 := mkClient _ st1 (<[a:=new_x]> (position_map c)) (keys c) (nonces c)) in *.
  destruct (Inv_update path (mask path f) c1 server op a data_ new_x HI1)
    as (st2 & Hup & HI2 & Hin & _); [by apply lookup_insert_eq|done..|].
  pose proof (inv_pm_range _ _ _ _ HI a x Ha) as Hx.
  destruct (paths_in_range (L server) (num_of_buckets server) x
              (inv_fits _ _ _ _ HI) (inv_nb _ _ _ _ HI) Hx) as [_ Hpath].
  destruct (Inv_evict fresh path (length path) 0 (mask path f) (set_stash c1 st2) server)
    as (c2 & s2 & f2 & Hev & HI3 & Hperm3 & Hpm3 & Hcfg3);
    [done|apply path_NoDup|done|by apply path_length|done|].
  exists (set_stash c2 (filter real (stash c2))), s2, f2, st2.
  change (stash c1) with st1 in Hup.
  split_and!.
  - unfold Access. rewrite Ha, read_path_set_position_map. fold nodes.
    change (stash (set_position_map c (<[a:=new_x]> (position_map c)))) with (stash c).
    rewrite Hread.
    destruct (locate a st1) as [block_idx data0] eqn:Hloc. cbn [fst snd] in *.
    rewrite Hup. fold path.
    change (set_stash (set_position_map c (<[a:=new_x]> (position_map c))) st2)
      with (set_stash c1 st2).
    by rewrite Hev.
  - apply Inv_set_stash; [done| | |].
    + apply Forall_forall. intros b [_ Hb]%list_elem_of_filter.
      by apply (proj1 (Forall_forall _ _) (shape_stash _ _ _ _ (inv_shape _ _ _ _ HI3))).
    + apply Forall_forall. intros b [_ Hb]%list_elem_of_filter.
      by apply (proj1 (Forall_forall _ _) (inv_addr_stash _ _ _ _ HI3)).
    + rewrite filter_app, filter_real_idemp, <- filter_app. apply (inv_unique _ _ _ _ HI3).
  - done.
  - done.
  - apply (inv_addr_stash _ _ _ _ HI1).
  - apply (inv_unique _ _ _ _ HI1).
  - done.
  - done.
  - simpl_state. rewrite filter_app, filter_real_idemp, <- filter_app. exact Hperm3.
Qed.

Lemma models_Access m op a data_ new_x fresh c server :
  models m c server → (0 ≤ a < Z.of_nat (srvN server))%Z → new_x < 2 ^ L server →
  (op = "write"%string → clean (Block.mk a (Z.of_nat new_x) data_ false)) →
  (op = "delete"%string → is_Some (m !! a)) →
  ∃ c' server',
    Access op a data_ new_x fresh c server = Returned (m !! a) c' server'
    ∧ models (dict_step op a data_ m) c' server' ∧ same_config server server'.
Proof.
  intros (f & HI & Hm) Ha Hnx Hclean Hdel.
  destruct (proj2 (inv_pm_dom _ _ _ _ HI a) Ha) as [x Hx].
  destruct (Inv_Access_content f op a data_ new_x fresh c server x HI Hx Hnx Hclean)
    as (c' & s' & f' & st2 & HA & HI' & Hcfg & Hup & Haddr1 & Hnd1 & Hno & Hperm1 & Hperm2).
  set (st1 := stash c ++ (read_nodes (zfill (L server) (bin x)) 0 ≫= f)) in *.
  set (tbm := tree_blocks (num_of_buckets server)
                (mask (get_path_leaf_to_root x (L server)) f)) in *.
  assert (∀ b, real b → (b ∈ st1 ++ tbm
                         ↔ b ∈ stash c ++ tree_blocks (num_of_buckets server) f)) as HR1.
  { intros b Hb.
    assert (b ∈ filter real (st1 ++ tbm)
            ↔ b ∈ filter real (stash c ++ tree_blocks (num_of_buckets server) f)) as H1
      by (by rewrite Hperm1).
    rewrite !list_elem_of_filter in H1. tauto. }
  assert (∀ b, real b → (b ∈ stash c' ++ tree_blocks (num_of_buckets server) f'
                         ↔ b ∈ st2 ++ tbm)) as HR2.
  { intros b Hb.
    assert (b ∈ filter real (stash c' ++ tree_blocks (num_of_buckets server) f')
            ↔ b ∈ filter real (st2 ++ tbm)) as H1 by (by rewrite Hperm2).
    rewrite !list_elem_of_filter in H1. tauto. }
  assert (∀ b, b ∈ st1 → Block.a b = a → real b) as Hreal1.
  { intros b Hb Hab. apply (proj1 (Forall_forall _ _) Haddr1) in Hb.
    unfold addr_ok in Hb. unfold real. destruct (Block.dummy_flag b); [lia|done]. }
  assert ((locate a st1).2 = m !! a) as Hres.
  { destruct (m !! a) as [d|] eqn:Hma.
    - apply Hm in Hma as (b & Hb & Hreal & Hab & Hd). rewrite <- Hd.
      by apply (Inv_locate f c server a x b HI Hx).
    - destruct (locate_cases a st1) as [(p & b & Hloc & Hp & Hb)|[Hloc _]];
        rewrite Hloc; [|done]. exfalso.
      apply list_elem_of_lookup_2 in Hp. pose proof (Hreal1 b Hp Hb) as Hrb.
      assert (m !! a = Some (Block.data b)) as Hsome; [|congruence].
      apply Hm. exists b. split_and!; [|done..]. apply HR1; [done|].
      apply elem_of_app. by left. }
  exists c', s'. rewrite <- Hres. split; [done|]. split; [|done].
  exists f'. split; [done|]. intros a0 d0. unfold stored.
  destruct Hcfg as (_ & _ & -> & _).
  destruct (update_content op a data_ new_x st1 st2 Hup) as (Hcw & Hcd & Hcr); [|done|].
  { rewrite filter_app, fmap_app in Hnd1. by apply NoDup_app in Hnd1 as (? & _). }
  unfold dict_step. case_bool_decide as Hw; [|case_bool_decide as Hd].
  - specialize (Hcw Hw). rewrite lookup_insert_Some. split.
    + intros [[<- <-]|[Hne Hm0]].
      * exists (Block.mk a (Z.of_nat new_x) data_ false). split_and!; [|done..].
        apply HR2; [done|]. apply elem_of_app. left. apply Hcw; [done|by left].
      * apply Hm in Hm0 as (b & Hb & Hreal & Hab & Hbd). exists b. split_and!; [|done..].
        apply HR2; [done|]. apply HR1 in Hb; [|done].
        apply elem_of_app in Hb as [Hb|Hb]; apply elem_of_app; [left|by right].
        apply Hcw; [done|]. right. split; [done|congruence].
    + intros (b & Hb & Hreal & Hab & Hbd). apply HR2 in Hb; [|done].
      apply elem_of_app in Hb as [Hb|Hb].
      * apply Hcw in Hb; [|done]. destruct Hb as [-> | [Hb Hne]].
        { cbn in Hab, Hbd. left. by split. }
        right. split; [congruence|]. apply Hm. exists b. split_and!; [|done..].
        apply HR1; [done|]. apply elem_of_app. by left.
      * right. split; [intros <-; by apply (Hno b Hb Hreal)|].
        apply Hm. exists b. split_and!; [|done..].
        apply HR1; [done|]. apply elem_of_app. by right.
  - assert (∃ b, b ∈ st1 ∧ Block.a b = a) as Hfound.
    { destruct (Hdel Hd) as [d Hma]. apply Hm in Hma as (b & Hb & Hreal & Hab & _).
      apply HR1 in Hb; [|done]. apply elem_of_app in Hb as [Hb|Hb]; [by eauto|].
      by destruct (Hno b Hb Hreal). }
    specialize (Hcd Hd Hfound). rewrite lookup_delete_Some. split.
    + intros [Hne Hm0].
      apply Hm in Hm0 as (b & Hb & Hreal & Hab & Hbd). exists b. split_and!; [|done..].
      apply HR2; [done|]. apply HR1 in Hb; [|done].
      apply elem_of_app in Hb as [Hb|Hb]; apply elem_of_app; [left|by right].
      apply Hcd; [done|]. split; [done|congruence].
    + intros (b & Hb & Hreal & Hab & Hbd). apply HR2 in Hb; [|done].
      apply elem_of_app in Hb as [Hb|Hb].
      * apply Hcd in Hb as [Hb Hne]; [|done].
        split; [congruence|]. apply Hm. exists b. split_and!; [|done..].
        apply HR1; [done|]. apply elem_of_app. by left.
      * split; [intros <-; by apply (Hno b Hb Hreal)|].
        apply Hm. exists b. split_and!; [|done..].
        apply HR1; [done|]. apply elem_of_app. by right.
  - rewrite (Hcr Hw Hd) in HR2. rewrite Hm. unfold stored. split.
    + intros (b & Hb & Hreal & Hab & Hbd). exists b. split_and!; [|done..].
      apply HR2; [done|]. by apply HR1.
    + intros (b & Hb & Hreal & Hab & Hbd). exists b. split_and!; [|done..].
      apply HR1; [done|]. by apply HR2.
Qed.

Lemma models_init N Z server0 rnd_leaf rnd_key rnd_nonce c server :
  Server_init N Z = Ok server0 → (∀ block, rnd_leaf block < 2 ^ L server0) →
  clean (dummy_block N) →
  Client_init rnd_leaf rnd_key rnd_nonce server0 = Ok (c, server) →
  fits server → models ∅ c server.
Proof.
  intros Hs Hleaf Hdummy Hc Hfits.
  pose proof (Inv_init _ _ _ _ _ _ _ _ Hs Hleaf Hdummy Hc Hfits) as HI.
  eexists. split; [exact HI|]. intros a d. rewrite lookup_empty. split; [done|].
  intros (b & Hb & Hreal & _).
  apply Client_init_spec in Hc as (Hst & _). rewrite Hst in Hb. cbn [app] in Hb.
  by apply elem_of_tree_blocks in Hb as (i & _ & [-> _]%elem_of_replicate).
Qed.

Lemma Inv_models f c server : Inv [] f c server → ∃ m, models m c server.
Proof.
  intros HI.
  set (R := filter real (stash c ++ tree_blocks (num_of_buckets server) f)).
  exists (list_to_map ((λ b, (Block.a b, Block.data b)) <$> R)), f. split; [done|].
  intros a d. rewrite <- elem_of_list_to_map.
  2:{ rewrite <- list_fmap_compose. apply (inv_unique _ _ _ _ HI). }
  rewrite list_elem_of_fmap. unfold stored, R. split.
  - intros (b & [= -> ->] & [Hreal Hb]%list_elem_of_filter). exists b. by split_and!.
  - intros (b & Hb & Hreal & <- & <-). exists b. split; [done|].
    by apply list_elem_of_filter.
Qed.

Lemma honest_models c server : honest c server → fits server → ∃ m, models m c server.
Proof. intros Hh Hf. destruct (honest_Inv c server Hh Hf) as [f HI]. by eapply Inv_models. Qed.

Lemma models_calls reqs : ∀ m c server,
  models m c server → valid_calls (srvN server) (L server) reqs m →
  ∃ c' server',
    calls reqs c server = Ok (dict_calls reqs m, (c', server'))
    ∧ models (dict_after reqs m) c' server' ∧ same_config server server'.
Proof.
  induction reqs as [|r reqs IH]; intros m c server Hm Hv.
  - exists c, server. by split_and!.
  - destruct Hv as ((Ha & Hleaf & Hclean) & Hdel & Hv).
    destruct (models_Access m (req_op r) (req_a r) (req_data r) (req_leaf r) (req_nonce r)
                c server Hm Ha Hleaf Hclean Hdel) as (c1 & s1 & HA & Hm1 & Hcfg).
    pose proof Hcfg as (HN & _ & _ & HL).
    destruct (IH _ c1 s1 Hm1) as (c2 & s2 & Hc & Hm2 & Hcfg2).
    { by rewrite HN, HL. }
    exists c2, s2. cbn [calls dict_calls dict_after]. rewrite HA, Hc. cbn [rbind fst snd].
    split_and!; [done..|]. destruct Hcfg as (?&?&?&?), Hcfg2 as (?&?&?&?).
    unfold same_config. split_and!; congruence.
Qed.

(** In an honest run on a geometry that fits, calls in order return, one
    after the other, whatever they delete. *)
Lemma honest_calls reqs : ∀ c server,
  honest c server → fits server →
  Forall (request_ok (srvN server) (L server)) reqs →
  ∃ outs c' server',
    calls reqs c server = Ok (outs, (c', server'))
    ∧ length outs = length reqs ∧ honest c' server' ∧ same_config server server'.
Proof.
  induction reqs as [|r reqs IH]; intros c server Hh Hf Hall.
  - exists [], c, server. by split_and!.
  - apply Forall_cons in Hall as [(Ha & Hleaf & Hclean) Hall].
    destruct (honest_Inv c server Hh Hf) as [f HI].
    destruct (proj2 (inv_pm_dom _ _ _ _ HI _) Ha) as [x Hx].
    destruct (Inv_Access f (req_op r) (req_a r) (req_data r) (req_leaf r) (req_nonce r)
                c server x HI Hx Hleaf Hclean) as (c1 & s1 & f1 & HA & HI1 & _ & Hcfg & _).
    pose proof Hcfg as (HN & HZ & Hnb & HL).
    pose proof (honest_call (req_op r) (req_a r) (req_data r) (req_leaf r) (req_nonce r)
                  c server Hh Hleaf Hclean) as Hh1.
    rewrite HA in Hh1. cbn [outcome_state fst snd] in Hh1.
    destruct (IH c1 s1 Hh1) as (outs & c2 & s2 & Hc & Hlen & Hh2 & Hcfg2).
    { apply (inv_fits _ _ _ _ HI1). }
    { by rewrite HN, HL. }
    eexists _, c2, s2. cbn [calls]. rewrite HA, Hc. cbn [rbind fst snd].
    split_and!; [done|by cbn [length]; rewrite Hlen|done|].
    destruct Hcfg2 as (?&?&?&?). unfold same_config. split_and!; congruence.
Qed.
End contents.

Lemma dict_calls_app l1 l2 m :
  dict_calls (l1 ++ l2) m = dict_calls l1 m ++ dict_calls l2 (dict_after l1 m).
Proof.
  revert m. induction l1 as [|r l1 IH]; intros m; [done|].
  cbn [app dict_calls dict_after]. by rewrite IH.
Qed.

Lemma dict_calls_length l m : length (dict_calls l m) = length l.
Proof. revert m. induction l as [|r l IH]; intros m; [done|]. cbn. by rewrite IH. Qed.

Lemma dict_step_other op a data_ m b : a ≠ b → dict_step op a data_ m !! b = m !! b.
Proof.
  intros Hne. unfold dict_step. repeat case_bool_decide; [|by rewrite lookup_delete_ne|done].
  by rewrite lookup_insert_ne.
Qed.

Lemma dict_after_other l a : ∀ m,
  Forall (λ r, req_a r ≠ a) l → dict_after l m !! a = m !! a.
Proof.
  induction l as [|r l IH]; intros m Hall; [done|].
  apply Forall_cons in Hall as [Hr Hall]. cbn [dict_after].
  rewrite IH by done. by apply dict_step_other.
Qed.

Lemma valid_calls_no_delete N L l : ∀ m,
  Forall (λ r, request_ok N L r ∧ req_op r ≠ "delete"%string) l → valid_calls N L l m.
Proof.
  induction l as [|r l IH]; intros m Hall; [done|].
  apply Forall_cons in Hall as [[Hok Hnd] Hall]. cbn [valid_calls].
  split_and!; [done|by intros ?|by apply IH].
Qed.

(** ** Calls in a run *)

(** X14.  In a state of a run built with a clean dummy block, in which the
    leaves drawn are leaves and the writes carry clean blocks, on a geometry
    that fits, a call on an address in [0, N) that draws a leaf and, for a
    write, carries a clean block returns, whatever the operation (a delete
    of an address that holds nothing included); the address is then mapped
    to the leaf drawn and the geometry is as before. *)
Theorem Access_returns `{C : Cipher} (CC : CipherCorrect C)
    op a data_ new_x fresh c server :
  honest c server → fits server → (0 ≤ a < Z.of_nat (srvN server))%Z →
  new_x < 2 ^ L server →
  (op = "write"%string → clean (Block.mk a (Z.of_nat new_x) data_ false)) →
  ∃ r c' server',
    Access op a data_ new_x fresh c server = Returned r c' server'
    ∧ position_map c' !! a = Some new_x ∧ same_config server server'.
Proof.
  intros Hh Hf Ha Hnx Hclean. destruct (honest_Inv c server Hh Hf) as [f HI].
  destruct (proj2 (inv_pm_dom _ _ _ _ HI a) Ha) as [x Hx].
  destruct (Inv_Access f op a data_ new_x fresh c server x HI Hx Hnx Hclean)
    as (c' & s' & f' & HA & _ & Hpm & Hcfg & _).
  eexists _, c', s'. split_and!; [exact HA| |done]. rewrite Hpm. apply lookup_insert_eq.
Qed.

Lemma Access_returns_witness :
  ∃ r c' server',
    Access "delete" 5 [] 1 (λ level, [Z.of_nat level]) (start 16 4 0).1 (start 16 4 0).2
    = Returned r c' server'
    ∧ position_map c' !! 5%Z = Some 1 ∧ same_config (start 16 4 0).2 server'.
Proof.
  apply (Access_returns toy_correct).
  - apply start_honest; [by vm_compute|vm_compute; lia|by vm_compute].
  - vm_compute. lia.
  - vm_compute. by split.
  - vm_compute. lia.
  - intros [=].
Defined.

(** X15.  From a construction with a clean dummy block and leaves drawn in
    the tree, on a geometry that fits, client and server behave as a
    dictionary: when every call has an address in [0, N), a leaf of the tree
    and, for a write, a clean block, and every delete is of an address that
    holds something, each call returns what the dictionary held at its
    address before it: the payload last written there, or [None] before any
    write and after a delete. *)
Theorem oram_is_dictionary `{C : Cipher} (CC : CipherCorrect C)
    N Z server0 rnd_leaf rnd_key rnd_nonce c server reqs :
  Server_init N Z = Ok server0 → (∀ block, rnd_leaf block < 2 ^ L server0) →
  clean (dummy_block N) →
  Client_init rnd_leaf rnd_key rnd_nonce server0 = Ok (c, server) →
  fits server →
  valid_calls N (L server) reqs ∅ →
  ∃ p, calls reqs c server = Ok (dict_calls reqs ∅, p).
Proof.
  intros Hs Hleaf Hdummy Hc Hfits Hv.
  pose proof (models_init _ _ _ _ _ _ _ _ Hs Hleaf Hdummy Hc Hfits) as Hm.
  apply Client_init_spec in Hc as (_ & _ & _ & _ & (HN & _) & _).
  apply Server_init_spec in Hs as (_ & _ & ->). simpl_state.
  destruct (models_calls reqs ∅ c server Hm) as (c' & s' & Hcalls & _).
  { by rewrite HN. }
  eauto.
Qed.

Lemma oram_is_dictionary_witness :
  let fresh := λ level : nat, [Z.of_nat level] in
  let reqs :=
    [mkRequest "write" 3 (bytes_of_string "ABCD") 1 fresh;
     mkRequest "read" 3 [] 0 fresh;
     mkRequest "write" 3 (bytes_of_string "WXYZ") 1 fresh;
     mkRequest "delete" 3 [] 0 fresh;
     mkRequest "read" 3 [] 1 fresh] in
  ∃ p, calls reqs (start 16 4 0).1 (start 16 4 0).2 = Ok (dict_calls reqs ∅, p).
Proof.
  intros fresh reqs.
  pose proof (setup_start 16 4 0 ltac:(by vm_compute)) as Hs.
  unfold setup in Hs. apply rbind_ok in Hs as (s0 & Hs0 & Hc).
  rewrite (surjective_pairing (start 16 4 0)) in Hc.
  pose proof (Server_init_spec _ _ _ Hs0) as (_ & _ & Heq).
  eapply (oram_is_dictionary toy_correct 16 4 s0); [exact Hs0| |by vm_compute|exact Hc| |].
  - intros block. rewrite Heq. vm_compute. lia.
  - vm_compute. lia.
  - vm_compute. repeat split; try done; try lia; eauto.
Defined.

Lemma Access_unknown_op `{Cipher} op a d d0 x fr c server :
  op ≠ "write"%string → op ≠ "delete"%string →
  Access op a d x fr c server = Access "read" a d0 x fr c server.
Proof.
  intros Hw Hd. unfold Access. destruct (position_map c !! a) as [y|]; [|done].
  destruct (read_path _ _ _ _) as [[e|] st1]; [done|].
  destruct (locate a st1) as [block_idx data0]. unfold update.
  by rewrite !bool_decide_eq_false_2.
Qed.

(** X16.  An operation that is neither ["write"] nor ["delete"] is a read,
    and reads change nothing a later read returns.  In a state of an honest
    run (clean dummy block, leaves drawn in the tree, clean writes) on a
    geometry that fits: a call under such a name has the outcome, result and
    state, of the call ["read"] with the same draws, whatever [data_] it is
    given; and a read of [a] made after a read of any address [b], under
    any such names, returns what a read of [a] made at once returns. *)
Theorem reads_are_pure `{C : Cipher} (CC : CipherCorrect C)
    c server op op' op'' a b d d' d'' x x' x'' fr fr' fr'' :
  honest c server → fits server →
  (0 ≤ a < Z.of_nat (srvN server))%Z → (0 ≤ b < Z.of_nat (srvN server))%Z →
  x < 2 ^ L server → x' < 2 ^ L server → x'' < 2 ^ L server →
  op ≠ "write"%string → op ≠ "delete"%string →
  op' ≠ "write"%string → op' ≠ "delete"%string →
  op'' ≠ "write"%string → op'' ≠ "delete"%string →
  (∀ d0, Access op a d x fr c server = Access "read" a d0 x fr c server)
  ∧ ∃ r r' c1 s1 c2 s2 c3 s3,
      Access op a d x fr c server = Returned r c1 s1
      ∧ Access op' b d' x' fr' c server = Returned r' c2 s2
      ∧ Access op'' a d'' x'' fr'' c2 s2 = Returned r c3 s3.
Proof.
  intros Hh Hf Ha Hb Hx Hx' Hx'' Hw Hd Hw' Hd' Hw'' Hd''.
  split; [intros d0; by apply Access_unknown_op|].
  destruct (honest_models c server Hh Hf) as [m Hm].
  destruct (models_Access m op a d x fr c server Hm Ha Hx) as (c1 & s1 & HA1 & _);
    [done..|].
  destruct (models_Access m op' b d' x' fr' c server Hm Hb Hx')
    as (c2 & s2 & HA2 & Hm2 & (HN & _ & _ & HL)); [done..|].
  assert (dict_step op' b d' m = m) as Hsame.
  { unfold dict_step. by rewrite !bool_decide_eq_false_2. }
  rewrite Hsame in Hm2.
  destruct (models_Access m op'' a d'' x'' fr'' c2 s2 Hm2) as (c3 & s3 & HA3 & _);
    [by rewrite HN|by rewrite HL|done..|].
  exists (m !! a), (m !! b), c1, s1, c2, s2, c3, s3. by split_and!.
Qed.

Lemma reads_are_pure_witness :
  let fresh := λ level : nat, [Z.of_nat level] in
  let q := outcome_state (call "write" 3 "ABCD" 1 (start 16 4 0)) in
  (∀ d0, Access "peek" 3 (bytes_of_string "junk") 0 fresh q.1 q.2
         = Access "read" 3 d0 0 fresh q.1 q.2)
  ∧ ∃ r r' c1 s1 c2 s2 c3 s3,
      Access "peek" 3 (bytes_of_string "junk") 0 fresh q.1 q.2 = Returned r c1 s1
      ∧ Access "look" 7 [] 1 fresh q.1 q.2 = Returned r' c2 s2
      ∧ Access "read" 3 [] 1 fresh c2 s2 = Returned r c3 s3.
Proof.
  intros fresh q.
  apply (reads_are_pure toy_correct q.1 q.2 "peek" "look" "read" 3 7
           (bytes_of_string "junk") [] [] 0 1 1 fresh fresh fresh).
  - apply (honest_call "write" 3%Z (bytes_of_string "ABCD") 1 fresh
             (start 16 4 0).1 (start 16 4 0).2).
    + apply start_honest; [by vm_compute|vm_compute; lia|by vm_compute].
    + vm_compute. lia.
    + intros _. by vm_compute.
  - vm_compute. lia.
  - vm_compute. by split.
  - vm_compute. by split.
  - vm_compute. lia.
  - vm_compute. lia.
  - vm_compute. lia.
  - intros [=].
  - intros [=].
  - intros [=].
  - intros [=].
  - intros [=].
  - intros [=].
Defined.

(** X17.  A delete of an address that holds something returns what it held, and
    the read that follows returns [None]: in a state of an honest run on a
    geometry that fits, if a read of [a] would return [d], then the delete of
    [a] returns [d] and a read of [a] after it returns [None]. *)
Theorem delete_then_read `{C : Cipher} (CC : CipherCorrect C)
    c server a d d0 d1 d2 x0 x1 x2 fr0 fr1 fr2 :
  honest c server → fits server →
  x0 < 2 ^ L server → x1 < 2 ^ L server → x2 < 2 ^ L server →
  answer (Access "read" a d0 x0 fr0 c server) = inl (Some d) →
  ∃ c1 s1 c2 s2,
    Access "delete" a d1 x1 fr1 c server = Returned (Some d) c1 s1
    ∧ Access "read" a d2 x2 fr2 c1 s1 = Returned None c2 s2.
Proof.
  intros Hh Hf Hx0 Hx1 Hx2 Hread.
  destruct (honest_models c server Hh Hf) as [m Hm].
  assert (0 ≤ a < Z.of_nat (srvN server))%Z as Ha.
  { destruct Hm as (f & HI & _). apply (inv_pm_dom _ _ _ _ HI).
    unfold Access in Hread. by destruct (position_map c !! a). }
  destruct (models_Access m "read" a d0 x0 fr0 c server Hm Ha Hx0) as (c0 & s0 & HA0 & _);
    [done..|].
  rewrite HA0 in Hread. cbn [answer] in Hread. injection Hread as Hma.
  destruct (models_Access m "delete" a d1 x1 fr1 c server Hm Ha Hx1)
    as (c1 & s1 & HA1 & Hm1 & (HN & _ & _ & HL)); [done|by rewrite Hma|].
  destruct (models_Access _ "read" a d2 x2 fr2 c1 s1 Hm1) as (c2 & s2 & HA2 & _);
    [by rewrite HN|by rewrite HL|done..|].
  exists c1, s1, c2, s2. rewrite <- Hma. split; [done|]. rewrite HA2. f_equal.
  unfold dict_step. cbn. apply lookup_delete_eq.
Qed.

Lemma delete_then_read_witness :
  let fresh := λ level : nat, [Z.of_nat level] in
  let q := outcome_state (call "write" 3 "ABCD" 1 (start 16 4 0)) in
  ∃ c1 s1 c2 s2,
    Access "delete" 3 [] 0 fresh q.1 q.2 = Returned (Some (bytes_of_string "ABCD")) c1 s1
    ∧ Access "read" 3 [] 1 fresh c1 s1 = Returned None c2 s2.
Proof.
  intros fresh q.
  apply (delete_then_read toy_correct q.1 q.2 3 (bytes_of_string "ABCD") [] [] []
           0 0 1 fresh fresh fresh).
  - apply (honest_call "write" 3%Z (bytes_of_string "ABCD") 1 fresh
             (start 16 4 0).1 (start 16 4 0).2).
    + apply start_honest; [by vm_compute|vm_compute; lia|by vm_compute].
    + vm_compute. lia.
    + intros _. by vm_compute.
  - vm_compute. lia.
  - vm_compute. lia.
  - vm_compute. lia.
  - vm_compute. lia.
  - by vm_compute.
Defined.

(** X18.  What is written stays until it is written or deleted again: in a state
    of an honest run on a geometry that fits, after a write of [d] to [a],
    calls in order on other addresses that are not deletes, however many,
    all return, and the read of [a] after them returns [d]. *)
Theorem write_persists `{C : Cipher} (CC : CipherCorrect C)
    c server a d new_x fresh reqs d' x' fresh' :
  honest c server → fits server →
  (0 ≤ a < Z.of_nat (srvN server))%Z → new_x < 2 ^ L server →
  clean (Block.mk a (Z.of_nat new_x) d false) →
  Forall (λ r, request_ok (srvN server) (L server) r
               ∧ req_a r ≠ a ∧ req_op r ≠ "delete"%string) reqs →
  x' < 2 ^ L server →
  ∃ outs p,
    calls (mkRequest "write" a d new_x fresh
             :: reqs ++ [mkRequest "read" a d' x' fresh']) c server
    = Ok (outs ++ [Some d], p)
    ∧ length outs = S (length reqs).
Proof.
  intros Hh Hf Ha Hnx Hclean Hall Hx'.
  destruct (honest_models c server Hh Hf) as [m Hm].
  set (w := mkRequest "write" a d new_x fresh).
  set (rd := mkRequest "read" a d' x' fresh').
  destruct (models_calls (w :: reqs ++ [rd]) m c server Hm) as (c' & s' & Hc & _).
  { apply valid_calls_no_delete. constructor; [|apply Forall_app; split].
    - split; [|done]. unfold request_ok.
      split; [exact Ha|split; [exact Hnx|intros _; exact Hclean]].
    - eapply Forall_impl; [exact Hall|]. by intros r (? & _ & ?).
    - constructor; [|constructor]. split; [|done]. unfold request_ok.
      split; [exact Ha|split; [exact Hx'|intros [=]]]. }
  exists (m !! a :: dict_calls reqs (<[a:=d]> m)), (c', s'). rewrite Hc.
  split; [|by cbn [length]; rewrite dict_calls_length].
  do 2 f_equal. cbn [dict_calls w req_a req_op req_data]. unfold dict_step at 1.
  rewrite bool_decide_eq_true_2 by done. cbn [app]. f_equal.
  rewrite dict_calls_app. f_equal. cbn [dict_calls rd req_a]. f_equal.
  rewrite dict_after_other.
  - apply lookup_insert_eq.
  - eapply Forall_impl; [exact Hall|]. by intros r (_ & ? & _).
Qed.

Lemma write_persists_witness :
  let fresh := λ level : nat, [Z.of_nat level] in
  ∃ outs p,
    calls (mkRequest "write" 3 (bytes_of_string "ABCD") 1 fresh
             :: [mkRequest "write" 4 (bytes_of_string "WXYZ") 0 fresh;
                 mkRequest "read" 5 [] 1 fresh]
                ++ [mkRequest "read" 3 [] 0 fresh])
      (start 16 4 0).1 (start 16 4 0).2
    = Ok (outs ++ [Some (bytes_of_string "ABCD")], p)
    ∧ length outs = 3.
Proof.
  intros fresh.
  apply (write_persists toy_correct (start 16 4 0).1 (start 16 4 0).2 3
           (bytes_of_string "ABCD") 1 fresh
           [mkRequest "write" 4 (bytes_of_string "WXYZ") 0 fresh;
            mkRequest "read" 5 [] 1 fresh] [] 0 fresh).
  - apply start_honest; [by vm_compute|vm_compute; lia|by vm_compute].
  - vm_compute. lia.
  - vm_compute. by split.
  - vm_compute. lia.
  - by vm_compute.
  - repeat constructor; vm_compute; try done; try lia.
  - vm_compute. lia.
Defined.

(** ** Blocks of the drivers *)

Lemma has_sep_pairs bs :
  (∀ i b1 b2, bs !! i = Some b1 → bs !! S i = Some b2 → ¬ (b1 = bar ∧ b2 = bar)) →
  has_sep bs = false.
Proof.
  induction bs as [|b1 tl IH]; [done|]. intros Hall.
  destruct tl as [|b2 rest]; [done|].
  change (has_sep (b1 :: b2 :: rest)) with
    ((bool_decide (b1 = bar) && bool_decide (b2 = bar)) || has_sep (b2 :: rest)).
  apply orb_false_iff. split.
  - apply andb_false_iff. specialize (Hall 0 b1 b2 eq_refl eq_refl).
    destruct (decide (b1 = bar)) as [->|Hne].
    + right. apply bool_decide_eq_false_2. tauto.
    + left. by apply bool_decide_eq_false_2.
  - apply IH. intros i c1 c2 H1 H2. by apply (Hall (S i) c1 c2).
Qed.

Lemma small_bytes n :
  (0 ≤ n < 31868)%Z →
  ∃ hi lo, to_bytes4 n = Ok [0; 0; hi; lo]%Z ∧ ¬ (hi = 124 ∧ lo = 124)%Z
           ∧ (0 ≤ hi < 256)%Z ∧ (0 ≤ lo < 256)%Z.
Proof.
  intros Hn. unfold to_bytes4. rewrite bool_decide_eq_true_2 by lia.
  exists ((n / 2 ^ 8) `mod` 256)%Z, (n `mod` 256)%Z.
  change (2 ^ 24)%Z with 16777216%Z. change (2 ^ 16)%Z with 65536%Z.
  change (2 ^ 8)%Z with 256%Z.
  rewrite (Z.div_small n 16777216), (Z.div_small n 65536) by lia.
  split; [done|]. split; [|split; apply Z.mod_pos_bound; lia].
  intros [H1 H2]. rewrite Z.mod_small in H1.
  - pose proof (Z.div_mod n 256 ltac:(lia)). lia.
  - split; [apply Z.div_pos; lia|]. apply Z.div_lt_upper_bound; lia.
Qed.

(** A block with small fields and a payload of four ASCII characters other
    than [|] goes through the codec. *)
Lemma clean_small a x d1 d2 d3 d4 fl :
  (0 ≤ a < 31868)%Z → (0 ≤ x < 31868)%Z →
  Forall (λ d, 0 ≤ d < 124)%Z [d1; d2; d3; d4] →
  clean (Block.mk a x [d1; d2; d3; d4] fl).
Proof.
  intros Ha Hx Hd. repeat (apply Forall_cons in Hd as [? Hd]).
  destruct (small_bytes a Ha) as (a1 & a0 & Hab & Hane & ? & ?).
  destruct (small_bytes x Hx) as (x1 & x0 & Hxb & Hxne & ? & ?).
  unfold clean, Block.serialize. cbn [Block.a Block.x Block.data Block.dummy_flag].
  rewrite Hab, Hxb. cbn [rbind app]. split_and!.
  - done.
  - unfold utf8_valid. cbn [length utf8_valid_fuel].
    by rewrite !bool_decide_eq_true_2 by lia.
  - apply has_sep_pairs. intros i b1 b2. unfold bar.
    destruct fl; cbn [bytes_of_string String.list_ascii_of_string fmap list_fmap app];
      do 13 (destruct i as [|i];
             [cbn; intros [= <-] [= <-]; lia|]); cbn; intros _ [=].
Qed.

(** ** The workloads *)

Lemma alphabet_small : Forall (λ d, 0 ≤ d < 124)%Z alphabet.
Proof. apply Forall_forall. intros d Hd. vm_compute in Hd.
  repeat (apply elem_of_cons in Hd as [->|Hd]; [lia|]). by apply elem_of_nil in Hd. Qed.

Lemma random_4char_string_ok i1 i2 i3 i4 :
  i1 < 62 → i2 < 62 → i3 < 62 → i4 < 62 →
  ∃ d1 d2 d3 d4, random_4char_string (i1, i2, i3, i4) = Ok [d1; d2; d3; d4]
    ∧ Forall (λ d, 0 ≤ d < 124)%Z [d1; d2; d3; d4].
Proof.
  intros H1 H2 H3 H4. unfold random_4char_string. cbn [rmapM].
  assert (∀ i, i < 62 → ∃ d, alphabet !! i = Some d ∧ (0 ≤ d < 124)%Z) as Hpick.
  { intros i Hi. destruct (lookup_lt_is_Some_2 alphabet i) as [d Hd]; [done|].
    exists d. split; [done|].
    apply (proj1 (Forall_forall _ _) alphabet_small). by eapply list_elem_of_lookup_2. }
  destruct (Hpick i1 H1) as (d1 & -> & ?), (Hpick i2 H2) as (d2 & -> & ?),
    (Hpick i3 H3) as (d3 & -> & ?), (Hpick i4 H4) as (d4 & -> & ?).
  exists d1, d2, d3, d4. split; [done|]. by repeat apply Forall_cons_2.
Qed.

Section workload_runs.
Context `{C : Cipher} {CC : CipherCorrect C}.

Lemma honest_Access op a data_ new_x fresh c server :
  honest c server → fits server → (0 ≤ a < Z.of_nat (srvN server))%Z →
  new_x < 2 ^ L server →
  (op = "write"%string → clean (Block.mk a (Z.of_nat new_x) data_ false)) →
  ∃ r c' server',
    Access op a data_ new_x fresh c server = Returned r c' server'
    ∧ honest c' server' ∧ fits server' ∧ same_config server server'.
Proof.
  intros Hh Hf Ha Hleaf Hclean.
  destruct (honest_Inv c server Hh Hf) as [f HI].
  destruct (proj2 (inv_pm_dom _ _ _ _ HI _) Ha) as [x Hx].
  destruct (Inv_Access f op a data_ new_x fresh c server x HI Hx Hleaf Hclean)
    as (c1 & s1 & f1 & HA & HI1 & _ & Hcfg & _).
  pose proof (honest_call op a data_ new_x fresh c server Hh Hleaf Hclean) as Hh1.
  rewrite HA in Hh1. cbn [outcome_state fst snd] in Hh1.
  eexists _, c1, s1. split_and!; [exact HA|done| |done]. apply (inv_fits _ _ _ _ HI1).
Qed.

Lemma honest_config c server :
  honest c server → 2 ^ L server < num_of_buckets server ≤ srvN server.
Proof.
  induction 1 as [N Z s0 rl rk rn c server Hs Hrl Hdummy Hc
                 |op a d nx fresh c server _ IH Hnx Hnew].
  - apply Client_init_spec in Hc as (_ & _ & _ & _ & (HN & _ & Hnb & HL) & _).
    apply Server_init_spec in Hs as (HZ & Hnb2 & ->). simpl_state.
    rewrite HN, Hnb, HL.
    pose proof (Nat.log2_up_spec (N `div` Z) ltac:(lia)) as [Hlo _].
    replace (Nat.pred (Nat.log2_up (N `div` Z))) with (Nat.log2_up (N `div` Z) - 1)
      in Hlo by lia.
    split; [done|]. apply Nat.Div0.div_le_upper_bound. nia.
  - pose proof (Access_outcome op a d nx fresh c server) as Hout. cbv zeta in Hout.
    destruct Hout as ((HN & _ & Hnb & HL) & _). by rewrite HN, Hnb, HL.
Qed.

Lemma one_random_op_honest k r new_x fresh c server :
  honest c server → fits server → (Z.of_nat (srvN server) < 31868)%Z →
  k < srvN server → new_x < 2 ^ L server →
  ∃ data c' server',
    one_random_op (Z.of_nat <$> seq 0 (srvN server)) k r new_x fresh c server
    = Returned data c' server'
    ∧ honest c' server' ∧ fits server' ∧ same_config server server'.
Proof.
  intros Hh Hf HN Hk Hleaf. unfold one_random_op, choice.
  rewrite list_lookup_fmap, lookup_seq_lt by done. cbn [fmap option_fmap option_map or_raise].
  pose proof (honest_config c server Hh) as [HL Hnb].
  assert (clean (Block.mk (Z.of_nat (0 + k)) (Z.of_nat new_x) (bytes_of_string "DATA") false))
    as Hclean.
  { apply clean_small; [lia|lia|]. repeat constructor; lia. }
  unfold store_data, retrieve_data, delete_data.
  destruct (float_lt r float_034); [|destruct (float_lt r float_067)];
    apply honest_Access; try done; lia.
Qed.

Lemma sequential_ops_honest draws : ∀ c server,
  honest c server → fits server → (Z.of_nat (srvN server) < 31868)%Z →
  Forall (λ d, draw_index d < srvN server ∧ draw_leaf d < 2 ^ L server) draws →
  ∃ p, sequential_ops (Z.of_nat <$> seq 0 (srvN server)) draws c server = Ok p.
Proof.
  induction draws as [|d draws IH]; intros c server Hh Hf HN Hall.
  - cbn. eauto.
  - apply Forall_cons in Hall as [[Hk Hleaf] Hall]. cbn [sequential_ops].
    destruct (one_random_op_honest (draw_index d) (draw_r d) (draw_leaf d) (draw_nonce d)
                c server Hh Hf HN Hk Hleaf) as (data & c1 & s1 & -> & Hh1 & Hf1 & Hcfg).
    destruct Hcfg as (HN1 & _ & _ & HL1). rewrite <- HN1. apply IH; [done..|lia|].
    by rewrite HN1, HL1.
Qed.

Lemma benchmark_request_honest ops key_space d c server :
  honest c server → fits server → (Z.of_nat (srvN server) < 31868)%Z →
  (0 < key_space ≤ Z.of_nat (srvN server))%Z →
  bd_op d < length ops → (0 ≤ bd_a d < key_space)%Z → bd_leaf d < 2 ^ L server →
  (let '(i1, i2, i3, i4) := bd_picks d in i1 < 62 ∧ i2 < 62 ∧ i3 < 62 ∧ i4 < 62) →
  ∃ data c' server',
    benchmark_request ops key_space d c server = Returned data c' server'
    ∧ honest c' server' ∧ fits server' ∧ same_config server server'.
Proof.
  intros Hh Hf HN Hks Hop Ha Hleaf Hpicks. unfold benchmark_request, choice.
  destruct (lookup_lt_is_Some_2 ops (bd_op d) Hop) as [op ->]. cbn [or_raise].
  rewrite bool_decide_eq_false_2 by lia.
  pose proof (honest_config c server Hh) as [HL Hnb].
  case_bool_decide as Hw.
  - destruct (bd_picks d) as [[[i1 i2] i3] i4]. destruct Hpicks as (H1 & H2 & H3 & H4).
    destruct (random_4char_string_ok i1 i2 i3 i4 H1 H2 H3 H4)
      as (d1 & d2 & d3 & d4 & -> & Hsmall).
    apply honest_Access; [done|done|lia|done|]. intros _. apply clean_small; [lia|lia|done].
  - apply honest_Access; [done|done|lia|done|done].
Qed.

Lemma benchmark_loop_honest ops key_space draws : ∀ c server,
  honest c server → fits server → (Z.of_nat (srvN server) < 31868)%Z →
  (0 < key_space ≤ Z.of_nat (srvN server))%Z →
  Forall (λ d, bd_op d < length ops ∧ (0 ≤ bd_a d < key_space)%Z
               ∧ bd_leaf d < 2 ^ L server
               ∧ let '(i1, i2, i3, i4) := bd_picks d in
                 i1 < 62 ∧ i2 < 62 ∧ i3 < 62 ∧ i4 < 62) draws →
  ∃ p, benchmark_loop ops key_space draws c server = Ok p.
Proof.
  induction draws as [|d draws IH]; intros c server Hh Hf HN Hks Hall.
  - cbn. eauto.
  - apply Forall_cons in Hall as [(Hop & Ha & Hleaf & Hpicks) Hall]. cbn [benchmark_loop].
    destruct (benchmark_request_honest ops key_space d c server Hh Hf HN Hks Hop Ha Hleaf
                Hpicks) as (data & c1 & s1 & -> & Hh1 & Hf1 & Hcfg).
    destruct Hcfg as (HN1 & _ & _ & HL1). apply IH; [done..|lia|lia|].
    by rewrite HL1.
Qed.
End workload_runs.

(** X19.  The payloads [random_4char_string] of [main.py] draws go through the
    codec: four letters or digits, so that a block that carries one, with an
    address and a leaf below 31868, is clean. *)
Theorem random_4char_string_clean i1 i2 i3 i4 :
  i1 < 62 → i2 < 62 → i3 < 62 → i4 < 62 →
  ∃ s, random_4char_string (i1, i2, i3, i4) = Ok s ∧ length s = 4
    ∧ ∀ a x fl, (0 ≤ a < 31868)%Z → (0 ≤ x < 31868)%Z → clean (Block.mk a x s fl).
Proof.
  intros H1 H2 H3 H4.
  destruct (random_4char_string_ok i1 i2 i3 i4 H1 H2 H3 H4)
    as (d1 & d2 & d3 & d4 & -> & Hsmall).
  eexists. split; [done|]. split; [done|]. intros a x fl Ha Hx. by apply clean_small.
Qed.

Lemma random_4char_string_clean_witness :
  ∃ s, random_4char_string (0, 27, 52, 61) = Ok s ∧ length s = 4
    ∧ ∀ a x fl, (0 ≤ a < 31868)%Z → (0 ≤ x < 31868)%Z → clean (Block.mk a x s fl).
Proof. apply random_4char_string_clean; lia. Defined.

(** X20.  [run_sequential] of [benchmark.py] on a size whose bucket count fits
    (the sizes 256, 1024, 4096 and 16384 of the benchmark among them): the
    construction and every request go through, whatever is drawn, deletes of
    addresses that hold nothing included; the run then raises
    [ZeroDivisionError] when it makes no request or measures no time, and
    returns otherwise. *)
Theorem run_sequential_returns `{C : Cipher} (CC : CipherCorrect C)
    N rnd_leaf rnd_key rnd_nonce draws tz :
  8 ≤ N → (Z.of_nat N < 31867)%Z →
  2 ^ Nat.log2_up (N `div` 4) - 1 ≤ N `div` 4 →
  (∀ block, rnd_leaf block < 2 ^ (Nat.log2_up (N `div` 4) - 1)) →
  Forall (λ d, draw_index d < N
               ∧ draw_leaf d < 2 ^ (Nat.log2_up (N `div` 4) - 1)) draws →
  ∃ p, run_sequential N rnd_leaf rnd_key rnd_nonce draws tz
       = if (tz || (length draws =? 0))%bool then Raise ZeroDivisionError else Ok p.
Proof.
  intros HN8 HN Hfits Hleaf Hdraws.
  assert (2 ≤ N `div` 4) as Hnb by (apply Nat.div_le_lower_bound; lia).
  assert (Server_init N 4 = Ok (mkServer N 4 (N `div` 4) (Nat.log2_up (N `div` 4) - 1)
                                  (replicate (N `div` 4) []))) as Hs.
  { unfold Server_init. cbn [Nat.eqb]. destruct (Nat.ltb_spec (N `div` 4) 2); [lia|done]. }
  destruct (Client_init_ok N 4 _ rnd_leaf rnd_key rnd_nonce Hs ltac:(lia))
    as (c & server & Hc).
  pose proof (Client_init_spec _ _ _ _ _ _ Hc) as (_ & _ & _ & _ & (HsN & _ & Hsnb & HsL) & _).
  simpl_state.
  assert (fits server) as Hf.
  { unfold fits. rewrite HsL, Hsnb.
    assert (1 ≤ Nat.log2_up (N `div` 4)) by (apply Nat.log2_up_pos; lia).
    by replace (Nat.log2_up (N `div` 4) - 1 + 1) with (Nat.log2_up (N `div` 4)) by lia. }
  assert (honest c server) as Hh.
  { eapply honest_init; [exact Hs|exact Hleaf| |exact Hc].
    apply clean_small; [lia|lia|]. repeat constructor; cbn; lia. }
  destruct (sequential_ops_honest draws c server Hh Hf) as [p Hp].
  { rewrite HsN. lia. }
  { by rewrite HsN, HsL. }
  exists p. unfold run_sequential. rewrite Hs. cbn [rbind]. rewrite Hc. cbn [rbind fst snd].
  rewrite HsN in Hp. rewrite Hp. cbn [rbind]. by destruct tz, (length draws =? 0).
Qed.

Lemma run_sequential_returns_witness :
  let draws :=
    [mkDraw 3 (QArith_base.Qmake 1 10) 5 (λ level, [Z.of_nat level]);
     mkDraw 200 (QArith_base.Qmake 9 10) 31 (λ level, [Z.of_nat level]);
     mkDraw 3 (QArith_base.Qmake 1 2) 0 (λ level, [Z.of_nat level])] in
  ∃ p, @run_sequential toy 256 (λ _, 0) (λ i, Z.of_nat i) (λ i, [Z.of_nat i]) draws false
       = if (false || (length draws =? 0))%bool then Raise ZeroDivisionError else Ok p.
Proof.
  intros draws. apply (run_sequential_returns toy_correct).
  - lia.
  - lia.
  - vm_compute. lia.
  - intros _. vm_compute. lia.
  - repeat apply Forall_cons_2; [..|constructor]; vm_compute; lia.
Defined.

(** X21.  [benchmark_oram] of [main.py] on a client and server of an honest run
    whose geometry fits, with addresses drawn below [key_space <= N]: every
    request goes through, whatever is drawn; the function then raises
    [ZeroDivisionError] when it makes no request or measures no time, and
    returns otherwise. *)
Theorem benchmark_oram_returns `{C : Cipher} (CC : CipherCorrect C)
    ops key_space draws tz c server :
  honest c server → fits server → (Z.of_nat (srvN server) < 31868)%Z →
  (0 < key_space ≤ Z.of_nat (srvN server))%Z →
  Forall (λ d, bd_op d < length ops ∧ (0 ≤ bd_a d < key_space)%Z
               ∧ bd_leaf d < 2 ^ L server
               ∧ let '(i1, i2, i3, i4) := bd_picks d in
                 i1 < 62 ∧ i2 < 62 ∧ i3 < 62 ∧ i4 < 62) draws →
  ∃ p, benchmark_oram ops key_space draws tz c server
       = if ((length draws =? 0) || tz)%bool then Raise ZeroDivisionError else Ok p.
Proof.
  intros Hh Hf HN Hks Hall.
  destruct (benchmark_loop_honest ops key_space draws c server Hh Hf HN Hks Hall) as [p Hp].
  exists p. unfold benchmark_oram. rewrite Hp. cbn [rbind].
  by destruct (length draws =? 0), tz.
Qed.

Lemma benchmark_oram_returns_witness :
  let ops := ["read"; "write"; "delete"]%string in
  let draws :=
    [mkBenchDraw 1 3 (0, 27, 52, 61) 1 (λ level, [Z.of_nat level]);
     mkBenchDraw 2 7 (0, 0, 0, 0) 0 (λ level, [Z.of_nat level]);
     mkBenchDraw 0 3 (0, 0, 0, 0) 1 (λ level, [Z.of_nat level])] in
  ∃ p, benchmark_oram ops 16 draws false (start 16 4 0).1 (start 16 4 0).2
       = if ((length draws =? 0) || false)%bool then Raise ZeroDivisionError else Ok p.
Proof.
  intros ops draws. apply (benchmark_oram_returns toy_correct).
  - apply start_honest; [by vm_compute|vm_compute; lia|by vm_compute].
  - vm_compute. lia.
  - vm_compute. done.
  - vm_compute. by split.
  - repeat apply Forall_cons_2; [..|constructor]; vm_compute; repeat split; lia || done.
Defined.

(** ** What every call keeps *)

(** X22.  In a run in which the leaves drawn are leaves, the position map
    has an entry for each address of [0, N) and for no other, and each entry
    is a leaf of the tree; whatever the calls, their payloads and their
    outcomes. *)
Theorem position_map_invariant `{Cipher} c server :
  leaves_drawn c server →
  (∀ a, is_Some (position_map c !! a) ↔ (0 ≤ a < Z.of_nat (srvN server))%Z)
  ∧ (∀ a x, position_map c !! a = Some x → x < 2 ^ L server).
Proof.
  induction 1 as [N Z s0 rl rk rn c server Hs Hrl Hc
                 |op a d nx fresh c server _ [IH1 IH2] Hnx].
  - pose proof (Client_init_position_map _ _ _ _ _ _ Hc) as Hpm.
    apply Client_init_spec in Hc as (_ & _ & _ & _ & (HN & _ & _ & HL) & _).
    rewrite HN, HL. split.
    + intros a. rewrite Hpm. case_bool_decide; split; by (done || intros [? [=]] || eauto).
    + intros a x. rewrite Hpm. case_bool_decide; [|done]. intros [= <-]. apply Hrl.
  - pose proof (Access_outcome op a d nx fresh c server) as Hout. cbv zeta in Hout.
    destruct Hout as ((HN & _ & _ & HL) & _ & Hpm). rewrite HN, HL.
    destruct (position_map c !! a) as [x|] eqn:Ha; [|by rewrite Hpm].
    rewrite Hpm. split.
    + intros b. rewrite <- IH1. destruct (decide (a = b)) as [<-|Hne].
      * rewrite lookup_insert_eq, Ha. split; eauto.
      * by rewrite lookup_insert_ne.
    + intros b y. destruct (decide (a = b)) as [<-|Hne].
      * rewrite lookup_insert_eq. by intros [= <-].
      * rewrite lookup_insert_ne by done. apply IH2.
Qed.

Lemma position_map_invariant_witness :
  let q := outcome_state (call "write" 3 "AB" 1 (start 16 4 0)) in
  (∀ a, is_Some (position_map q.1 !! a) ↔ (0 ≤ a < Z.of_nat (srvN q.2))%Z)
  ∧ (∀ a x, position_map q.1 !! a = Some x → x < 2 ^ L q.2).
Proof.
  intros q. apply position_map_invariant.
  apply (leaves_drawn_call "write" 3%Z (bytes_of_string "AB") 1
           (λ level, [Z.of_nat level]) (start 16 4 0).1 (start 16 4 0).2).
  - pose proof (setup_start 16 4 0 ltac:(by vm_compute)) as Hs.
    unfold setup in Hs. apply rbind_ok in Hs as (s0 & Hs0 & Hc).
    pose proof (Server_init_spec _ _ _ Hs0) as (_ & _ & Heq).
    rewrite (surjective_pairing (start 16 4 0)) in Hc.
    eapply leaves_drawn_init; [exact Hs0| |exact Hc].
    intros block. rewrite Heq. vm_compute. lia.
  - vm_compute. lia.
Defined.

(** X23.  A call never touches the keys, the geometry or the sizes of the
    arrays, whether it returns or raises: the key list and [N], [Z],
    [num_of_buckets] and [L] are as before, and the tree and the nonce list
    have the lengths they had. *)
Theorem Access_keeps_keys_and_sizes `{Cipher} op a data_ new_x fresh c server :
  let p := outcome_state (Access op a data_ new_x fresh c server) in
  keys p.1 = keys c ∧ same_config server p.2
  ∧ length (tree p.2) = length (tree server)
  ∧ length (nonces p.1) = length (nonces c).
Proof.
  unfold Access. destruct (position_map c !! a) as [x|]; [|by cbn].
  rewrite read_path_set_position_map.
  destruct (read_path _ _ _ _) as [[e|] st1]; [by cbn|].
  destruct (locate a st1) as [block_idx data0].
  destruct (update _ _ _ _ _ _) as [st2|]; [|by cbn].
  match goal with |- context [evict ?f ?p ?l ?c' ?s'] =>
    pose proof (evict_frame f p l c' s') as Hf;
    destruct (evict f p l c' s') as [c2 s2|e c2 s2] end;
    cbn in Hf |- *; by destruct Hf as (_ & -> & ? & -> & -> & _).
Qed.
